(** * Gradient accumulation rewrite of alpa's shard-parallel callable

    A shallow embedding of [filter_used_vars], [clone_vars] and
    [add_gradient_accumulation] from [alpa/shard_parallel/shard_callable.py],
    together with the pieces of [jax.core] they are written against
    ([Var], [Literal], [JaxprEqn], [Jaxpr], [ClosedJaxpr], [gensym]);
    then of their caller [shard_parallel_internal_gradient_accumulation],
    of the search space of [shard_parallel_callable], and of the test
    loader of [alpa/testing.py]. *)

From stdpp Require Import gmap strings list fin_maps sorting.
From Stdlib Require Import ZArith.

(** ** The IR *)

(** Modelled from the spec: the types of [jax.core] ([ShapedArray], [Var],
    [Literal], [JaxprEqn], [Jaxpr], [ClosedJaxpr]) are declared outside the
    sources; the records below follow the data model of the specification
    and the fields the sources read.  A value descriptor is an element
    type and a shape. *)
Record ShapedArray := mkAval { dtype : string; shape : list nat }.

(** Modelled from the spec: a variable is an identity token with a value
    descriptor.  The token is the [count] that [gensym] gives each
    variable, so that equality of records stands for identity of
    variables: two variables of equal descriptors differ by their
    counts. *)
Record Var := mkVar { count : nat; aval : ShapedArray }.

(** Modelled from the spec: a literal constant written in place of an
    input variable, with its value (kept as an integer scalar) and its
    descriptor. *)
Record Literal := mkLiteral { val : Z; literal_aval : ShapedArray }.

(** Modelled from the spec: an input of an operation is a variable or a
    literal constant. *)
Inductive Atom :=
  | AVar (v : Var)
  | ALit (l : Literal).

(** Modelled from the spec: the primitive tag of an operation.  The
    sources tell apart, by identity, the marker primitive [pipeline_p],
    [add_p] and [div_p]; every other primitive is [other_p]. *)
Inductive Primitive :=
  | pipeline_p
  | add_p
  | div_p
  | other_p (name : string).

(** Modelled from the spec: an operation has ordered inputs, ordered
    outputs, a primitive and a mapping of named parameters; the constructor
    carries the name of [jax.core.new_jaxpr_eqn], whose last argument, the
    source information, is left out. *)
Record JaxprEqn := new_jaxpr_eqn {
  eqn_invars : list Atom;
  eqn_outvars : list Var;
  primitive : Primitive;
  params : gmap string string
}.

(** Modelled from the spec: a program has constant variables, ordered
    inputs, ordered outputs and an ordered sequence of operations; a closed
    program comes with the values of its constants. *)
Record Jaxpr := mkJaxpr {
  constvars : list Var;
  invars : list Var;
  outvars : list Atom;
  eqns : list JaxprEqn
}.

Record ClosedJaxpr := mkClosedJaxpr {
  jaxpr : Jaxpr;
  consts : list Z
}.

#[global] Instance ShapedArray_eq_dec : EqDecision ShapedArray.
Proof. solve_decision. Defined.

#[global] Instance ShapedArray_countable : Countable ShapedArray.
Proof.
  by apply (inj_countable' (λ a, (dtype a, shape a)) (λ p, mkAval p.1 p.2));
    intros [].
Defined.

#[global] Instance Var_eq_dec : EqDecision Var.
Proof. solve_decision. Defined.

#[global] Instance Var_countable : Countable Var.
Proof.
  by apply (inj_countable' (λ v, (count v, aval v)) (λ p, mkVar p.1 p.2));
    intros [].
Defined.

#[global] Instance Literal_eq_dec : EqDecision Literal.
Proof. solve_decision. Defined.

#[global] Instance Atom_eq_dec : EqDecision Atom.
Proof. solve_decision. Defined.

#[global] Instance Primitive_eq_dec : EqDecision Primitive.
Proof. solve_decision. Defined.

#[global] Instance JaxprEqn_eq_dec : EqDecision JaxprEqn.
Proof. solve_decision. Defined.

(** Python reads [x.aval] off variables and literals alike. *)
Class HasAval (A : Type) := get_aval : A → ShapedArray.
#[global] Instance Var_has_aval : HasAval Var := aval.
#[global] Instance Literal_has_aval : HasAval Literal := literal_aval.
#[global] Instance Atom_has_aval : HasAval Atom := λ x,
  match x with AVar v => aval v | ALit l => literal_aval l end.

(** ** [filter_used_vars] *)

(** [x for x in eqn.invars if not isinstance(x, Literal)] *)
Definition non_literal_invars (eqn : JaxprEqn) : list Var :=
  omap (λ x, match x with AVar v => Some v | ALit _ => None end)
       (eqn_invars eqn).

(** The [used_vars] set after the loop over [eqns]; [alpa.util.OrderedSet]
    is only tested for membership, so that a finite set stands for it. *)
Definition used_vars (eqns : list JaxprEqn) : gset Var :=
  foldl (λ used eqn, used ∪ list_to_set (non_literal_invars eqn)) ∅ eqns.

(** [[var for var in all_vars if var in used_vars]] *)
Definition filter_used_vars (all_vars : list Var) (eqns : list JaxprEqn)
  : list Var :=
  filter (λ var, var ∈ used_vars eqns) all_vars.

(** A variable occurs as a non-literal input of some equation. *)
Definition used_by (eqns : list JaxprEqn) (v : Var) : Prop :=
  ∃ eqn, eqn ∈ eqns ∧ AVar v ∈ eqn_invars eqn.

Section filter_used_vars_facts.
Implicit Types (v : Var) (eqn : JaxprEqn) (es : list JaxprEqn).

Lemma elem_of_non_literal_invars v eqn :
  v ∈ non_literal_invars eqn ↔ AVar v ∈ eqn_invars eqn.
Proof.
  unfold non_literal_invars. rewrite list_elem_of_omap. split.
  - intros (x & Hx & Hv). destruct x; naive_solver.
  - intros Hv. exists (AVar v). done.
Qed.

Lemma used_vars_foldl (acc : gset Var) es v :
  v ∈ foldl (λ used eqn, used ∪ list_to_set (non_literal_invars eqn)) acc es
  ↔ v ∈ acc ∨ used_by es v.
Proof.
  revert acc. induction es as [|e es IH]; intros acc; simpl.
  - split; [auto|]. intros [?|(e & He & _)]; [done|]. by apply elem_of_nil in He.
  - rewrite IH, elem_of_union, elem_of_list_to_set, elem_of_non_literal_invars.
    unfold used_by. split.
    + intros [[?|?]|(e' & He' & ?)]; [by left| |].
      * right. exists e. split; [left|done].
      * right. exists e'. split; [by right|done].
    + intros [?|(e' & He' & ?)]; [by left; left|].
      apply elem_of_cons in He' as [->|He']; [by left; right|].
      right. by exists e'.
Qed.

Lemma elem_of_used_vars es v : v ∈ used_vars es ↔ used_by es v.
Proof.
  unfold used_vars. rewrite used_vars_foldl. split; [|auto].
  intros [H|H]; [|done]. by apply not_elem_of_empty in H.
Qed.

Lemma elem_of_filter_used_vars (l : list Var) es v :
  v ∈ filter_used_vars l es ↔ v ∈ l ∧ used_by es v.
Proof.
  unfold filter_used_vars. rewrite list_elem_of_filter, elem_of_used_vars.
  tauto.
Qed.

Lemma filter_used_vars_sublist (l : list Var) es :
  sublist (filter_used_vars l es) l.
Proof. apply sublist_filter. Qed.

Lemma NoDup_filter_used_vars (l : list Var) es :
  NoDup l → NoDup (filter_used_vars l es).
Proof. apply NoDup_filter. Qed.
End filter_used_vars_facts.

#[global] Instance used_by_dec eqns v : Decision (used_by eqns v).
Proof.
  refine (cast_if (decide (Exists (λ eqn, AVar v ∈ eqn_invars eqn) eqns)));
    unfold used_by; rewrite Exists_exists in *; naive_solver.
Defined.

Lemma filter_used_vars_filter (l : list Var) (es : list JaxprEqn) :
  filter_used_vars l es = filter (used_by es) l.
Proof.
  unfold filter_used_vars. apply list_filter_iff.
  intros v. apply elem_of_used_vars.
Qed.

(** ** Exceptions *)

Inductive Exception :=
  | AssertionError (msg : string)
  | KeyError (key : string)
  | IndexError
  | ValueError.

Inductive Result (A : Type) :=
  | Ok (a : A)
  | Raise (e : Exception).
Arguments Ok {A} a.
Arguments Raise {A} e.

#[global] Instance Result_ret : MRet Result := λ A a, Ok a.
#[global] Instance Result_bind : MBind Result := λ A B f r,
  match r with Ok a => f a | Raise e => Raise e end.

#[global] Instance Result_fmap : FMap Result := λ A B f r,
  match r with Ok a => Ok (f a) | Raise e => Raise e end.

(** ** Python list operations *)

(** [l[i]] for [0 <= i]. *)
Definition getitem {A} (l : list A) (i : nat) : Result A :=
  match l !! i with Some x => Ok x | None => Raise IndexError end.

(** [l[-k]] for [1 <= k]. *)
Definition getitem_neg {A} (l : list A) (k : nat) : Result A :=
  if decide (k ≤ length l) then getitem l (length l - k)
  else Raise IndexError.

(** [l[:-n]] for [0 <= n]; [-0] is [0], so [l[:-0]] is [l[:0]]. *)
Definition slice_until_neg {A} (l : list A) (n : nat) : list A :=
  match n with
  | 0 => take 0 l
  | S _ => take (length l - n) l
  end.

(** [l.index(x)]: the first position of [x], [ValueError] when absent. *)
Fixpoint index `{EqDecision A} (l : list A) (x : A) : Result nat :=
  match l with
  | [] => Raise ValueError
  | y :: l' => if decide (y = x) then Ok 0 else S <$> index l' x
  end.


(** *** Facts on exceptions and list operations *)

Lemma bind_Ok {A B} (m : Result A) (f : A → Result B) (b : B) :
  m ≫= f = Ok b ↔ ∃ a, m = Ok a ∧ f a = Ok b.
Proof.
  destruct m as [a|e]; simpl.
  - split; [eauto | by intros (a' & [= <-] & Hb)].
  - split; [done | by intros (a' & [=] & _)].
Qed.

Lemma fmap_Ok {A B} (f : A → B) (m : Result A) (b : B) :
  f <$> m = Ok b ↔ ∃ a, m = Ok a ∧ b = f a.
Proof.
  destruct m as [a|e]; simpl.
  - split; [intros [= <-]; eauto | by intros (a' & [= <-] & ->)].
  - split; [done | by intros (a' & [=] & _)].
Qed.

Lemma mapM_Ok {A B} (f : A → Result B) (l : list A) (k : list B) :
  mapM f l = Ok k ↔ Forall2 (λ x y, f x = Ok y) l k.
Proof.
  revert k. induction l as [|x l IH]; intros k; simpl.
  - split; [intros [= <-]; constructor | by inversion 1].
  - rewrite bind_Ok. split.
    + intros (y & Hy & Hk). apply bind_Ok in Hk as (k' & Hk' & Heq).
      injection Heq as <-. constructor; [done | by apply IH].
    + inversion 1 as [|? y ? k' Hy Hk']; subst.
      exists y. split; [done|]. apply IH in Hk'. by rewrite Hk'.
Qed.

Lemma mapM_Ok_fmap {A B} (f : A → Result B) (h : A → B) (l : list A) :
  (∀ x, x ∈ l → f x = Ok (h x)) → mapM f l = Ok (h <$> l).
Proof.
  intros H. apply mapM_Ok. apply Forall2_fmap_r, Forall_Forall2_diag.
  by apply Forall_forall.
Qed.

Lemma getitem_Ok {A} (l : list A) (i : nat) (x : A) :
  getitem l i = Ok x ↔ l !! i = Some x.
Proof.
  unfold getitem. destruct (l !! i); split; intros [=]; by subst.
Qed.

Lemma getitem_neg_Ok {A} (l : list A) (k : nat) (x : A) :
  getitem_neg l k = Ok x ↔ k ≤ length l ∧ l !! (length l - k) = Some x.
Proof.
  unfold getitem_neg. case_decide; rewrite ?getitem_Ok.
  - tauto.
  - split; [done | tauto].
Qed.

Section index_facts.
Context `{EqDecision A}.
Implicit Types (l : list A) (x y : A) (i : nat).

Lemma index_Ok l x i :
  index l x = Ok i ↔ l !! i = Some x ∧ ∀ j y, l !! j = Some y → j < i → y ≠ x.
Proof.
  revert i. induction l as [|y l IH]; intros i; simpl.
  - split; [done | by intros [? _]].
  - case_decide as Hy.
    + subst y. split.
      * intros [= <-]. split; [done | lia].
      * intros [Hi Hlt]. destruct i as [|i]; [done|].
        destruct (Hlt 0 x); [done | lia | done].
    + rewrite fmap_Ok. split.
      * intros (i' & Hi' & ->). apply IH in Hi' as [Hi' Hlt].
        split; [done|]. intros [|j] z Hz Hj; simpl in Hz.
        -- by injection Hz as <-.
        -- apply (Hlt j); [done | lia].
      * intros [Hi Hlt]. destruct i as [|i].
        -- simpl in Hi. by injection Hi as ->.
        -- exists i. split; [|done]. apply IH. split; [done|].
           intros j z Hz Hj. apply (Hlt (S j)); [done | lia].
Qed.

Lemma index_elem_of l x : x ∈ l → ∃ i, index l x = Ok i.
Proof.
  induction l as [|y l IH]; simpl; [by intros ?%elem_of_nil|].
  intros Hx. case_decide; [by eexists|].
  apply elem_of_cons in Hx as [->|Hx]; [done|].
  destruct (IH Hx) as [i ->]. by eexists.
Qed.

Lemma index_Ok_elem_of l x i : index l x = Ok i → x ∈ l.
Proof. intros [Hi _]%index_Ok. by eapply list_elem_of_lookup_2. Qed.

Lemma index_Ok_lt l x i : index l x = Ok i → i < length l.
Proof. intros [Hi _]%index_Ok. by eapply lookup_lt_Some. Qed.

Lemma index_NoDup l x i : NoDup l → l !! i = Some x → index l x = Ok i.
Proof.
  intros Hnd Hi. apply index_Ok. split; [done|].
  intros j y Hj Hlt ->. pose proof (NoDup_lookup _ _ _ _ Hnd Hi Hj). lia.
Qed.
End index_facts.

(** Looking an image up in a mapped list, when the map tells the sought
    element apart from every other one. *)
Lemma index_fmap_inj `{EqDecision A, EqDecision B} (f : A → B) (l : list A)
    (x : A) :
  (∀ y, y ∈ l → f y = f x → y = x) → index (f <$> l) (f x) = index l x.
Proof.
  induction l as [|y l IH]; intros Hinj; csimpl; [done|].
  rewrite IH by (intros z Hz; apply Hinj; by right).
  destruct (decide (f y = f x)) as [Hf|Hf], (decide (y = x)) as [Hy|Hy];
    try done.
  - exfalso. apply Hy, Hinj; [left | done].
  - by subst.
Qed.

(** ** Fresh variables *)

(** Modelled from the spec: [jax.core.gensym] is not part of the sources.
    The generator it returns is a counter; [minted], which no operation
    reads, records for the statements the variables handed out so far,
    oldest first. *)
Record GensymState := mkGensym { counter : nat; minted : list Var }.

(** Modelled from the spec: the variables of a program that seed the
    generator, namely its [invars], its [constvars] and the [outvars] of
    its equations. *)
Definition jaxpr_vars (j : Jaxpr) : list Var :=
  invars j ++ constvars j ++ (eqns j ≫= eqn_outvars).

(** Modelled from the spec: [gensym(jaxprs)] starts the counter above the
    count of every variable of the given programs,
    [1 + max((v.count for v in all_vars), default=-1)]. *)
Definition gensym (jaxprs : list Jaxpr) : GensymState :=
  let all_vars := jaxprs ≫= jaxpr_vars in
  let start :=
    match all_vars with
    | [] => 0
    | _ => 1 + max_list (count <$> all_vars)
    end in
  mkGensym start [].
Arguments gensym : simpl never.

(** Modelled from the spec: [gensym_func(aval)] returns a variable of the
    given descriptor with the next count. *)
Definition gensym_func (a : ShapedArray) (g : GensymState)
  : Var * GensymState :=
  let v := mkVar (counter g) a in
  (v, mkGensym (S (counter g)) (minted g ++ [v])).

(** [[gensym_func(x.aval) for x in var_list]] *)
Fixpoint clone_vars `{HasAval A} (var_list : list A) (g : GensymState)
  : list Var * GensymState :=
  match var_list with
  | [] => ([], g)
  | x :: var_list =>
      let '(v, g) := gensym_func (get_aval x) g in
      let '(vs, g) := clone_vars var_list g in
      (v :: vs, g)
  end.

(** ** [add_gradient_accumulation] *)

(** [eqn.primitive is pipeline_p and eqn.params['mark_type'] == 'grad'] *)
Definition is_grad_marker (eqn : JaxprEqn) : Result bool :=
  match primitive eqn with
  | pipeline_p =>
      match params eqn !! "mark_type" with
      | Some mark_type => Ok (bool_decide (mark_type = "grad"))
      | None => Raise (KeyError "mark_type")
      end
  | _ => Ok false
  end.

(** The search loop with its [break]: the first gradient marker and its
    position, [None] when the loop runs to the end. *)
Fixpoint find_grad_marker (eqns : list JaxprEqn) (pos : nat)
  : Result (option (nat * JaxprEqn)) :=
  match eqns with
  | [] => Ok None
  | eqn :: eqns =>
      is_marker ← is_grad_marker eqn;
      if is_marker : bool then Ok (Some (pos, eqn))
      else find_grad_marker eqns (S pos)
  end.

(** The loop "Append eqns of gradient accumulation". *)
Definition accumulation_eqns (old_grad_vars : list Var)
    (out_grad_vars : list Atom) (new_grad_vars : list Var)
  : Result (list JaxprEqn) :=
  mapM (λ i,
          old ← getitem old_grad_vars i;
          out ← getitem out_grad_vars i;
          new ← getitem new_grad_vars i;
          Ok (new_jaxpr_eqn [AVar old; out] [new] add_p ∅))
       (seq 0 (length out_grad_vars)).

(** [global_invar_substitute.update(zip(old_invars, new_invars))] *)
Definition dict_update_zip (d : gmap Var Var) (keys values : list Var)
  : gmap Var Var :=
  foldl (λ d kv, <[kv.1 := kv.2]> d) d (zip keys values).

(** [global_invar_substitute.get(x, x)] *)
Definition dict_get_default (d : gmap Var Var) (x : Var) : Var :=
  default x (d !! x).

(** The loop "Wrap all invars of apply_grad" over [old_invars]; it
    returns [new_invars] with the substitution and the generator as the
    loop leaves them. *)
Fixpoint rename_apply_invars (global_invars : gset Var)
    (in_grad_vars inter_grad_vars : list Var) (old_invars : list Var)
    (global_invar_substitute : gmap Var Var) (g : GensymState)
  : Result (list Var * gmap Var Var * GensymState) :=
  match old_invars with
  | [] => Ok ([], global_invar_substitute, g)
  | var :: old_invars =>
      if decide (var ∈ global_invars) then
        match global_invar_substitute !! var with
        | Some renamed =>
            '(new_invars, d, g) ←
              rename_apply_invars global_invars in_grad_vars inter_grad_vars
                old_invars global_invar_substitute g;
            Ok (renamed :: new_invars, d, g)
        | None =>
            let '(new_var, g) := gensym_func (aval var) g in
            '(new_invars, d, g) ←
              rename_apply_invars global_invars in_grad_vars inter_grad_vars
                old_invars (<[var := new_var]> global_invar_substitute) g;
            Ok (new_var :: new_invars, d, g)
        end
      else
        i ← index in_grad_vars var;
        inter ← getitem inter_grad_vars i;
        '(new_invars, d, g) ←
          rename_apply_invars global_invars in_grad_vars inter_grad_vars
            old_invars global_invar_substitute g;
        Ok (inter :: new_invars, d, g)
  end.

(** The loop "Append eqns for gradient reduction":
    [np.array(num_micro_batches, tmp_var.aval.dtype)] is a scalar of the
    gradient's element type. *)
Definition reduction_eqns (old_invars : list Var) (num_grads : nat)
    (num_micro_batches : Z) : Result (list JaxprEqn) :=
  mapM (λ i,
          tmp_var ← getitem_neg old_invars (i + 1);
          let literal_val :=
            mkLiteral num_micro_batches (mkAval (dtype (aval tmp_var)) []) in
          Ok (new_jaxpr_eqn [AVar tmp_var; ALit literal_val] [tmp_var]
                div_p ∅))
       (seq 0 num_grads).

(** [[invars.index(var) for var in region_invars[:-num_grads]]] *)
Definition invar_indices (invars region_invars : list Var) (num_grads : nat)
  : Result (list nat) :=
  mapM (index invars) (slice_until_neg region_invars num_grads).

(** The values [add_gradient_accumulation] binds on its way, under the
    names the source gives them; the two bindings of [old_invars] are
    told apart by the region they belong to. *)
Record Locals := mkLocals {
  marker_pos : nat;
  marker_eqn : JaxprEqn;
  compute_grad_eqns : list JaxprEqn;
  apply_grad_eqns : list JaxprEqn;
  out_grad_vars : list Atom;
  old_grad_vars : list Var;
  new_grad_vars : list Var;
  num_grads : nat;
  accumulate_old_invars : list Var;
  accumulate_grad_invars : list Var;
  inter_grad_vars : list Var;
  in_grad_vars : list Var;
  apply_old_invars : list Var;
  apply_grad_invars : list Var;
  global_invar_substitute : gmap Var Var;
  combined_eqns : list JaxprEqn;
  new_outvars : list Var;
  combined_jaxpr : ClosedJaxpr;
  accumulate_grad_invar_indices : list nat;
  apply_grad_invar_indices : list nat;
  gensym_state : GensymState
}.

Section add_gradient_accumulation.
(** [alpa.pipeline_parallel.apply_grad.APPLY_GRAD_MARKER_SUFFIX], a
    string constant defined outside this file. *)
Variable APPLY_GRAD_MARKER_SUFFIX : string.

Definition marker_params (mark_type name : string) : gmap string string :=
  <["name" := name]> (<["mark_type" := mark_type]> ∅).

Definition add_gradient_accumulation_locals (raw_jaxpr : ClosedJaxpr)
    (num_micro_batches : Z) : Result Locals :=
  let global_invars : gset Var := list_to_set (invars (jaxpr raw_jaxpr)) in
  let g := gensym [jaxpr raw_jaxpr] in
  (* Find the gradient separator marker. *)
  found ← find_grad_marker (eqns (jaxpr raw_jaxpr)) 0;
  match found with
  | None => Raise (AssertionError "Must have exactly one gradient marker")
  | Some (marker_pos, marker_eqn) =>
  let compute_grad_eqns := take marker_pos (eqns (jaxpr raw_jaxpr)) in
  let apply_grad_eqns := drop (marker_pos + 1) (eqns (jaxpr raw_jaxpr)) in
  let global_invar_substitute : gmap Var Var := ∅ in
  let combined_eqns : list JaxprEqn := [] in
  (* Create vars for gradient accumulation *)
  let out_grad_vars := eqn_invars marker_eqn in
  let '(old_grad_vars, g) := clone_vars out_grad_vars g in
  let '(new_grad_vars, g) := clone_vars out_grad_vars g in
  let num_grads := length out_grad_vars in
  (* Wrap all invars of accumulate_grad *)
  let old_invars :=
    filter_used_vars (invars (jaxpr raw_jaxpr)) compute_grad_eqns
      ++ old_grad_vars in
  let '(new_invars, g) := clone_vars old_invars g in
  let combined_eqns :=
    combined_eqns ++
      [new_jaxpr_eqn (AVar <$> new_invars) old_invars pipeline_p
         (marker_params "start" "_accumulate_grad")] in
  let global_invar_substitute :=
    dict_update_zip global_invar_substitute old_invars new_invars in
  let accumulate_old_invars := old_invars in
  let accumulate_grad_invars := new_invars in
  (* Append eqns of compute_grad *)
  let combined_eqns :=
    combined_eqns ++ take marker_pos (eqns (jaxpr raw_jaxpr)) in
  (* Append eqns of gradient accumulation *)
  add_eqns ← accumulation_eqns old_grad_vars out_grad_vars new_grad_vars;
  let combined_eqns := combined_eqns ++ add_eqns in
  (* Wrap all outvars of accumulate_grad *)
  let '(inter_grad_vars, g) := clone_vars out_grad_vars g in
  let combined_eqns :=
    combined_eqns ++
      [new_jaxpr_eqn (AVar <$> new_grad_vars) inter_grad_vars pipeline_p
         (marker_params "end" "_accumulate_grad")] in
  (* Wrap all invars of apply_grad *)
  let in_grad_vars := eqn_outvars marker_eqn in
  let old_invars :=
    filter_used_vars (invars (jaxpr raw_jaxpr)) apply_grad_eqns
      ++ in_grad_vars in
  '(new_invars, global_invar_substitute, g) ←
    rename_apply_invars global_invars in_grad_vars inter_grad_vars
      old_invars global_invar_substitute g;
  let apply_grad_invars := new_invars in
  let combined_eqns :=
    combined_eqns ++
      [new_jaxpr_eqn (AVar <$> new_invars) old_invars pipeline_p
         (marker_params "start" APPLY_GRAD_MARKER_SUFFIX)] in
  (* Append eqns for gradient reduction *)
  div_eqns ← reduction_eqns old_invars num_grads num_micro_batches;
  let combined_eqns := combined_eqns ++ div_eqns in
  (* Append eqns of apply_grad *)
  let combined_eqns := combined_eqns ++ apply_grad_eqns in
  (* Wrap all outvars of apply_grad *)
  let old_outvars := outvars (jaxpr raw_jaxpr) in
  let '(new_outvars, g) := clone_vars old_outvars g in
  let combined_eqns :=
    combined_eqns ++
      [new_jaxpr_eqn old_outvars new_outvars pipeline_p
         (marker_params "end" APPLY_GRAD_MARKER_SUFFIX)] in
  (* Make the new jaxpr *)
  let combined_jaxpr :=
    mkClosedJaxpr
      (mkJaxpr (constvars (jaxpr raw_jaxpr))
         (dict_get_default global_invar_substitute
            <$> (invars (jaxpr raw_jaxpr) ++ old_grad_vars))
         (AVar <$> new_outvars) combined_eqns)
      (consts raw_jaxpr) in
  (* The indices of the arguments in global arguments. *)
  accumulate_grad_invar_indices ←
    invar_indices (invars (jaxpr combined_jaxpr)) accumulate_grad_invars
      num_grads;
  apply_grad_invar_indices ←
    invar_indices (invars (jaxpr combined_jaxpr)) apply_grad_invars
      num_grads;
  Ok (mkLocals marker_pos marker_eqn compute_grad_eqns apply_grad_eqns
        out_grad_vars old_grad_vars new_grad_vars num_grads
        accumulate_old_invars accumulate_grad_invars inter_grad_vars
        in_grad_vars old_invars apply_grad_invars global_invar_substitute
        combined_eqns new_outvars combined_jaxpr
        accumulate_grad_invar_indices apply_grad_invar_indices g)
  end.

(** What the function returns: [(combined_jaxpr,
    accumulate_grad_invar_indices, apply_grad_invar_indices, num_grads)]. *)
Definition add_gradient_accumulation (raw_jaxpr : ClosedJaxpr)
    (num_micro_batches : Z)
  : Result (ClosedJaxpr * list nat * list nat * nat) :=
  l ← add_gradient_accumulation_locals raw_jaxpr num_micro_batches;
  Ok (combined_jaxpr l, accumulate_grad_invar_indices l,
      apply_grad_invar_indices l, num_grads l).

End add_gradient_accumulation.

(** ** Facts on fresh variables *)

(** The variables a generator at count [c] hands out for the abstract
    values [avals], in order. *)
Fixpoint fresh_vars (c : nat) (avals : list ShapedArray) : list Var :=
  match avals with
  | [] => []
  | a :: avals => mkVar c a :: fresh_vars (S c) avals
  end.

Lemma clone_vars_eq `{HasAval A} (l : list A) (g : GensymState) :
  clone_vars l g =
    (fresh_vars (counter g) (get_aval <$> l),
     mkGensym (counter g + length l)
       (minted g ++ fresh_vars (counter g) (get_aval <$> l))).
Proof.
  revert g. induction l as [|x l IH]; intros [c m]; csimpl.
  - by rewrite Nat.add_0_r, app_nil_r.
  - rewrite IH. simpl. do 2 f_equal; [lia|]. by rewrite <- app_assoc.
Qed.

Lemma length_fresh_vars c avals : length (fresh_vars c avals) = length avals.
Proof. revert c. induction avals; intros c; simpl; [done | by rewrite IHavals]. Qed.

Lemma fresh_vars_count c avals :
  count <$> fresh_vars c avals = seq c (length avals).
Proof. revert c. induction avals; intros c; csimpl; [done | by rewrite IHavals]. Qed.

Lemma fresh_vars_aval c avals : aval <$> fresh_vars c avals = avals.
Proof. revert c. induction avals; intros c; csimpl; [done | by rewrite IHavals]. Qed.

Lemma fresh_vars_app c avals1 avals2 :
  fresh_vars c (avals1 ++ avals2) =
    fresh_vars c avals1 ++ fresh_vars (c + length avals1) avals2.
Proof.
  revert c. induction avals1 as [|a avals1 IH]; intros c; simpl.
  - by rewrite Nat.add_0_r.
  - rewrite IH. do 3 f_equal. lia.
Qed.

Lemma fresh_vars_lookup c avals i :
  fresh_vars c avals !! i = mkVar (c + i) <$> avals !! i.
Proof.
  revert c i. induction avals as [|a avals IH]; intros c [|i]; simpl; try done.
  - by rewrite Nat.add_0_r.
  - rewrite IH. by replace (S c + i) with (c + S i) by lia.
Qed.

Lemma elem_of_fresh_vars c avals v :
  v ∈ fresh_vars c avals → c ≤ count v < c + length avals.
Proof.
  intros Hv. apply (list_elem_of_fmap_2 count) in Hv.
  rewrite fresh_vars_count, elem_of_seq in Hv. lia.
Qed.

Lemma NoDup_fresh_vars c avals : NoDup (fresh_vars c avals).
Proof.
  apply (NoDup_fmap_1 count). rewrite fresh_vars_count. apply NoDup_seq.
Qed.

Lemma take_fresh_vars c avals n :
  take n (fresh_vars c avals) = fresh_vars c (take n avals).
Proof.
  revert c n. induction avals as [|a avals IH]; intros c [|n]; simpl; try done.
  by rewrite IH.
Qed.

Lemma drop_fresh_vars c avals n :
  drop n (fresh_vars c avals) = fresh_vars (c + n) (drop n avals).
Proof.
  revert c n. induction avals as [|a avals IH]; intros c [|n]; simpl; try done.
  - by rewrite Nat.add_0_r.
  - rewrite IH. f_equal. lia.
Qed.

(** Every variable the generator inspects lies below its first count. *)
Lemma gensym_above (j : Jaxpr) (v : Var) :
  v ∈ jaxpr_vars j → count v < counter (gensym [j]).
Proof.
  unfold gensym. csimpl. rewrite app_nil_r. intros Hv.
  destruct (jaxpr_vars j) as [|w l] eqn:Hl; [by apply elem_of_nil in Hv|].
  rewrite <- Hl in *. simpl.
  apply (list_elem_of_fmap_2 count) in Hv.
  pose proof (max_list_elem_of_le _ _ Hv). lia.
Qed.

Lemma gensym_minted (j : Jaxpr) : minted (gensym [j]) = [].
Proof. done. Qed.

(** ** Facts on the loops of [add_gradient_accumulation] *)

(** A boundary marker of type ["grad"]. *)
Definition grad_marker (eqn : JaxprEqn) : Prop :=
  primitive eqn = pipeline_p ∧ params eqn !! "mark_type" = Some "grad".

#[global] Instance grad_marker_dec eqn : Decision (grad_marker eqn).
Proof. unfold grad_marker. apply _. Defined.

(** Every marker equation carries its ["mark_type"]. *)
Definition has_mark_type (eqn : JaxprEqn) : Prop :=
  primitive eqn = pipeline_p → is_Some (params eqn !! "mark_type").

Lemma is_grad_marker_true eqn : is_grad_marker eqn = Ok true ↔ grad_marker eqn.
Proof.
  unfold is_grad_marker, grad_marker.
  destruct (primitive eqn); try (split; [done | by intros [[=] _]]).
  destruct (params eqn !! "mark_type") as [t|]; [|split; [done | by intros [_ [=]]]].
  split.
  - intros [= Ht]. apply bool_decide_eq_true in Ht. by subst.
  - intros [_ [= ->]]. done.
Qed.

Lemma is_grad_marker_false eqn :
  is_grad_marker eqn = Ok false → ¬ grad_marker eqn.
Proof. intros Hf Ht%is_grad_marker_true. congruence. Qed.

Lemma is_grad_marker_total eqn :
  has_mark_type eqn → is_grad_marker eqn = Ok (bool_decide (grad_marker eqn)).
Proof.
  intros Hwf. destruct (decide (grad_marker eqn)) as [Hg|Hg].
  - rewrite bool_decide_eq_true_2 by done. by apply is_grad_marker_true.
  - rewrite bool_decide_eq_false_2 by done.
    unfold is_grad_marker, has_mark_type, grad_marker in *.
    destruct (primitive eqn); try done.
    destruct Hwf as [t Ht]; [done|]. rewrite Ht in *. f_equal.
    apply bool_decide_eq_false_2. intros ->. by apply Hg.
Qed.

Lemma find_grad_marker_Some es pos p e :
  find_grad_marker es pos = Ok (Some (p, e)) →
  ∃ i, p = pos + i ∧ es !! i = Some e ∧ grad_marker e
       ∧ ∀ k e', k < i → es !! k = Some e' → ¬ grad_marker e'.
Proof.
  revert pos. induction es as [|e0 es IH]; intros pos; simpl; [done|].
  intros (b & Hb & Hrest)%bind_Ok. destruct b.
  - injection Hrest as <- <-. exists 0. split; [lia|]. split; [done|].
    split; [by apply is_grad_marker_true | lia].
  - apply IH in Hrest as (i & -> & Hi & Hg & Hlt). exists (S i).
    split; [lia|]. split; [done|]. split; [done|].
    intros [|k] e' Hk He'; simpl in He'.
    + injection He' as <-. by apply is_grad_marker_false.
    + apply (Hlt k); [lia | done].
Qed.

Lemma find_grad_marker_None es pos :
  find_grad_marker es pos = Ok None → Forall (λ e, ¬ grad_marker e) es.
Proof.
  revert pos. induction es as [|e0 es IH]; intros pos; simpl; [done|].
  intros (b & Hb & Hrest)%bind_Ok. destruct b; [done|].
  constructor; [by apply is_grad_marker_false | by eapply IH].
Qed.

Lemma find_grad_marker_first es pos i e :
  Forall has_mark_type es → es !! i = Some e → grad_marker e →
  (∀ k e', k < i → es !! k = Some e' → ¬ grad_marker e') →
  find_grad_marker es pos = Ok (Some (pos + i, e)).
Proof.
  revert pos i. induction es as [|e0 es IH]; intros pos i Hwf Hi Hg Hlt;
    [done|].
  apply Forall_cons in Hwf as [Hwf0 Hwf]. simpl.
  rewrite (is_grad_marker_total _ Hwf0). simpl. destruct i as [|i]; simpl in Hi.
  - injection Hi as ->. rewrite bool_decide_eq_true_2 by done.
    by rewrite Nat.add_0_r.
  - rewrite bool_decide_eq_false_2 by (apply (Hlt 0); [lia | done]).
    rewrite (IH (S pos) i); [do 3 f_equal; lia | done..|].
    intros k e' Hk He'. apply (Hlt (S k)); [lia | done].
Qed.

Lemma find_grad_marker_absent es pos :
  Forall has_mark_type es → Forall (λ e, ¬ grad_marker e) es →
  find_grad_marker es pos = Ok None.
Proof.
  revert pos. induction es as [|e0 es IH]; intros pos Hwf Hno; [done|].
  apply Forall_cons in Hwf as [Hwf0 Hwf]. apply Forall_cons in Hno as [Hno0 Hno].
  simpl. rewrite (is_grad_marker_total _ Hwf0). simpl.
  rewrite bool_decide_eq_false_2 by done. by apply IH.
Qed.

(** A loop over [range(n)] succeeds exactly when each round does. *)
Lemma mapM_seq_Ok {B} (f : nat → Result B) (n : nat) (k : list B) :
  mapM f (seq 0 n) = Ok k ↔
  length k = n ∧ ∀ i, i < n → ∃ y, f i = Ok y ∧ k !! i = Some y.
Proof.
  rewrite mapM_Ok. split.
  - intros HF. pose proof (Forall2_length _ _ _ HF) as Hlen.
    rewrite length_seq in Hlen. split; [done|]. intros i Hi.
    destruct (lookup_lt_is_Some_2 k i) as [y Hy]; [lia|]. exists y.
    split; [|done]. eapply (Forall2_lookup_lr _ _ _ i i y HF); [|done].
    by apply lookup_seq_lt.
  - intros [Hlen Hf]. apply Forall2_same_length_lookup_2.
    { by rewrite length_seq. }
    intros i j y [-> Hi]%lookup_seq Hy. simpl.
    destruct (Hf i Hi) as (y' & Hy' & Hk). congruence.
Qed.

(** The equation [new_grad_vars[i] = old_grad_vars[i] + out_grad_vars[i]]. *)
Definition add_eqn (old : Var) (out : Atom) (new : Var) : JaxprEqn :=
  new_jaxpr_eqn [AVar old; out] [new] add_p ∅.

(** The equations the accumulation loop appends, one per gradient. *)
Definition add_eqns (old : list Var) (out : list Atom) (new : list Var)
  : list JaxprEqn :=
  zip_with (λ o gn, add_eqn o gn.1 gn.2) old (zip out new).

Lemma length_add_eqns old out new :
  length old = length out → length new = length out →
  length (add_eqns old out new) = length out.
Proof.
  intros Hold Hnew. unfold add_eqns.
  rewrite length_zip_with, length_zip. lia.
Qed.

Lemma add_eqns_lookup old out new i o g n :
  old !! i = Some o → out !! i = Some g → new !! i = Some n →
  add_eqns old out new !! i = Some (add_eqn o g n).
Proof.
  intros Ho Hg Hn. unfold add_eqns.
  rewrite lookup_zip_with, Ho. simpl.
  rewrite lookup_zip_with, Hg. simpl. by rewrite Hn.
Qed.

Lemma accumulation_eqns_eq old out new :
  length old = length out → length new = length out →
  accumulation_eqns old out new = Ok (add_eqns old out new).
Proof.
  intros Hold Hnew. unfold accumulation_eqns. apply mapM_seq_Ok.
  split; [by apply length_add_eqns|]. intros i Hi.
  destruct (lookup_lt_is_Some_2 old i) as [o Ho]; [lia|].
  destruct (lookup_lt_is_Some_2 out i) as [g Hg]; [lia|].
  destruct (lookup_lt_is_Some_2 new i) as [n Hn]; [lia|].
  exists (add_eqn o g n). split; [|by apply add_eqns_lookup].
  unfold getitem. by rewrite Ho, Hg, Hn.
Qed.

(** The equation [tmp_var = tmp_var / num_micro_batches]. *)
Definition div_eqn (num_micro_batches : Z) (tmp_var : Var) : JaxprEqn :=
  new_jaxpr_eqn
    [AVar tmp_var;
     ALit (mkLiteral num_micro_batches (mkAval (dtype (aval tmp_var)) []))]
    [tmp_var] div_p ∅.

Lemma reduction_eqns_Ok old n M divs :
  reduction_eqns old n M = Ok divs ↔
  n ≤ length old ∧ divs = div_eqn M <$> take n (reverse old).
Proof.
  unfold reduction_eqns. rewrite mapM_seq_Ok. split.
  - intros [Hlen Hf].
    assert (n ≤ length old) as Hn.
    { destruct n as [|n]; [lia|]. destruct (Hf n) as (y & Hy & _); [lia|].
      apply bind_Ok in Hy as (t & [Ht _]%getitem_neg_Ok & _). lia. }
    split; [done|]. apply list_eq_same_length with n; [|done|].
    { rewrite length_fmap, length_take, length_reverse. lia. }
    intros i x y Hi Hx Hy. destruct (Hf i Hi) as (y' & Hy' & Hk).
    apply bind_Ok in Hy' as (t & [_ Ht]%getitem_neg_Ok & [= <-]).
    rewrite list_lookup_fmap, lookup_take_lt, reverse_lookup in Hy by lia.
    replace (length old - S i) with (length old - (i + 1)) in Hy by lia.
    rewrite Ht in Hy. simpl in Hy. injection Hy as <-.
    rewrite Hx in Hk. by injection Hk as ->.
  - intros [Hn ->]. split.
    { rewrite length_fmap, length_take, length_reverse. lia. }
    intros i Hi.
    destruct (lookup_lt_is_Some_2 old (length old - (i + 1))) as [t Ht]; [lia|].
    exists (div_eqn M t). split.
    + unfold getitem_neg, getitem. rewrite decide_True by lia. by rewrite Ht.
    + rewrite list_lookup_fmap, lookup_take_lt, reverse_lookup by lia.
      replace (length old - S i) with (length old - (i + 1)) by lia.
      by rewrite Ht.
Qed.

(** *** The substitution table *)

Lemma dict_update_zip_cons d k ks v vs :
  dict_update_zip d (k :: ks) (v :: vs) = dict_update_zip (<[k:=v]> d) ks vs.
Proof. done. Qed.

Lemma dict_update_zip_app d ks1 ks2 vs1 vs2 :
  length ks1 = length vs1 →
  dict_update_zip d (ks1 ++ ks2) (vs1 ++ vs2) =
    dict_update_zip (dict_update_zip d ks1 vs1) ks2 vs2.
Proof.
  intros Hlen. unfold dict_update_zip.
  rewrite zip_with_app by done. apply foldl_app.
Qed.

Lemma lookup_dict_update_zip_notin d ks vs k :
  k ∉ ks → dict_update_zip d ks vs !! k = d !! k.
Proof.
  revert d vs. induction ks as [|k0 ks IH]; intros d [|v vs] Hk; try done.
  apply not_elem_of_cons in Hk as [Hne Hk].
  rewrite dict_update_zip_cons, IH by done. by apply lookup_insert_ne.
Qed.

Lemma lookup_dict_update_zip_NoDup d ks vs i k v :
  NoDup ks → ks !! i = Some k → vs !! i = Some v →
  dict_update_zip d ks vs !! k = Some v.
Proof.
  revert d vs i. induction ks as [|k0 ks IH]; intros d [|v0 vs] i Hnd Hk Hv;
    try done.
  apply NoDup_cons in Hnd as [Hk0 Hnd]. rewrite dict_update_zip_cons.
  destruct i as [|i]; simpl in *.
  - injection Hk as ->. injection Hv as ->.
    rewrite lookup_dict_update_zip_notin by done. apply lookup_insert_eq.
  - by eapply IH.
Qed.

Lemma lookup_dict_update_zip_Some d ks vs k v :
  dict_update_zip d ks vs !! k = Some v →
  d !! k = Some v ∨ ∃ i, ks !! i = Some k ∧ vs !! i = Some v.
Proof.
  revert d vs. induction ks as [|k0 ks IH]; intros d [|v0 vs] Hk;
    try (by left).
  rewrite dict_update_zip_cons in Hk. apply IH in Hk as [Hk|(i & Hi & Hv)].
  - rewrite lookup_insert in Hk. case_decide as Heq.
    + injection Hk as ->. subst k0. right. by exists 0.
    + by left.
  - right. by exists (S i).
Qed.

(** The renaming loop as a relation between the state it starts from and
    its results, one rule per branch of its body. *)
Inductive rename_rel (global_invars : gset Var)
    (in_grad_vars inter_grad_vars : list Var)
  : list Var → gmap Var Var → GensymState →
    list Var → gmap Var Var → GensymState → Prop :=
  | rename_done d g :
      rename_rel global_invars in_grad_vars inter_grad_vars [] d g [] d g
  | rename_known var old d g renamed new d' g' :
      var ∈ global_invars → d !! var = Some renamed →
      rename_rel global_invars in_grad_vars inter_grad_vars old d g new d' g' →
      rename_rel global_invars in_grad_vars inter_grad_vars
        (var :: old) d g (renamed :: new) d' g'
  | rename_fresh var old d g new d' g' :
      var ∈ global_invars → d !! var = None →
      rename_rel global_invars in_grad_vars inter_grad_vars old
        (<[var := mkVar (counter g) (aval var)]> d)
        (mkGensym (S (counter g))
           (minted g ++ [mkVar (counter g) (aval var)]))
        new d' g' →
      rename_rel global_invars in_grad_vars inter_grad_vars
        (var :: old) d g (mkVar (counter g) (aval var) :: new) d' g'
  | rename_grad var old d g i inter new d' g' :
      var ∉ global_invars → index in_grad_vars var = Ok i →
      inter_grad_vars !! i = Some inter →
      rename_rel global_invars in_grad_vars inter_grad_vars old d g new d' g' →
      rename_rel global_invars in_grad_vars inter_grad_vars
        (var :: old) d g (inter :: new) d' g'.

Section rename_apply_invars_facts.
Context (GI : gset Var) (ing inter : list Var).

Lemma rename_apply_invars_Ok old d g new d' g' :
  rename_apply_invars GI ing inter old d g = Ok (new, d', g') ↔
  rename_rel GI ing inter old d g new d' g'.
Proof.
  split.
  - revert d g new d' g'. induction old as [|var old IH];
      intros d g new d' g'; simpl.
    { intros [= <- <- <-]. constructor. }
    case_decide as Hvar.
    + destruct (d !! var) as [renamed|] eqn:Hd.
      * intros ([[new0 d0] g0] & Hrec & [= <- <- <-])%bind_Ok.
        apply rename_known; auto.
      * intros ([[new0 d0] g0] & Hrec & [= <- <- <-])%bind_Ok.
        apply rename_fresh; auto.
    + intros (i & Hi & Hrest)%bind_Ok.
      apply bind_Ok in Hrest as (v & Hv%getitem_Ok & Hrest).
      apply bind_Ok in Hrest as ([[new0 d0] g0] & Hrec & [= <- <- <-]).
      eapply rename_grad; eauto.
  - induction 1 as [d g|var old d g renamed new d' g' Hvar Hd _ IH
                   |var old d g new d' g' Hvar Hd _ IH
                   |var old d g i v new d' g' Hvar Hi Hv _ IH]; simpl.
    + done.
    + rewrite decide_True, Hd, IH by done. done.
    + rewrite decide_True, Hd by done. simpl. rewrite IH. done.
    + rewrite decide_False, Hi by done. simpl.
      unfold getitem. rewrite Hv. simpl. rewrite IH. done.
Qed.

Lemma rename_rel_length old d g new d' g' :
  rename_rel GI ing inter old d g new d' g' → length new = length old.
Proof. induction 1; simpl; congruence. Qed.

Lemma rename_rel_subseteq old d g new d' g' :
  rename_rel GI ing inter old d g new d' g' → d ⊆ d'.
Proof.
  induction 1 as [| | ? ? d ? ? ? ? ? Hd _ IH|]; try done.
  etrans; [|exact IH]. by apply insert_subseteq.
Qed.

(** The generator after the loop: it has handed out [fresh_vars] for some
    list of abstract values, and every new entry of the table maps a
    global input of [old_invars] to one of them. *)
Lemma rename_rel_minted old d g new d' g' :
  rename_rel GI ing inter old d g new d' g' →
  ∃ avals,
    g' = mkGensym (counter g + length avals)
           (minted g ++ fresh_vars (counter g) avals)
    ∧ ∀ k v, d' !! k = Some v →
        d !! k = Some v
        ∨ (d !! k = None ∧ k ∈ old ∧ k ∈ GI ∧ aval v = aval k
           ∧ v ∈ fresh_vars (counter g) avals).
Proof.
  induction 1 as [d [c m]|var old d g renamed new d' g' Hvar Hd _ IH
                 |var old d [c m] new d' g' Hvar Hd _ IH
                 |var old d g i v new d' g' Hvar Hi Hv _ IH].
  - exists []. simpl. rewrite Nat.add_0_r, app_nil_r. auto.
  - destruct IH as (avals & -> & IH). exists avals. split; [done|].
    intros k v Hk. destruct (IH k v Hk) as [?|(?&?&?&?&?)]; [by left|].
    right. repeat split; try done. by right.
  - destruct IH as (avals & -> & IH). simpl in *.
    exists (aval var :: avals). simpl. split.
    { f_equal; [lia|]. by rewrite <- app_assoc. }
    intros k v Hk. destruct (IH k v Hk) as [Hin|(Hnone&?&?&?&?)].
    + rewrite lookup_insert in Hin. case_decide as Heq.
      * injection Hin as <-. subst k. right.
        repeat split; try done; left.
      * by left.
    + rewrite lookup_insert in Hnone. case_decide; [done|].
      right. repeat split; try done; by right.
  - destruct IH as (avals & -> & IH). exists avals. split; [done|].
    intros k v' Hk. destruct (IH k v' Hk) as [?|(?&?&?&?&?)]; [by left|].
    right. repeat split; try done. by right.
Qed.

(** The table stays injective, its values below the generator's count. *)
Definition table_ok (d : gmap Var Var) (g : GensymState) : Prop :=
  (∀ k v, d !! k = Some v → count v < counter g)
  ∧ (∀ k1 k2 v, d !! k1 = Some v → d !! k2 = Some v → k1 = k2).

Lemma rename_rel_table_ok old d g new d' g' :
  rename_rel GI ing inter old d g new d' g' →
  table_ok d g → table_ok d' g'.
Proof.
  induction 1 as [| |var old d [c m] new d' g' Hvar Hd _ IH|]; try done.
  intros [Hlt Hinj]. apply IH. simpl in *. split; simpl.
  - intros k v. rewrite lookup_insert. case_decide.
    + intros [= <-]. simpl. lia.
    + intros Hk%Hlt. lia.
  - intros k1 k2 v. rewrite !lookup_insert.
    repeat case_decide; subst; try done.
    + intros [= <-] Hk%Hlt. simpl in Hk. lia.
    + intros Hk%Hlt [= <-]. simpl in Hk. lia.
    + apply Hinj.
Qed.

Lemma rename_rel_global old d g new d' g' i var :
  rename_rel GI ing inter old d g new d' g' →
  old !! i = Some var → var ∈ GI →
  ∃ v, new !! i = Some v ∧ d' !! var = Some v.
Proof.
  intros Hrel. revert i.
  induction Hrel as [d g|var0 old d g renamed new d' g' Hvar Hd Hrel IH
                    |var0 old d g new d' g' Hvar Hd Hrel IH
                    |var0 old d g k v new d' g' Hvar Hi Hv Hrel IH];
    intros [|i] Hold Hin; simpl in *; try done; try (by apply IH).
  - injection Hold as ->. exists renamed. split; [done|].
    eapply lookup_weaken; [done|]. by eapply rename_rel_subseteq.
  - injection Hold as ->. eexists. split; [done|].
    eapply lookup_weaken; [|by eapply rename_rel_subseteq].
    apply lookup_insert_eq.
  - by injection Hold as ->.
Qed.

Lemma rename_rel_local old d g new d' g' i var :
  rename_rel GI ing inter old d g new d' g' →
  old !! i = Some var → var ∉ GI →
  ∃ k v, index ing var = Ok k ∧ inter !! k = Some v ∧ new !! i = Some v.
Proof.
  intros Hrel. revert i.
  induction Hrel as [d g|var0 old d g renamed new d' g' Hvar Hd Hrel IH
                    |var0 old d g new d' g' Hvar Hd Hrel IH
                    |var0 old d g k v new d' g' Hvar Hi Hv Hrel IH];
    intros [|i] Hold Hin; simpl in *; try done; try (by apply IH).
  - by injection Hold as ->.
  - by injection Hold as ->.
  - injection Hold as ->. by exists k, v.
Qed.

Lemma rename_apply_invars_total old d g :
  (∀ var, var ∈ old → var ∉ GI →
     ∃ k, index ing var = Ok k ∧ k < length inter) →
  ∃ r, rename_apply_invars GI ing inter old d g = Ok r.
Proof.
  revert d g. induction old as [|var old IH]; intros d g Hok; simpl.
  { by eexists. }
  assert (∀ d g, ∃ r, rename_apply_invars GI ing inter old d g = Ok r)
    as Hrec.
  { intros d0 g0. apply IH. intros v Hv. apply Hok. by right. }
  case_decide as Hvar.
  - destruct (d !! var) as [renamed|].
    + destruct (Hrec d g) as [[[new d'] g'] ->]. by eexists.
    + simpl. edestruct Hrec as [[[new d'] g'] ->]. by eexists.
  - destruct (Hok var) as (k & -> & Hk); [left | done |]. simpl.
    destruct (lookup_lt_is_Some_2 inter k Hk) as [v Hv].
    unfold getitem. rewrite Hv. simpl.
    destruct (Hrec d g) as [[[new d'] g'] ->]. by eexists.
Qed.
End rename_apply_invars_facts.

(** ** What [add_gradient_accumulation] binds when it returns *)

Section add_gradient_accumulation_facts.
Variable APPLY_GRAD_MARKER_SUFFIX : string.

(** The four region markers. *)
Definition accumulate_start_marker (l : Locals) : JaxprEqn :=
  new_jaxpr_eqn (AVar <$> accumulate_grad_invars l) (accumulate_old_invars l)
    pipeline_p (marker_params "start" "_accumulate_grad").

Definition accumulate_end_marker (l : Locals) : JaxprEqn :=
  new_jaxpr_eqn (AVar <$> new_grad_vars l) (inter_grad_vars l)
    pipeline_p (marker_params "end" "_accumulate_grad").

Definition apply_start_marker (l : Locals) : JaxprEqn :=
  new_jaxpr_eqn (AVar <$> apply_grad_invars l) (apply_old_invars l)
    pipeline_p (marker_params "start" APPLY_GRAD_MARKER_SUFFIX).

Definition apply_end_marker (raw_jaxpr : ClosedJaxpr) (l : Locals)
  : JaxprEqn :=
  new_jaxpr_eqn (outvars (jaxpr raw_jaxpr)) (new_outvars l)
    pipeline_p (marker_params "end" APPLY_GRAD_MARKER_SUFFIX).

(** The equations the reduction loop appends. *)
Definition div_eqns (num_micro_batches : Z) (l : Locals) : list JaxprEqn :=
  div_eqn num_micro_batches
    <$> take (num_grads l) (reverse (apply_old_invars l)).

(** The generator when the renaming loop starts. *)
Definition gensym_before_apply (raw_jaxpr : ClosedJaxpr) (l : Locals)
  : GensymState :=
  mkGensym
    (counter (gensym [jaxpr raw_jaxpr]) + num_grads l + num_grads l
       + length (accumulate_old_invars l) + num_grads l)
    (old_grad_vars l ++ new_grad_vars l ++ accumulate_grad_invars l
       ++ inter_grad_vars l).

Record locals_spec (raw_jaxpr : ClosedJaxpr) (num_micro_batches : Z)
    (l : Locals) : Prop := {
  ls_find :
    find_grad_marker (eqns (jaxpr raw_jaxpr)) 0
      = Ok (Some (marker_pos l, marker_eqn l));
  ls_compute :
    compute_grad_eqns l = take (marker_pos l) (eqns (jaxpr raw_jaxpr));
  ls_apply :
    apply_grad_eqns l = drop (marker_pos l + 1) (eqns (jaxpr raw_jaxpr));
  ls_out : out_grad_vars l = eqn_invars (marker_eqn l);
  ls_num : num_grads l = length (out_grad_vars l);
  ls_old :
    old_grad_vars l =
      fresh_vars (counter (gensym [jaxpr raw_jaxpr]))
        (get_aval <$> out_grad_vars l);
  ls_new :
    new_grad_vars l =
      fresh_vars (counter (gensym [jaxpr raw_jaxpr]) + num_grads l)
        (get_aval <$> out_grad_vars l);
  ls_accumulate_old :
    accumulate_old_invars l =
      filter_used_vars (invars (jaxpr raw_jaxpr)) (compute_grad_eqns l)
        ++ old_grad_vars l;
  ls_accumulate_new :
    accumulate_grad_invars l =
      fresh_vars
        (counter (gensym [jaxpr raw_jaxpr]) + num_grads l + num_grads l)
        (aval <$> accumulate_old_invars l);
  ls_inter :
    inter_grad_vars l =
      fresh_vars
        (counter (gensym [jaxpr raw_jaxpr]) + num_grads l + num_grads l
           + length (accumulate_old_invars l))
        (get_aval <$> out_grad_vars l);
  ls_in : in_grad_vars l = eqn_outvars (marker_eqn l);
  ls_apply_old :
    apply_old_invars l =
      filter_used_vars (invars (jaxpr raw_jaxpr)) (apply_grad_eqns l)
        ++ in_grad_vars l;
  ls_rename :
    ∃ g,
      rename_rel (list_to_set (invars (jaxpr raw_jaxpr)))
        (in_grad_vars l) (inter_grad_vars l) (apply_old_invars l)
        (dict_update_zip ∅ (accumulate_old_invars l)
           (accumulate_grad_invars l))
        (gensym_before_apply raw_jaxpr l)
        (apply_grad_invars l) (global_invar_substitute l) g
      ∧ new_outvars l =
          fresh_vars (counter g) (get_aval <$> outvars (jaxpr raw_jaxpr))
      ∧ gensym_state l =
          mkGensym (counter g + length (outvars (jaxpr raw_jaxpr)))
            (minted g ++ new_outvars l);
  ls_reduction : num_grads l ≤ length (apply_old_invars l);
  ls_combined_eqns :
    combined_eqns l =
      [accumulate_start_marker l] ++ compute_grad_eqns l
        ++ add_eqns (old_grad_vars l) (out_grad_vars l) (new_grad_vars l)
        ++ [accumulate_end_marker l] ++ [apply_start_marker l]
        ++ div_eqns num_micro_batches l ++ apply_grad_eqns l
        ++ [apply_end_marker raw_jaxpr l];
  ls_combined_jaxpr :
    combined_jaxpr l =
      mkClosedJaxpr
        (mkJaxpr (constvars (jaxpr raw_jaxpr))
           (dict_get_default (global_invar_substitute l)
              <$> (invars (jaxpr raw_jaxpr) ++ old_grad_vars l))
           (AVar <$> new_outvars l) (combined_eqns l))
        (consts raw_jaxpr)
}.

(** Projections of a record built in place. *)
Ltac locals_cbn :=
  cbn [marker_pos marker_eqn compute_grad_eqns apply_grad_eqns
    out_grad_vars old_grad_vars new_grad_vars num_grads
    accumulate_old_invars accumulate_grad_invars inter_grad_vars
    in_grad_vars apply_old_invars apply_grad_invars global_invar_substitute
    combined_eqns new_outvars combined_jaxpr accumulate_grad_invar_indices
    apply_grad_invar_indices gensym_state] in *.

Lemma add_gradient_accumulation_locals_spec raw_jaxpr num_micro_batches l :
  add_gradient_accumulation_locals APPLY_GRAD_MARKER_SUFFIX raw_jaxpr
    num_micro_batches = Ok l →
  locals_spec raw_jaxpr num_micro_batches l
  ∧ invar_indices (invars (jaxpr (combined_jaxpr l)))
      (accumulate_grad_invars l) (num_grads l)
    = Ok (accumulate_grad_invar_indices l)
  ∧ invar_indices (invars (jaxpr (combined_jaxpr l)))
      (apply_grad_invars l) (num_grads l)
    = Ok (apply_grad_invar_indices l).
Proof.
  unfold add_gradient_accumulation_locals. intros H.
  apply bind_Ok in H as (found & Hfind & H).
  destruct found as [[p e]|]; [|done].
  cbv zeta in H.
  do 3 (rewrite clone_vars_eq in H; cbv beta iota zeta in H;
        cbn [counter minted] in H).
  rewrite accumulation_eqns_eq in H
    by (by rewrite length_fresh_vars, length_fmap).
  cbn [mbind Result_bind] in H.
  rewrite clone_vars_eq in H; cbv beta iota zeta in H;
    cbn [counter minted] in H.
  apply bind_Ok in H as ([[new d'] g4] & Hren & H).
  apply bind_Ok in H as (divs & [Hn ->]%reduction_eqns_Ok & H).
  rewrite clone_vars_eq in H; cbv beta iota zeta in H.
  apply bind_Ok in H as (i1 & Hi1 & H).
  apply bind_Ok in H as (i2 & Hi2 & H).
  injection H as <-.
  apply rename_apply_invars_Ok in Hren.
  split; [|done].
  split; locals_cbn; try done.
  - exists g4. split; [|done].
    unfold gensym_before_apply; locals_cbn.
    rewrite gensym_minted, app_nil_l, <- !app_assoc in Hren. exact Hren.
  - unfold accumulate_start_marker, accumulate_end_marker,
      apply_start_marker, apply_end_marker, div_eqns; simpl.
    by rewrite <- !app_assoc.
Qed.

(** The record the function returns, from the results of its loops. *)
Definition build_locals (raw_jaxpr : ClosedJaxpr) (num_micro_batches : Z)
    (p : nat) (e : JaxprEqn) (new_invars : list Var) (d : gmap Var Var)
    (g : GensymState) (i1 i2 : list nat) : Locals :=
  let j := jaxpr raw_jaxpr in
  let c := counter (gensym [j]) in
  let out := eqn_invars e in
  let n := length out in
  let old_grad := fresh_vars c (get_aval <$> out) in
  let new_grad := fresh_vars (c + n) (get_aval <$> out) in
  let acc_old := filter_used_vars (invars j) (take p (eqns j)) ++ old_grad in
  let acc_new := fresh_vars (c + n + n) (aval <$> acc_old) in
  let inter := fresh_vars (c + n + n + length acc_old) (get_aval <$> out) in
  let apply_old :=
    filter_used_vars (invars j) (drop (p + 1) (eqns j)) ++ eqn_outvars e in
  let new_out := fresh_vars (counter g) (get_aval <$> outvars j) in
  let combined :=
    [new_jaxpr_eqn (AVar <$> acc_new) acc_old pipeline_p
       (marker_params "start" "_accumulate_grad")]
      ++ take p (eqns j) ++ add_eqns old_grad out new_grad
      ++ [new_jaxpr_eqn (AVar <$> new_grad) inter pipeline_p
            (marker_params "end" "_accumulate_grad")]
      ++ [new_jaxpr_eqn (AVar <$> new_invars) apply_old pipeline_p
            (marker_params "start" APPLY_GRAD_MARKER_SUFFIX)]
      ++ (div_eqn num_micro_batches <$> take n (reverse apply_old))
      ++ drop (p + 1) (eqns j)
      ++ [new_jaxpr_eqn (outvars j) new_out pipeline_p
            (marker_params "end" APPLY_GRAD_MARKER_SUFFIX)] in
  mkLocals p e (take p (eqns j)) (drop (p + 1) (eqns j)) out old_grad
    new_grad n acc_old acc_new inter (eqn_outvars e) apply_old new_invars d
    combined new_out
    (mkClosedJaxpr
       (mkJaxpr (constvars j)
          (dict_get_default d <$> (invars j ++ old_grad))
          (AVar <$> new_out) combined)
       (consts raw_jaxpr))
    i1 i2
    (mkGensym (counter g + length (outvars j)) (minted g ++ new_out)).

Lemma build_locals_spec raw_jaxpr num_micro_batches p e new d g i1 i2 :
  let l := build_locals raw_jaxpr num_micro_batches p e new d g i1 i2 in
  find_grad_marker (eqns (jaxpr raw_jaxpr)) 0 = Ok (Some (p, e)) →
  rename_rel (list_to_set (invars (jaxpr raw_jaxpr)))
    (in_grad_vars l) (inter_grad_vars l) (apply_old_invars l)
    (dict_update_zip ∅ (accumulate_old_invars l) (accumulate_grad_invars l))
    (gensym_before_apply raw_jaxpr l) new d g →
  num_grads l ≤ length (apply_old_invars l) →
  locals_spec raw_jaxpr num_micro_batches l.
Proof.
  intros l Hfind Hren Hn. split; try done. by exists g.
Qed.

Lemma add_gradient_accumulation_locals_build raw_jaxpr num_micro_batches
    p e new d g i1 i2 :
  let l := build_locals raw_jaxpr num_micro_batches p e new d g i1 i2 in
  find_grad_marker (eqns (jaxpr raw_jaxpr)) 0 = Ok (Some (p, e)) →
  rename_rel (list_to_set (invars (jaxpr raw_jaxpr)))
    (in_grad_vars l) (inter_grad_vars l) (apply_old_invars l)
    (dict_update_zip ∅ (accumulate_old_invars l) (accumulate_grad_invars l))
    (gensym_before_apply raw_jaxpr l) new d g →
  num_grads l ≤ length (apply_old_invars l) →
  invar_indices (invars (jaxpr (combined_jaxpr l)))
    (accumulate_grad_invars l) (num_grads l) = Ok i1 →
  invar_indices (invars (jaxpr (combined_jaxpr l)))
    (apply_grad_invars l) (num_grads l) = Ok i2 →
  add_gradient_accumulation_locals APPLY_GRAD_MARKER_SUFFIX raw_jaxpr
    num_micro_batches = Ok l.
Proof.
  intros l Hfind Hren Hn Hi1 Hi2.
  unfold add_gradient_accumulation_locals. rewrite Hfind.
  cbn [mbind Result_bind]. cbv zeta.
  do 3 (rewrite clone_vars_eq; cbv beta iota zeta; cbn [counter minted]).
  rewrite accumulation_eqns_eq by (by rewrite length_fresh_vars, length_fmap).
  cbn [mbind Result_bind].
  rewrite clone_vars_eq; cbv beta iota zeta; cbn [counter minted].
  rewrite gensym_minted, app_nil_l, <- !app_assoc.
  apply rename_apply_invars_Ok in Hren.
  subst l. apply bind_Ok. exists (new, d, g). split; [exact Hren|].
  cbv beta iota zeta. apply bind_Ok. eexists. split.
  { apply reduction_eqns_Ok. split; [exact Hn | reflexivity]. }
  rewrite clone_vars_eq; cbv beta iota zeta.
  apply bind_Ok. exists i1. split; [exact Hi1|].
  apply bind_Ok. exists i2. split; [exact Hi2|].
  unfold build_locals. by rewrite <- !app_assoc.
Qed.

(** *** Consequences of [locals_spec] *)

Section locals_facts.
Context (raw_jaxpr : ClosedJaxpr) (num_micro_batches : Z) (l : Locals).
Hypothesis Hspec : locals_spec raw_jaxpr num_micro_batches l.

Lemma length_old_grad_vars : length (old_grad_vars l) = num_grads l.
Proof.
  rewrite (ls_old _ _ _ Hspec), length_fresh_vars, length_fmap.
  symmetry. apply (ls_num _ _ _ Hspec).
Qed.

Lemma length_new_grad_vars : length (new_grad_vars l) = num_grads l.
Proof.
  rewrite (ls_new _ _ _ Hspec), length_fresh_vars, length_fmap.
  symmetry. apply (ls_num _ _ _ Hspec).
Qed.

Lemma length_inter_grad_vars : length (inter_grad_vars l) = num_grads l.
Proof.
  rewrite (ls_inter _ _ _ Hspec), length_fresh_vars, length_fmap.
  symmetry. apply (ls_num _ _ _ Hspec).
Qed.

Lemma length_accumulate_grad_invars :
  length (accumulate_grad_invars l) =
    length (filter_used_vars (invars (jaxpr raw_jaxpr)) (compute_grad_eqns l))
      + num_grads l.
Proof.
  rewrite (ls_accumulate_new _ _ _ Hspec), length_fresh_vars, length_fmap.
  rewrite (ls_accumulate_old _ _ _ Hspec), length_app.
  by rewrite length_old_grad_vars.
Qed.

Lemma length_apply_grad_invars :
  length (apply_grad_invars l) =
    length (filter_used_vars (invars (jaxpr raw_jaxpr)) (apply_grad_eqns l))
      + length (in_grad_vars l).
Proof.
  destruct (ls_rename _ _ _ Hspec) as (g & Hren & _).
  rewrite (rename_rel_length _ _ _ _ _ _ _ _ _ Hren).
  by rewrite (ls_apply_old _ _ _ Hspec), length_app.
Qed.

(** The marker found is the first gradient marker of the program. *)
Lemma marker_found :
  eqns (jaxpr raw_jaxpr) !! marker_pos l = Some (marker_eqn l)
  ∧ grad_marker (marker_eqn l)
  ∧ ∀ k e, k < marker_pos l → eqns (jaxpr raw_jaxpr) !! k = Some e →
      ¬ grad_marker e.
Proof.
  destruct (find_grad_marker_Some _ _ _ _ (ls_find _ _ _ Hspec))
    as (i & Hp & Hi & Hg & Hlt).
  simpl in Hp. by subst i.
Qed.

(** With a single gradient marker, at [p], the marker found is that one. *)
Lemma marker_pos_unique p e :
  eqns (jaxpr raw_jaxpr) !! p = Some e → grad_marker e →
  (∀ q e', eqns (jaxpr raw_jaxpr) !! q = Some e' → grad_marker e' → q = p) →
  marker_pos l = p ∧ marker_eqn l = e.
Proof.
  intros Hp He Huniq. destruct marker_found as (Hm & Hg & _).
  pose proof (Huniq _ _ Hm Hg) as Heq. split; [done|].
  rewrite Heq in Hm. congruence.
Qed.

(** Every variable the invocation mints, in the order of minting. *)
Lemma minted_fresh_vars :
  ∃ avals_apply,
    minted (gensym_state l) =
      old_grad_vars l ++ new_grad_vars l ++ accumulate_grad_invars l
        ++ inter_grad_vars l
        ++ fresh_vars (counter (gensym_before_apply raw_jaxpr l)) avals_apply
        ++ new_outvars l
    ∧ new_outvars l =
        fresh_vars
          (counter (gensym_before_apply raw_jaxpr l) + length avals_apply)
          (get_aval <$> outvars (jaxpr raw_jaxpr))
    ∧ ∀ k v, global_invar_substitute l !! k = Some v →
        dict_update_zip ∅ (accumulate_old_invars l)
          (accumulate_grad_invars l) !! k = Some v
        ∨ (k ∈ invars (jaxpr raw_jaxpr) ∧ aval v = aval k
           ∧ v ∈ fresh_vars (counter (gensym_before_apply raw_jaxpr l))
                   avals_apply).
Proof.
  destruct (ls_rename _ _ _ Hspec) as (g & Hren & Hout & Hg).
  destruct (rename_rel_minted _ _ _ _ _ _ _ _ _ Hren) as (avals & -> & Hd).
  exists avals. rewrite Hg, Hout. simpl. split; [|split; [done|]].
  - by rewrite <- !app_assoc.
  - intros k v Hk. destruct (Hd k v Hk) as [?|(_ & _ & Hin & ? & ?)];
      [by left|]. right. by rewrite elem_of_list_to_set in Hin.
Qed.

Lemma minted_counts :
  ∃ avals,
    minted (gensym_state l) =
      fresh_vars (counter (gensym [jaxpr raw_jaxpr])) avals.
Proof.
  destruct minted_fresh_vars as (avals_apply & -> & -> & _).
  unfold gensym_before_apply. simpl.
  rewrite (ls_inter _ _ _ Hspec), (ls_accumulate_new _ _ _ Hspec),
    (ls_new _ _ _ Hspec), (ls_old _ _ _ Hspec).
  set (A := get_aval <$> out_grad_vars l).
  set (B := aval <$> accumulate_old_invars l).
  set (C := get_aval <$> outvars (jaxpr raw_jaxpr)).
  assert (length A = num_grads l) as HA.
  { unfold A. by rewrite length_fmap, (ls_num _ _ _ Hspec). }
  assert (length B = length (accumulate_old_invars l)) as HB.
  { unfold B. by rewrite length_fmap. }
  exists (A ++ A ++ B ++ A ++ avals_apply ++ C).
  rewrite (fresh_vars_app _ A), (fresh_vars_app _ A), (fresh_vars_app _ B),
    (fresh_vars_app _ A), (fresh_vars_app _ avals_apply).
  rewrite HA, HB. done.
Qed.

Lemma NoDup_minted : NoDup (minted (gensym_state l)).
Proof. destruct minted_counts as [avals ->]. apply NoDup_fresh_vars. Qed.

Lemma minted_above v :
  v ∈ minted (gensym_state l) → counter (gensym [jaxpr raw_jaxpr]) ≤ count v.
Proof.
  destruct minted_counts as [avals ->]. intros Hv%elem_of_fresh_vars. lia.
Qed.

Lemma minted_not_in_jaxpr_vars v :
  v ∈ minted (gensym_state l) → v ∉ jaxpr_vars (jaxpr raw_jaxpr).
Proof. intros Hv%minted_above Hin%gensym_above. lia. Qed.

Lemma old_grad_vars_minted v :
  v ∈ old_grad_vars l → v ∈ minted (gensym_state l).
Proof.
  destruct minted_fresh_vars as (avals & -> & _). rewrite !elem_of_app. auto.
Qed.

Lemma new_grad_vars_minted v :
  v ∈ new_grad_vars l → v ∈ minted (gensym_state l).
Proof.
  destruct minted_fresh_vars as (avals & -> & _). rewrite !elem_of_app. auto.
Qed.

Lemma accumulate_grad_invars_minted v :
  v ∈ accumulate_grad_invars l → v ∈ minted (gensym_state l).
Proof.
  destruct minted_fresh_vars as (avals & -> & _). rewrite !elem_of_app. auto.
Qed.

Lemma inter_grad_vars_minted v :
  v ∈ inter_grad_vars l → v ∈ minted (gensym_state l).
Proof.
  destruct minted_fresh_vars as (avals & -> & _). rewrite !elem_of_app. auto.
Qed.

Lemma new_outvars_minted v :
  v ∈ new_outvars l → v ∈ minted (gensym_state l).
Proof.
  destruct minted_fresh_vars as (avals & -> & _). rewrite !elem_of_app.
  auto 10.
Qed.

(** The table after the accumulate-grad region: it pairs [old_invars]
    with [new_invars] position by position. *)
Lemma accumulate_table_Some k v :
  dict_update_zip ∅ (accumulate_old_invars l) (accumulate_grad_invars l)
    !! k = Some v →
  ∃ i, accumulate_old_invars l !! i = Some k
       ∧ accumulate_grad_invars l !! i = Some v.
Proof.
  intros [Hk|Hk]%lookup_dict_update_zip_Some; [|done].
  by rewrite lookup_empty in Hk.
Qed.

(** Every entry of the final table maps a program input or an
    accumulator to a minted variable of the same abstract value. *)
Lemma substitute_entry k v :
  global_invar_substitute l !! k = Some v →
  (k ∈ invars (jaxpr raw_jaxpr) ∨ k ∈ old_grad_vars l)
  ∧ v ∈ minted (gensym_state l) ∧ aval v = aval k.
Proof.
  intros Hk. destruct minted_fresh_vars as (avals & Hm & _ & Hd).
  destruct (Hd k v Hk) as [Hacc|(Hin & Hav & Hv)].
  - apply accumulate_table_Some in Hacc as (i & Hi & Hv).
    split; [|split].
    + rewrite (ls_accumulate_old _ _ _ Hspec) in Hi.
      apply list_elem_of_lookup_2, elem_of_app in Hi as [Hi|Hi]; [left|by right].
      by apply elem_of_filter_used_vars in Hi as [? _].
    + apply accumulate_grad_invars_minted. by eapply list_elem_of_lookup_2.
    + rewrite (ls_accumulate_new _ _ _ Hspec), fresh_vars_lookup in Hv.
      rewrite list_lookup_fmap, Hi in Hv. simpl in Hv. by injection Hv as <-.
  - split; [by left|]. split; [|done].
    rewrite Hm, !elem_of_app. auto 10.
Qed.

Lemma substitute_table_ok :
  ∃ g, table_ok (global_invar_substitute l) g.
Proof.
  destruct (ls_rename _ _ _ Hspec) as (g & Hren & _). exists g.
  eapply rename_rel_table_ok; [exact Hren|]. split.
  - intros k v (i & _ & Hv)%accumulate_table_Some.
    apply list_elem_of_lookup_2 in Hv.
    rewrite (ls_accumulate_new _ _ _ Hspec) in Hv.
    apply elem_of_fresh_vars in Hv. rewrite length_fmap in Hv.
    unfold gensym_before_apply. cbn [counter]. lia.
  - intros k1 k2 v (i1 & Hk1 & Hv1)%accumulate_table_Some
      (i2 & Hk2 & Hv2)%accumulate_table_Some.
    assert (i1 = i2) as ->.
    { eapply NoDup_lookup; [|exact Hv1|exact Hv2].
      rewrite (ls_accumulate_new _ _ _ Hspec). apply NoDup_fresh_vars. }
    congruence.
Qed.

Lemma substitute_inj k1 k2 v :
  global_invar_substitute l !! k1 = Some v →
  global_invar_substitute l !! k2 = Some v → k1 = k2.
Proof. destruct substitute_table_ok as (g & _ & Hinj). apply Hinj. Qed.

(** The accumulators keep the entry the accumulate-grad region gave them:
    their own renamed copies, the trailing [num_grads] entries of
    [accumulate_grad_invars]. *)
Lemma substitute_old_grad_vars i k :
  old_grad_vars l !! i = Some k →
  global_invar_substitute l !! k =
    accumulate_grad_invars l
      !! (length (filter_used_vars (invars (jaxpr raw_jaxpr))
                    (compute_grad_eqns l)) + i).
Proof.
  intros Hk. destruct (ls_rename _ _ _ Hspec) as (g & Hren & _).
  pose proof (rename_rel_subseteq _ _ _ _ _ _ _ _ _ Hren) as Hsub.
  set (U1 := filter_used_vars (invars (jaxpr raw_jaxpr))
               (compute_grad_eqns l)) in *.
  assert (is_Some (accumulate_grad_invars l !! (length U1 + i)))
    as [v Hv].
  { apply lookup_lt_is_Some_2. rewrite length_accumulate_grad_invars.
    apply lookup_lt_Some in Hk. rewrite length_old_grad_vars in Hk.
    fold U1. lia. }
  rewrite Hv. eapply lookup_weaken; [|exact Hsub].
  rewrite <- (take_drop (length U1) (accumulate_grad_invars l)).
  rewrite (ls_accumulate_old _ _ _ Hspec). fold U1.
  rewrite dict_update_zip_app.
  2:{ rewrite length_take, length_accumulate_grad_invars. fold U1. lia. }
  eapply lookup_dict_update_zip_NoDup; [|exact Hk|].
  - rewrite (ls_old _ _ _ Hspec). apply NoDup_fresh_vars.
  - by rewrite lookup_drop.
Qed.

(** The inputs of the combined program. *)
Lemma combined_invars :
  invars (jaxpr (combined_jaxpr l)) =
    (dict_get_default (global_invar_substitute l)
       <$> invars (jaxpr raw_jaxpr))
    ++ drop (length (filter_used_vars (invars (jaxpr raw_jaxpr))
                       (compute_grad_eqns l)))
         (accumulate_grad_invars l).
Proof.
  rewrite (ls_combined_jaxpr _ _ _ Hspec). simpl. rewrite fmap_app. f_equal.
  apply list_eq. intros i. rewrite list_lookup_fmap, lookup_drop.
  destruct (old_grad_vars l !! i) as [k|] eqn:Hk; simpl.
  - rewrite <- (substitute_old_grad_vars _ _ Hk). unfold dict_get_default.
    pose proof (substitute_old_grad_vars _ _ Hk) as Hd.
    destruct (global_invar_substitute l !! k) as [v|] eqn:Hv; [done|].
    symmetry in Hd. apply lookup_ge_None in Hd.
    apply lookup_lt_Some in Hk.
    rewrite length_accumulate_grad_invars in Hd.
    rewrite length_old_grad_vars in Hk. lia.
  - symmetry. apply lookup_ge_None. apply lookup_ge_None in Hk.
    rewrite length_accumulate_grad_invars.
    rewrite length_old_grad_vars in Hk. lia.
Qed.

Lemma length_combined_invars :
  length (invars (jaxpr (combined_jaxpr l))) =
    length (invars (jaxpr raw_jaxpr)) + num_grads l.
Proof.
  rewrite (ls_combined_jaxpr _ _ _ Hspec). simpl.
  by rewrite length_fmap, length_app, length_old_grad_vars.
Qed.
End locals_facts.

End add_gradient_accumulation_facts.

(** ** Positions in the combined input list *)

Lemma mapM_ext {A B} (f g : A → Result B) (l : list A) :
  (∀ x, x ∈ l → f x = g x) → mapM f l = mapM g l.
Proof.
  induction l as [|x l IH]; intros Hfg; simpl; [done|].
  rewrite (Hfg x) by left. rewrite IH; [done|].
  intros y Hy. apply Hfg. by right.
Qed.

Lemma mapM_fmap {A B C} (f : B → Result C) (h : A → B) (l : list A) :
  mapM f (h <$> l) = mapM (f ∘ h) l.
Proof.
  induction l as [|x l IH]; [done|].
  rewrite fmap_cons. simpl. by rewrite IH.
Qed.

Lemma mapM_fmap_r {A B C} (f : A → Result B) (g : B → C) (l : list A) :
  mapM (λ x, g <$> f x) l = fmap g <$> mapM f l.
Proof.
  induction l as [|x l IH]; simpl; [done|]. rewrite IH.
  destruct (f x); simpl; [|done]. by destruct (mapM f l).
Qed.

Lemma index_app_l `{EqDecision A} (l1 l2 : list A) (x : A) :
  x ∈ l1 → index (l1 ++ l2) x = index l1 x.
Proof.
  induction l1 as [|y l1 IH]; simpl; [by intros ?%elem_of_nil|].
  intros Hx. case_decide; [done|].
  apply elem_of_cons in Hx as [->|Hx]; [done|]. by rewrite IH.
Qed.

(** Looking up, in a list without repetition, the elements of one of its
    sublists yields strictly increasing positions. *)
Lemma mapM_index_sublist `{EqDecision A} (s l : list A) :
  NoDup l → sublist s l →
  ∃ ps, mapM (index l) s = Ok ps
        ∧ StronglySorted lt ps ∧ Forall (λ p, p < length l) ps.
Proof.
  intros Hnd. revert s. induction Hnd as [|y l Hy Hnd IH]; intros s Hs.
  - apply sublist_nil_r in Hs as ->. exists []. simpl.
    split; [done|]. split; constructor.
  - assert (∀ s', sublist s' l →
              ∃ ps, mapM (index (y :: l)) s' = Ok (S <$> ps)
                    ∧ StronglySorted lt (S <$> ps)
                    ∧ Forall (λ p, p < length (y :: l)) (S <$> ps))
      as Hshift.
    { intros s' Hs'. destruct (IH s' Hs') as (ps & Hps & Hsorted & Hlt).
      exists ps. split; [|split].
      - rewrite (mapM_ext _ (λ x, S <$> index l x)).
        + by rewrite mapM_fmap_r, Hps.
        + intros x Hx. simpl. rewrite decide_False; [done|].
          intros ->. apply Hy. eapply elem_of_sublist; [exact Hx | exact Hs'].
      - clear -Hsorted. induction Hsorted as [|p ps _ IHs Hall]; csimpl;
          constructor; [done|].
        rewrite Forall_fmap. eapply Forall_impl; [exact Hall|].
        intros q Hq. unfold compose. simpl in *. lia.
      - rewrite Forall_fmap. eapply Forall_impl; [exact Hlt|].
        intros q Hq. unfold compose. simpl in *. lia. }
    apply sublist_cons_r in Hs as [Hs|(s' & -> & Hs')].
    + destruct (Hshift s Hs) as (ps & ? & ? & ?). by exists (S <$> ps).
    + destruct (Hshift s' Hs') as (ps & Hps & Hsorted & Hlt).
      exists (0 :: (S <$> ps)). split; [|split].
      * apply mapM_Ok. constructor; [|by apply mapM_Ok].
        simpl. by rewrite decide_True.
      * constructor; [done|]. rewrite Forall_fmap. apply Forall_true.
        intros q. unfold compose. simpl in *. lia.
      * constructor; [simpl; lia | done].
Qed.

Section invar_indices_facts.
Variable APPLY_GRAD_MARKER_SUFFIX : string.
Context (raw_jaxpr : ClosedJaxpr) (num_micro_batches : Z) (l : Locals).
Hypothesis Hspec :
  locals_spec APPLY_GRAD_MARKER_SUFFIX raw_jaxpr num_micro_batches l.

Lemma invars_jaxpr_vars v :
  v ∈ invars (jaxpr raw_jaxpr) → v ∈ jaxpr_vars (jaxpr raw_jaxpr).
Proof. unfold jaxpr_vars. rewrite elem_of_app. auto. Qed.

(** No variable of [inter_grad_vars] is an input of the combined program. *)
Lemma substitute_value_not_inter k v :
  global_invar_substitute l !! k = Some v → v ∉ inter_grad_vars l.
Proof.
  intros Hk Hinter.
  destruct (minted_fresh_vars _ _ _ _ Hspec) as (avals & Hm & _ & Hd).
  pose proof (NoDup_minted _ _ _ _ Hspec) as Hnd. rewrite Hm in Hnd.
  apply NoDup_app in Hnd as (_ & _ & Hnd).
  apply NoDup_app in Hnd as (_ & _ & Hnd).
  apply NoDup_app in Hnd as (_ & Hacc & Hnd).
  apply NoDup_app in Hnd as (_ & Hloop & _).
  destruct (Hd k v Hk) as [(i & _ & Hv)%accumulate_table_Some|(_ & _ & Hv)].
  - apply list_elem_of_lookup_2 in Hv. apply (Hacc v Hv).
    rewrite elem_of_app. by left.
  - apply (Hloop v Hinter). rewrite elem_of_app. by left.
Qed.

Lemma inter_not_combined_invar v :
  v ∈ inter_grad_vars l → v ∉ invars (jaxpr (combined_jaxpr l)).
Proof.
  intros Hinter. rewrite (ls_combined_jaxpr _ _ _ _ Hspec). simpl.
  intros (y & Hv & Hy)%list_elem_of_fmap. unfold dict_get_default in Hv.
  destruct (global_invar_substitute l !! y) as [w|] eqn:Hw; simpl in Hv.
  - subst w. by eapply substitute_value_not_inter.
  - subst y. pose proof (inter_grad_vars_minted _ _ _ _ Hspec _ Hinter) as Hm.
    apply elem_of_app in Hy as [Hy|Hy].
    + eapply minted_not_in_jaxpr_vars; [done..|]. by apply invars_jaxpr_vars.
    + apply list_elem_of_lookup in Hy as [i Hi].
      rewrite (substitute_old_grad_vars _ _ _ _ Hspec _ _ Hi) in Hw.
      apply lookup_ge_None in Hw. apply lookup_lt_Some in Hi.
      rewrite (length_accumulate_grad_invars _ _ _ _ Hspec) in Hw.
      rewrite (length_old_grad_vars _ _ _ _ Hspec) in Hi. lia.
Qed.

(** A renamed program input sits, in the combined input list, where the
    input sits in the program's. *)
Lemma index_combined_invars u v :
  u ∈ invars (jaxpr raw_jaxpr) → global_invar_substitute l !! u = Some v →
  index (invars (jaxpr (combined_jaxpr l))) v
    = index (invars (jaxpr raw_jaxpr)) u.
Proof.
  intros Hu Hv. rewrite (ls_combined_jaxpr _ _ _ _ Hspec). simpl.
  replace v with (dict_get_default (global_invar_substitute l) u)
    by (unfold dict_get_default; by rewrite Hv).
  rewrite index_fmap_inj; [by apply index_app_l|].
  intros y Hy. unfold dict_get_default. rewrite Hv. simpl.
  destruct (global_invar_substitute l !! y) as [w|] eqn:Hw; simpl.
  - intros ->. by eapply (substitute_inj _ _ _ _ Hspec).
  - intros ->. exfalso.
    destruct (substitute_entry _ _ _ _ Hspec _ _ Hv) as (_ & Hm & _).
    apply elem_of_app in Hy as [Hy|Hy].
    + eapply minted_not_in_jaxpr_vars; [done..|]. by apply invars_jaxpr_vars.
    + apply list_elem_of_lookup in Hy as [i Hi].
      rewrite (substitute_old_grad_vars _ _ _ _ Hspec _ _ Hi) in Hw.
      apply lookup_ge_None in Hw. apply lookup_lt_Some in Hi.
      rewrite (length_accumulate_grad_invars _ _ _ _ Hspec) in Hw.
      rewrite (length_old_grad_vars _ _ _ _ Hspec) in Hi. lia.
Qed.

Lemma mapM_index_combined_invars (us : list Var) :
  (∀ u, u ∈ us → u ∈ invars (jaxpr raw_jaxpr)
                 ∧ is_Some (global_invar_substitute l !! u)) →
  mapM (index (invars (jaxpr (combined_jaxpr l))))
    (dict_get_default (global_invar_substitute l) <$> us)
  = mapM (index (invars (jaxpr raw_jaxpr))) us.
Proof.
  intros Hus. rewrite mapM_fmap. apply mapM_ext. intros u Hu. simpl.
  destruct (Hus u Hu) as [Hin [v Hv]].
  rewrite <- (index_combined_invars u v) by done.
  unfold dict_get_default. by rewrite Hv.
Qed.

(** The apply-grad region renames each used program input to its entry
    in the table. *)
Lemma apply_grad_invars_global i u :
  filter_used_vars (invars (jaxpr raw_jaxpr)) (apply_grad_eqns l) !! i
    = Some u →
  ∃ v, apply_grad_invars l !! i = Some v
       ∧ global_invar_substitute l !! u = Some v.
Proof.
  intros Hu. destruct (ls_rename _ _ _ _ Hspec) as (g & Hren & _).
  eapply rename_rel_global; [exact Hren| |].
  - rewrite (ls_apply_old _ _ _ _ Hspec). by apply lookup_app_l_Some.
  - apply elem_of_list_to_set.
    apply list_elem_of_lookup_2, elem_of_filter_used_vars in Hu. tauto.
Qed.

Lemma take_apply_grad_invars :
  take (length (filter_used_vars (invars (jaxpr raw_jaxpr))
                  (apply_grad_eqns l)))
       (apply_grad_invars l)
  = dict_get_default (global_invar_substitute l)
      <$> filter_used_vars (invars (jaxpr raw_jaxpr)) (apply_grad_eqns l).
Proof.
  set (U2 := filter_used_vars _ _).
  apply list_eq. intros i. rewrite list_lookup_fmap.
  destruct (U2 !! i) as [u|] eqn:Hu; simpl.
  - destruct (apply_grad_invars_global i u Hu) as (v & Hv & Hd).
    rewrite lookup_take_lt by (by eapply lookup_lt_Some).
    unfold dict_get_default. by rewrite Hv, Hd.
  - apply lookup_ge_None in Hu. apply lookup_ge_None.
    rewrite length_take. lia.
Qed.

Lemma slice_until_neg_pos {A} (xs : list A) (n : nat) :
  n ≠ 0 → slice_until_neg xs n = take (length xs - n) xs.
Proof. by destruct n. Qed.

(** *** When the program's inputs are pairwise distinct *)

Hypothesis Hinvars : NoDup (invars (jaxpr raw_jaxpr)).

Lemma NoDup_accumulate_old_invars : NoDup (accumulate_old_invars l).
Proof.
  rewrite (ls_accumulate_old _ _ _ _ Hspec). apply NoDup_app. split; [|split].
  - by apply NoDup_filter_used_vars.
  - intros u [Hu _]%elem_of_filter_used_vars Hold.
    eapply minted_not_in_jaxpr_vars; [done| |by apply invars_jaxpr_vars].
    by eapply old_grad_vars_minted.
  - rewrite (ls_old _ _ _ _ Hspec). apply NoDup_fresh_vars.
Qed.

Lemma accumulate_grad_invars_global i u :
  filter_used_vars (invars (jaxpr raw_jaxpr)) (compute_grad_eqns l) !! i
    = Some u →
  ∃ v, accumulate_grad_invars l !! i = Some v
       ∧ global_invar_substitute l !! u = Some v.
Proof.
  intros Hu. destruct (ls_rename _ _ _ _ Hspec) as (g & Hren & _).
  pose proof (rename_rel_subseteq _ _ _ _ _ _ _ _ _ Hren) as Hsub.
  assert (accumulate_old_invars l !! i = Some u) as Hold.
  { rewrite (ls_accumulate_old _ _ _ _ Hspec). by apply lookup_app_l_Some. }
  destruct (lookup_lt_is_Some_2 (accumulate_grad_invars l) i) as [v Hv].
  { rewrite (ls_accumulate_new _ _ _ _ Hspec), length_fresh_vars, length_fmap.
    by eapply lookup_lt_Some. }
  exists v. split; [done|]. eapply lookup_weaken; [|exact Hsub].
  eapply lookup_dict_update_zip_NoDup;
    [apply NoDup_accumulate_old_invars | exact Hold | exact Hv].
Qed.

Lemma take_accumulate_grad_invars :
  take (length (filter_used_vars (invars (jaxpr raw_jaxpr))
                  (compute_grad_eqns l)))
       (accumulate_grad_invars l)
  = dict_get_default (global_invar_substitute l)
      <$> filter_used_vars (invars (jaxpr raw_jaxpr)) (compute_grad_eqns l).
Proof.
  set (U1 := filter_used_vars _ _).
  apply list_eq. intros i. rewrite list_lookup_fmap.
  destruct (U1 !! i) as [u|] eqn:Hu; simpl.
  - destruct (accumulate_grad_invars_global i u Hu) as (v & Hv & Hd).
    rewrite lookup_take_lt by (by eapply lookup_lt_Some).
    unfold dict_get_default. by rewrite Hv, Hd.
  - apply lookup_ge_None in Hu. apply lookup_ge_None.
    rewrite length_take. lia.
Qed.

(** The positions of the accumulate-grad region's inputs are those of the
    program inputs its equations use. *)
Lemma accumulate_indices_eq :
  num_grads l ≠ 0 →
  invar_indices (invars (jaxpr (combined_jaxpr l)))
    (accumulate_grad_invars l) (num_grads l)
  = mapM (index (invars (jaxpr raw_jaxpr)))
      (filter_used_vars (invars (jaxpr raw_jaxpr)) (compute_grad_eqns l)).
Proof.
  intros Hn. unfold invar_indices. rewrite slice_until_neg_pos by done.
  rewrite (length_accumulate_grad_invars _ _ _ _ Hspec).
  replace (_ + num_grads l - num_grads l) with
    (length (filter_used_vars (invars (jaxpr raw_jaxpr))
               (compute_grad_eqns l))) by lia.
  rewrite take_accumulate_grad_invars.
  apply mapM_index_combined_invars. intros u Hu.
  split; [apply elem_of_filter_used_vars in Hu; tauto|].
  apply list_elem_of_lookup in Hu as [i Hi].
  destruct (accumulate_grad_invars_global i u Hi) as (v & _ & Hv). by exists v.
Qed.

(** The same for a prefix of the apply-grad region's used inputs. *)
Lemma apply_indices_eq m :
  m ≤ length (filter_used_vars (invars (jaxpr raw_jaxpr))
                (apply_grad_eqns l)) →
  mapM (index (invars (jaxpr (combined_jaxpr l))))
    (take m (apply_grad_invars l))
  = mapM (index (invars (jaxpr raw_jaxpr)))
      (take m (filter_used_vars (invars (jaxpr raw_jaxpr))
                 (apply_grad_eqns l))).
Proof.
  intros Hm. set (U2 := filter_used_vars _ _) in *.
  replace (take m (apply_grad_invars l)) with
    (dict_get_default (global_invar_substitute l) <$> take m U2).
  2:{ rewrite fmap_take. unfold U2 in *.
      rewrite <- take_apply_grad_invars, take_take.
      f_equal. lia. }
  apply mapM_index_combined_invars. intros u Hu.
  assert (u ∈ U2) as Hu'.
  { eapply elem_of_sublist; [exact Hu | apply sublist_take]. }
  split; [apply elem_of_filter_used_vars in Hu'; tauto|].
  apply list_elem_of_lookup in Hu' as [i Hi].
  destruct (apply_grad_invars_global i u Hi) as (v & _ & Hv). by exists v.
Qed.

(** Strictly increasing positions below the number of program inputs. *)
Definition increasing_below (bound : nat) (ps : list nat) : Prop :=
  StronglySorted lt ps ∧ Forall (λ p, p < bound) ps.

Lemma mapM_index_used_vars m es ps :
  mapM (index (invars (jaxpr raw_jaxpr)))
    (take m (filter_used_vars (invars (jaxpr raw_jaxpr)) es)) = Ok ps →
  increasing_below (length (invars (jaxpr raw_jaxpr))) ps.
Proof.
  intros Hps.
  destruct (mapM_index_sublist
              (take m (filter_used_vars (invars (jaxpr raw_jaxpr)) es))
              (invars (jaxpr raw_jaxpr)) Hinvars)
    as (ps' & Hps' & Hsorted & Hlt).
  { etrans; [apply sublist_take | apply filter_used_vars_sublist]. }
  rewrite Hps in Hps'. by injection Hps' as <-.
Qed.

Lemma mapM_index_used_vars_total m es :
  ∃ ps, mapM (index (invars (jaxpr raw_jaxpr)))
          (take m (filter_used_vars (invars (jaxpr raw_jaxpr)) es)) = Ok ps.
Proof.
  destruct (mapM_index_sublist
              (take m (filter_used_vars (invars (jaxpr raw_jaxpr)) es))
              (invars (jaxpr raw_jaxpr)) Hinvars)
    as (ps' & Hps' & _).
  { etrans; [apply sublist_take | apply filter_used_vars_sublist]. }
  by exists ps'.
Qed.

Lemma invar_indices_accumulate_increasing ps :
  invar_indices (invars (jaxpr (combined_jaxpr l)))
    (accumulate_grad_invars l) (num_grads l) = Ok ps →
  increasing_below (length (invars (jaxpr raw_jaxpr))) ps.
Proof.
  destruct (decide (num_grads l = 0)) as [Hn|Hn].
  - unfold invar_indices. rewrite Hn. simpl. intros [= <-].
    split; constructor.
  - rewrite accumulate_indices_eq by done.
    rewrite <- (firstn_all (filter_used_vars _ _)). apply mapM_index_used_vars.
Qed.

Lemma invar_indices_apply_increasing ps :
  (∀ v, v ∈ in_grad_vars l → v ∉ invars (jaxpr raw_jaxpr)) →
  invar_indices (invars (jaxpr (combined_jaxpr l)))
    (apply_grad_invars l) (num_grads l) = Ok ps →
  increasing_below (length (invars (jaxpr raw_jaxpr))) ps.
Proof.
  intros Hdisj. destruct (decide (num_grads l = 0)) as [Hn|Hn].
  { unfold invar_indices. rewrite Hn. simpl. intros [= <-].
    split; constructor. }
  unfold invar_indices. rewrite slice_until_neg_pos by done.
  set (U2 := filter_used_vars (invars (jaxpr raw_jaxpr))
               (apply_grad_eqns l)).
  set (m := length (apply_grad_invars l) - num_grads l).
  destruct (decide (m ≤ length U2)) as [Hm|Hm].
  { rewrite apply_indices_eq by done. apply mapM_index_used_vars. }
  intros Hps. exfalso.
  destruct (ls_rename _ _ _ _ Hspec) as (g & Hren & _).
  assert (length U2 < length (apply_old_invars l)) as Hlt.
  { rewrite <- (rename_rel_length _ _ _ _ _ _ _ _ _ Hren). lia. }
  destruct (lookup_lt_is_Some_2 _ _ Hlt) as [var Hvar].
  assert (var ∈ in_grad_vars l) as Hin.
  { rewrite (ls_apply_old _ _ _ _ Hspec) in Hvar. fold U2 in Hvar.
    rewrite lookup_app_r in Hvar by lia. by eapply list_elem_of_lookup_2. }
  destruct (rename_rel_local _ _ _ _ _ _ _ _ _ _ var Hren Hvar)
    as (k & v & _ & Hk & Hv).
  { rewrite elem_of_list_to_set. by apply Hdisj. }
  apply mapM_Ok in Hps.
  assert (take m (apply_grad_invars l) !! length U2 = Some v) as Hv'.
  { rewrite lookup_take_lt by lia. done. }
  destruct (Forall2_lookup_l _ _ _ _ _ Hps Hv') as (p & _ & Hp).
  apply index_Ok_elem_of in Hp.
  eapply inter_not_combined_invar; [|exact Hp].
  by eapply list_elem_of_lookup_2.
Qed.
End invar_indices_facts.

(** ** When [add_gradient_accumulation] returns *)

(** A marker equation as the tracer builds it: it carries its
    ["mark_type"], and it has one output per input. *)
Definition marker_well_formed (eqn : JaxprEqn) : Prop :=
  primitive eqn = pipeline_p →
  is_Some (params eqn !! "mark_type")
  ∧ length (eqn_outvars eqn) = length (eqn_invars eqn).

#[global] Instance marker_well_formed_dec eqn :
  Decision (marker_well_formed eqn).
Proof. unfold marker_well_formed. apply _. Defined.

Section totality.
Variable APPLY_GRAD_MARKER_SUFFIX : string.
Context (raw_jaxpr : ClosedJaxpr) (num_micro_batches : Z).

Lemma add_gradient_accumulation_Ok cj i1 i2 n :
  add_gradient_accumulation APPLY_GRAD_MARKER_SUFFIX raw_jaxpr
    num_micro_batches = Ok (cj, i1, i2, n) ↔
  ∃ l, add_gradient_accumulation_locals APPLY_GRAD_MARKER_SUFFIX raw_jaxpr
         num_micro_batches = Ok l
       ∧ cj = combined_jaxpr l ∧ i1 = accumulate_grad_invar_indices l
       ∧ i2 = apply_grad_invar_indices l ∧ n = num_grads l.
Proof.
  unfold add_gradient_accumulation. rewrite bind_Ok. split.
  - intros (l & Hl & [= <- <- <- <-]). by exists l.
  - intros (l & Hl & -> & -> & -> & ->). by exists l.
Qed.

Lemma add_gradient_accumulation_locals_total p e :
  find_grad_marker (eqns (jaxpr raw_jaxpr)) 0 = Ok (Some (p, e)) →
  length (eqn_outvars e) = length (eqn_invars e) →
  NoDup (invars (jaxpr raw_jaxpr)) →
  ∃ l, add_gradient_accumulation_locals APPLY_GRAD_MARKER_SUFFIX raw_jaxpr
         num_micro_batches = Ok l.
Proof.
  intros Hfind Harity Hinvars.
  set (l0 := build_locals APPLY_GRAD_MARKER_SUFFIX raw_jaxpr
               num_micro_batches p e [] ∅ (mkGensym 0 []) [] []).
  destruct (rename_apply_invars_total
              (list_to_set (invars (jaxpr raw_jaxpr)))
              (in_grad_vars l0) (inter_grad_vars l0) (apply_old_invars l0)
              (dict_update_zip ∅ (accumulate_old_invars l0)
                 (accumulate_grad_invars l0))
              (gensym_before_apply raw_jaxpr l0))
    as [[[new d] g] Hren].
  { intros var Hvar Hglobal. rewrite elem_of_list_to_set in Hglobal.
    apply elem_of_app in Hvar as [Hvar|Hvar].
    { apply elem_of_filter_used_vars in Hvar. tauto. }
    destruct (index_elem_of _ _ Hvar) as [k Hk]. exists k. split; [done|].
    apply index_Ok_lt in Hk. simpl in *.
    rewrite length_fresh_vars, length_fmap. lia. }
  apply rename_apply_invars_Ok in Hren.
  set (l1 := build_locals APPLY_GRAD_MARKER_SUFFIX raw_jaxpr
               num_micro_batches p e new d g [] []).
  assert (num_grads l1 ≤ length (apply_old_invars l1)) as Hn.
  { simpl. rewrite length_app. lia. }
  pose proof (build_locals_spec APPLY_GRAD_MARKER_SUFFIX raw_jaxpr
                num_micro_batches p e new d g [] [] Hfind Hren Hn) as Hspec.
  fold l1 in Hspec.
  assert (∃ i1, invar_indices (invars (jaxpr (combined_jaxpr l1)))
                  (accumulate_grad_invars l1) (num_grads l1) = Ok i1)
    as [i1 Hi1].
  { destruct (decide (num_grads l1 = 0)) as [Hz|Hz].
    - exists []. unfold invar_indices. by rewrite Hz.
    - rewrite (accumulate_indices_eq _ _ _ _ Hspec Hinvars Hz).
      rewrite <- (firstn_all (filter_used_vars _ _)).
      by apply mapM_index_used_vars_total. }
  assert (∃ i2, invar_indices (invars (jaxpr (combined_jaxpr l1)))
                  (apply_grad_invars l1) (num_grads l1) = Ok i2)
    as [i2 Hi2].
  { destruct (decide (num_grads l1 = 0)) as [Hz|Hz].
    - exists []. unfold invar_indices. by rewrite Hz.
    - unfold invar_indices. rewrite slice_until_neg_pos by done.
      rewrite (apply_indices_eq _ _ _ _ Hspec).
      + by apply mapM_index_used_vars_total.
      + rewrite (length_apply_grad_invars _ _ _ _ Hspec).
        simpl. lia. }
  eexists. exact (add_gradient_accumulation_locals_build
    APPLY_GRAD_MARKER_SUFFIX raw_jaxpr num_micro_batches p e new d g i1 i2
    Hfind Hren Hn Hi1 Hi2).
Qed.

(** With one gradient marker, well-formed markers and pairwise distinct
    inputs, the function returns. *)
Lemma add_gradient_accumulation_total p marker :
  eqns (jaxpr raw_jaxpr) !! p = Some marker → grad_marker marker →
  (∀ q e, eqns (jaxpr raw_jaxpr) !! q = Some e → grad_marker e → q = p) →
  Forall marker_well_formed (eqns (jaxpr raw_jaxpr)) →
  NoDup (invars (jaxpr raw_jaxpr)) →
  ∃ r, add_gradient_accumulation APPLY_GRAD_MARKER_SUFFIX raw_jaxpr
         num_micro_batches = Ok r.
Proof.
  intros Hp Hmarker Huniq Hwf Hinvars.
  assert (find_grad_marker (eqns (jaxpr raw_jaxpr)) 0 = Ok (Some (p, marker)))
    as Hfind.
  { apply (find_grad_marker_first _ 0 p); [|done..|].
    - eapply Forall_impl; [exact Hwf|]. intros e He Hprim.
      by destruct (He Hprim).
    - intros k e' Hk He' Hg. pose proof (Huniq _ _ He' Hg). lia. }
  destruct (add_gradient_accumulation_locals_total p marker Hfind)
    as [l Hl]; [|done|].
  { rewrite Forall_forall in Hwf.
    destruct (Hwf marker) as [_ Harity]; [|by destruct Hmarker|done].
    by eapply list_elem_of_lookup_2. }
  eexists. apply add_gradient_accumulation_Ok. by exists l.
Qed.
End totality.

(** * The claims *)

(** ** [filter_used_vars] *)

(** C8: [filter_used_vars candidates operations] is exactly the
    subsequence of [candidates] made of the variables that some operation
    takes as a non-literal input: it is the filter of [candidates] by
    [used_by], hence a sublist of it (relative order kept, no occurrence
    repeated: a result without repetition whenever [candidates] has none);
    a variable that no operation takes as a variable, whatever literals the
    operations carry, is left out.  The function being pure, its
    arguments are untouched.  In particular, of three candidates of which
    the operations use only the second, the second alone is returned. *)
Theorem filter_used_vars_exact (candidates : list Var)
    (operations : list JaxprEqn) :
  filter_used_vars candidates operations
    = filter (used_by operations) candidates
  ∧ sublist (filter_used_vars candidates operations) candidates
  ∧ (∀ v, v ∈ filter_used_vars candidates operations
          ↔ v ∈ candidates ∧ used_by operations v)
  ∧ (NoDup candidates → NoDup (filter_used_vars candidates operations))
  ∧ (∀ v, (∀ eqn, eqn ∈ operations → AVar v ∉ eqn_invars eqn) →
          v ∉ filter_used_vars candidates operations)
  ∧ (∀ a b c, ¬ used_by operations a → used_by operations b →
              ¬ used_by operations c →
              filter_used_vars [a; b; c] operations = [b]).
Proof.
  split; [apply filter_used_vars_filter|].
  split; [apply filter_used_vars_sublist|].
  split; [apply elem_of_filter_used_vars|].
  split; [apply NoDup_filter_used_vars|].
  split.
  - intros v Hlit [_ (eqn & Heqn & Hv)]%elem_of_filter_used_vars.
    by apply (Hlit eqn).
  - intros a b c Ha Hb Hc. rewrite filter_used_vars_filter.
    rewrite !filter_cons, filter_nil.
    rewrite (decide_False (P := used_by operations a)) by done.
    rewrite (decide_True (P := used_by operations b)) by done.
    by rewrite (decide_False (P := used_by operations c)).
Qed.

(** ** [add_gradient_accumulation] *)

(** A region marker of the given type and name. *)
Definition region_marker (mark_type name : string) (eqn : JaxprEqn) : Prop :=
  primitive eqn = pipeline_p
  ∧ params eqn !! "mark_type" = Some mark_type
  ∧ params eqn !! "name" = Some name.

Lemma region_marker_params invars outvars mark_type name :
  region_marker mark_type name
    (new_jaxpr_eqn invars outvars pipeline_p (marker_params mark_type name)).
Proof.
  unfold region_marker, marker_params. simpl. split; [done|]. split.
  - rewrite lookup_insert_ne by done. apply lookup_insert_eq.
  - apply lookup_insert_eq.
Qed.

Lemma Forall_add_eqns old out new :
  Forall (λ eqn, primitive eqn = add_p) (add_eqns old out new).
Proof.
  unfold add_eqns. apply Forall_forall. intros eqn Heqn.
  apply elem_of_lookup_zip_with in Heqn as (i & o & gn & -> & _). done.
Qed.

Section claims.
Variable APPLY_GRAD_MARKER_SUFFIX : string.
Implicit Types (raw_jaxpr : ClosedJaxpr) (num_micro_batches : Z).

(** C1: when the program has exactly one gradient marker, at position
    [p], the operations of the combined program are, in this order: the
    start marker of the accumulate-grad region, the operations before [p],
    [n] additions, the end marker of that region, the start marker of the
    apply-grad region, [n] divisions, the operations after [p], and the end
    marker of that region.  Every operation before [p] thus lies once
    between the accumulate-grad markers and every operation after [p] once
    between the apply-grad markers.  The function returns such a program
    whenever the markers are well formed and the inputs pairwise
    distinct. *)
Theorem operations_split_at_marker raw_jaxpr num_micro_batches p marker :
  eqns (jaxpr raw_jaxpr) !! p = Some marker → grad_marker marker →
  (∀ q e, eqns (jaxpr raw_jaxpr) !! q = Some e → grad_marker e → q = p) →
  (∀ cj i1 i2 n,
     add_gradient_accumulation APPLY_GRAD_MARKER_SUFFIX raw_jaxpr
       num_micro_batches = Ok (cj, i1, i2, n) →
     ∃ start_accumulate adds end_accumulate start_apply divs end_apply,
       eqns (jaxpr cj) =
         [start_accumulate] ++ take p (eqns (jaxpr raw_jaxpr)) ++ adds
           ++ [end_accumulate] ++ [start_apply] ++ divs
           ++ drop (S p) (eqns (jaxpr raw_jaxpr)) ++ [end_apply]
       ∧ region_marker "start" "_accumulate_grad" start_accumulate
       ∧ region_marker "end" "_accumulate_grad" end_accumulate
       ∧ region_marker "start" APPLY_GRAD_MARKER_SUFFIX start_apply
       ∧ region_marker "end" APPLY_GRAD_MARKER_SUFFIX end_apply
       ∧ length adds = n ∧ Forall (λ eqn, primitive eqn = add_p) adds
       ∧ length divs = n ∧ Forall (λ eqn, primitive eqn = div_p) divs)
  ∧ (Forall marker_well_formed (eqns (jaxpr raw_jaxpr)) →
     NoDup (invars (jaxpr raw_jaxpr)) →
     ∃ r, add_gradient_accumulation APPLY_GRAD_MARKER_SUFFIX raw_jaxpr
            num_micro_batches = Ok r).
Proof.
  intros Hp Hmarker Huniq. split.
  - intros cj i1 i2 n (l & Hl & -> & _ & _ & ->)%add_gradient_accumulation_Ok.
    apply add_gradient_accumulation_locals_spec in Hl as [Hspec _].
    destruct (marker_pos_unique _ _ _ _ Hspec p marker Hp Hmarker Huniq)
      as [Hpos _].
    exists (accumulate_start_marker l),
      (add_eqns (old_grad_vars l) (out_grad_vars l) (new_grad_vars l)),
      (accumulate_end_marker l),
      (apply_start_marker APPLY_GRAD_MARKER_SUFFIX l),
      (div_eqns num_micro_batches l),
      (apply_end_marker APPLY_GRAD_MARKER_SUFFIX raw_jaxpr l).
    split.
    { rewrite (ls_combined_jaxpr _ _ _ _ Hspec). simpl.
      rewrite (ls_combined_eqns _ _ _ _ Hspec), (ls_compute _ _ _ _ Hspec),
        (ls_apply _ _ _ _ Hspec), Hpos.
      by replace (p + 1) with (S p) by lia. }
    repeat split; try apply region_marker_params; try done.
    + rewrite length_add_eqns.
      * symmetry. apply (ls_num _ _ _ _ Hspec).
      * rewrite (length_old_grad_vars _ _ _ _ Hspec).
        apply (ls_num _ _ _ _ Hspec).
      * rewrite (length_new_grad_vars _ _ _ _ Hspec).
        apply (ls_num _ _ _ _ Hspec).
    + apply Forall_add_eqns.
    + unfold div_eqns. rewrite length_fmap, length_take, length_reverse.
      pose proof (ls_reduction _ _ _ _ Hspec). lia.
    + unfold div_eqns. by apply Forall_fmap, Forall_true.
  - intros Hwf Hinvars. by eapply add_gradient_accumulation_total.
Qed.

(** C5: a program without gradient marker makes the function raise, so
    that nothing is returned; when the markers of the program carry their
    type, the exception is the assertion's "Must have exactly one gradient
    marker".  The function is a pure function of the program, which it
    cannot change. *)
Theorem missing_marker_raises raw_jaxpr num_micro_batches :
  (∀ eqn, eqn ∈ eqns (jaxpr raw_jaxpr) → ¬ grad_marker eqn) →
  (∃ exn, add_gradient_accumulation APPLY_GRAD_MARKER_SUFFIX raw_jaxpr
            num_micro_batches = Raise exn)
  ∧ (Forall has_mark_type (eqns (jaxpr raw_jaxpr)) →
     add_gradient_accumulation APPLY_GRAD_MARKER_SUFFIX raw_jaxpr
       num_micro_batches
     = Raise (AssertionError "Must have exactly one gradient marker")).
Proof.
  intros Hnone. split.
  - unfold add_gradient_accumulation, add_gradient_accumulation_locals.
    destruct (find_grad_marker (eqns (jaxpr raw_jaxpr)) 0)
      as [[[p e]|]|exn] eqn:Hfind; simpl; [|by eexists..].
    apply find_grad_marker_Some in Hfind as (i & _ & Hi & Hg & _).
    destruct (Hnone e); [by eapply list_elem_of_lookup_2 | done].
  - intros Hwf.
    unfold add_gradient_accumulation, add_gradient_accumulation_locals.
    rewrite (find_grad_marker_absent _ 0 Hwf); [done|].
    by apply Forall_forall.
Qed.
(** C6: the accumulate-grad region holds, after the operations of
    compute_grad and before its end marker, one addition per gradient:
    the [i]-th reads [old_grad_vars[i]] and [out_grad_vars[i]] and writes
    [new_grad_vars[i]] alone.  There are [num_grads] of them, writing
    pairwise distinct variables, and the four lists of gradient variables
    have [num_grads] entries, the number of inputs of the marker. *)
Theorem accumulation_adds raw_jaxpr num_micro_batches l :
  add_gradient_accumulation_locals APPLY_GRAD_MARKER_SUFFIX raw_jaxpr
    num_micro_batches = Ok l →
  length (old_grad_vars l) = num_grads l
  ∧ length (new_grad_vars l) = num_grads l
  ∧ length (inter_grad_vars l) = num_grads l
  ∧ length (out_grad_vars l) = num_grads l
  ∧ num_grads l = length (eqn_invars (marker_eqn l))
  ∧ grad_marker (marker_eqn l)
  ∧ NoDup (new_grad_vars l)
  ∧ ∃ adds rest,
      eqns (jaxpr (combined_jaxpr l)) =
        [accumulate_start_marker l] ++ compute_grad_eqns l ++ adds
          ++ [accumulate_end_marker l] ++ rest
      ∧ region_marker "start" "_accumulate_grad" (accumulate_start_marker l)
      ∧ region_marker "end" "_accumulate_grad" (accumulate_end_marker l)
      ∧ length adds = num_grads l
      ∧ ∀ i, i < num_grads l →
          ∃ old out new,
            old_grad_vars l !! i = Some old
            ∧ out_grad_vars l !! i = Some out
            ∧ new_grad_vars l !! i = Some new
            ∧ adds !! i = Some (new_jaxpr_eqn [AVar old; out] [new] add_p ∅).
Proof.
  intros [Hspec _]%add_gradient_accumulation_locals_spec.
  pose proof (length_old_grad_vars _ _ _ _ Hspec) as Hold.
  pose proof (length_new_grad_vars _ _ _ _ Hspec) as Hnew.
  pose proof (ls_num _ _ _ _ Hspec) as Hnum.
  split; [done|]. split; [done|].
  split; [apply (length_inter_grad_vars _ _ _ _ Hspec)|].
  split; [done|]. split; [by rewrite Hnum, (ls_out _ _ _ _ Hspec)|].
  split; [apply (marker_found _ _ _ _ Hspec)|].
  split; [rewrite (ls_new _ _ _ _ Hspec); apply NoDup_fresh_vars|].
  exists (add_eqns (old_grad_vars l) (out_grad_vars l) (new_grad_vars l)).
  eexists. split.
  { rewrite (ls_combined_jaxpr _ _ _ _ Hspec). simpl.
    rewrite (ls_combined_eqns _ _ _ _ Hspec). reflexivity. }
  split; [apply region_marker_params|].
  split; [apply region_marker_params|].
  split; [rewrite length_add_eqns; lia|].
  intros i Hi.
  destruct (lookup_lt_is_Some_2 (old_grad_vars l) i) as [old Ho]; [lia|].
  destruct (lookup_lt_is_Some_2 (out_grad_vars l) i) as [out Hg]; [lia|].
  destruct (lookup_lt_is_Some_2 (new_grad_vars l) i) as [new Hn]; [lia|].
  exists old, out, new. repeat split; try done.
  by apply add_eqns_lookup.
Qed.

(** The operations strictly between the start marker and the end marker
    of the apply-grad region. *)
Definition apply_region (l : Locals) : list JaxprEqn :=
  take (num_grads l + length (apply_grad_eqns l))
    (drop (marker_pos l + num_grads l + 3) (combined_eqns l)).

(** C2, as the specification words it: in the apply-grad region the
    operations of apply_grad come first and the divisions follow them. *)
Definition divides_follow_apply_eqns (num_micro_batches : Z) (l : Locals)
  : Prop :=
  apply_region l = apply_grad_eqns l ++ div_eqns num_micro_batches l.

Lemma combined_eqns_apply_region raw_jaxpr num_micro_batches l :
  locals_spec APPLY_GRAD_MARKER_SUFFIX raw_jaxpr num_micro_batches l →
  combined_eqns l =
    take (marker_pos l + num_grads l + 2) (combined_eqns l)
      ++ [apply_start_marker APPLY_GRAD_MARKER_SUFFIX l]
      ++ (div_eqns num_micro_batches l ++ apply_grad_eqns l)
      ++ [apply_end_marker APPLY_GRAD_MARKER_SUFFIX raw_jaxpr l]
  ∧ apply_region l = div_eqns num_micro_batches l ++ apply_grad_eqns l.
Proof.
  intros Hspec.
  assert (length (div_eqns num_micro_batches l) = num_grads l) as Hdivs.
  { unfold div_eqns. rewrite length_fmap, length_take, length_reverse.
    pose proof (ls_reduction _ _ _ _ Hspec). lia. }
  set (pre := [accumulate_start_marker l] ++ compute_grad_eqns l
         ++ add_eqns (old_grad_vars l) (out_grad_vars l) (new_grad_vars l)
         ++ [accumulate_end_marker l]).
  assert (length pre = marker_pos l + num_grads l + 2) as Hpre.
  { unfold pre. rewrite !length_app, length_add_eqns; simpl.
    - rewrite (ls_compute _ _ _ _ Hspec), length_take.
      destruct (marker_found _ _ _ _ Hspec) as (Hm%lookup_lt_Some & _).
      rewrite <- (ls_num _ _ _ _ Hspec). lia.
    - rewrite (length_old_grad_vars _ _ _ _ Hspec).
      apply (ls_num _ _ _ _ Hspec).
    - rewrite (length_new_grad_vars _ _ _ _ Hspec).
      apply (ls_num _ _ _ _ Hspec). }
  assert (combined_eqns l =
            pre ++ [apply_start_marker APPLY_GRAD_MARKER_SUFFIX l]
              ++ (div_eqns num_micro_batches l ++ apply_grad_eqns l)
              ++ [apply_end_marker APPLY_GRAD_MARKER_SUFFIX raw_jaxpr l])
    as Hcombined.
  { rewrite (ls_combined_eqns _ _ _ _ Hspec). unfold pre.
    by rewrite <- !app_assoc. }
  split.
  - rewrite Hcombined at 2. rewrite <- Hpre, take_app_length.
    exact Hcombined.
  - unfold apply_region. rewrite Hcombined.
    replace (marker_pos l + num_grads l + 3) with (length pre + 1) by lia.
    rewrite <- drop_drop, drop_app_length. simpl. rewrite drop_0.
    replace (num_grads l + length (apply_grad_eqns l)) with
      (length (div_eqns num_micro_batches l ++ apply_grad_eqns l))
      by (rewrite length_app; lia).
    by rewrite take_app_length.
Qed.

(** C2, as the code has it: in the apply-grad region the [num_grads]
    divisions come first, right after the start marker, and the operations
    of apply_grad follow them unchanged, up to the end marker.  The [i]-th
    division reads the [i]-th entry from the end of the region's
    [old_invars] (the [i]-th gradient from the end, when the marker has as
    many outputs as inputs) and the literal [num_micro_batches], a scalar
    of the gradient's element type, and writes the variable it read. *)
Theorem divides_precede_apply_eqns raw_jaxpr num_micro_batches l :
  add_gradient_accumulation_locals APPLY_GRAD_MARKER_SUFFIX raw_jaxpr
    num_micro_batches = Ok l →
  eqns (jaxpr (combined_jaxpr l)) =
    take (marker_pos l + num_grads l + 2) (combined_eqns l)
      ++ [apply_start_marker APPLY_GRAD_MARKER_SUFFIX l]
      ++ apply_region l
      ++ [apply_end_marker APPLY_GRAD_MARKER_SUFFIX raw_jaxpr l]
  ∧ apply_region l = div_eqns num_micro_batches l ++ apply_grad_eqns l
  ∧ apply_grad_eqns l = drop (marker_pos l + 1) (eqns (jaxpr raw_jaxpr))
  ∧ length (div_eqns num_micro_batches l) = num_grads l
  ∧ ∀ i, i < num_grads l →
      ∃ tmp_var,
        apply_old_invars l !! (length (apply_old_invars l) - (i + 1))
          = Some tmp_var
        ∧ div_eqns num_micro_batches l !! i =
            Some (new_jaxpr_eqn
                    [AVar tmp_var;
                     ALit (mkLiteral num_micro_batches
                             (mkAval (dtype (aval tmp_var)) []))]
                    [tmp_var] div_p ∅)
        ∧ (length (in_grad_vars l) = num_grads l →
           in_grad_vars l !! (num_grads l - (i + 1)) = Some tmp_var).
Proof.
  intros [Hspec _]%add_gradient_accumulation_locals_spec.
  destruct (combined_eqns_apply_region _ _ _ Hspec) as [Hcombined Hregion].
  pose proof (ls_reduction _ _ _ _ Hspec) as Hn.
  split.
  { rewrite (ls_combined_jaxpr _ _ _ _ Hspec). simpl.
    by rewrite Hregion. }
  split; [done|]. split; [apply (ls_apply _ _ _ _ Hspec)|].
  split.
  { unfold div_eqns. rewrite length_fmap, length_take, length_reverse. lia. }
  intros i Hi.
  destruct (lookup_lt_is_Some_2 (apply_old_invars l)
              (length (apply_old_invars l) - (i + 1))) as [t Ht]; [lia|].
  exists t. split; [done|]. split.
  - unfold div_eqns.
    rewrite list_lookup_fmap, lookup_take_lt, reverse_lookup by lia.
    replace (length (apply_old_invars l) - S i) with
      (length (apply_old_invars l) - (i + 1)) by lia.
    by rewrite Ht.
  - intros Hin. rewrite (ls_apply_old _ _ _ _ Hspec) in Ht.
    rewrite lookup_app_r in Ht by (rewrite length_app; lia).
    rewrite <- Ht. f_equal. rewrite length_app. lia.
Qed.
(** C3, as the specification words it: the inputs of the combined
    program end with [old_grad_vars] themselves, and the table maps
    program inputs only. *)
Definition inputs_end_with_old_grad_vars raw_jaxpr (l : Locals) : Prop :=
  invars (jaxpr (combined_jaxpr l)) =
    (dict_get_default (global_invar_substitute l)
       <$> invars (jaxpr raw_jaxpr)) ++ old_grad_vars l
  ∧ outvars (jaxpr (combined_jaxpr l)) = AVar <$> new_outvars l
  ∧ constvars (jaxpr (combined_jaxpr l)) = constvars (jaxpr raw_jaxpr)
  ∧ consts (combined_jaxpr l) = consts raw_jaxpr
  ∧ ∀ k v, global_invar_substitute l !! k = Some v →
           k ∈ invars (jaxpr raw_jaxpr).

(** C3, as the code has it: the inputs of the combined program are the
    program's inputs, each replaced by its entry in the table when it has
    one, followed by the renamed copies of [old_grad_vars], which are
    the last [num_grads] inputs of the accumulate-grad region's start
    marker and differ from [old_grad_vars]; its outputs are [new_outvars];
    its constants are the program's.  The table maps program inputs and
    the variables of [old_grad_vars], each to a minted variable of the
    same abstract value. *)
Theorem combined_program_interface raw_jaxpr num_micro_batches l :
  add_gradient_accumulation_locals APPLY_GRAD_MARKER_SUFFIX raw_jaxpr
    num_micro_batches = Ok l →
  let renamed_old_grad_vars :=
    drop (length (filter_used_vars (invars (jaxpr raw_jaxpr))
                    (compute_grad_eqns l)))
         (accumulate_grad_invars l) in
  invars (jaxpr (combined_jaxpr l)) =
    (dict_get_default (global_invar_substitute l)
       <$> invars (jaxpr raw_jaxpr)) ++ renamed_old_grad_vars
  ∧ renamed_old_grad_vars =
      dict_get_default (global_invar_substitute l) <$> old_grad_vars l
  ∧ length renamed_old_grad_vars = num_grads l
  ∧ (∀ v, v ∈ renamed_old_grad_vars → v ∉ old_grad_vars l)
  ∧ outvars (jaxpr (combined_jaxpr l)) = AVar <$> new_outvars l
  ∧ constvars (jaxpr (combined_jaxpr l)) = constvars (jaxpr raw_jaxpr)
  ∧ consts (combined_jaxpr l) = consts raw_jaxpr
  ∧ (∀ k v, global_invar_substitute l !! k = Some v →
       (k ∈ invars (jaxpr raw_jaxpr) ∨ k ∈ old_grad_vars l)
       ∧ v ∈ minted (gensym_state l) ∧ aval v = aval k)
  ∧ (∀ k, k ∈ old_grad_vars l → is_Some (global_invar_substitute l !! k)).
Proof.
  intros [Hspec _]%add_gradient_accumulation_locals_spec renamed.
  pose proof (combined_invars _ _ _ _ Hspec) as Hinvars.
  split; [done|]. split.
  { rewrite (ls_combined_jaxpr _ _ _ _ Hspec) in Hinvars. simpl in Hinvars.
    rewrite fmap_app in Hinvars. by apply app_inv_head in Hinvars. }
  split.
  { unfold renamed.
    rewrite length_drop, (length_accumulate_grad_invars _ _ _ _ Hspec). lia. }
  split.
  { intros v Hv Hold.
    destruct (minted_fresh_vars _ _ _ _ Hspec) as (avals & Hm & _).
    pose proof (NoDup_minted _ _ _ _ Hspec) as Hnd. rewrite Hm in Hnd.
    apply NoDup_app in Hnd as (_ & Hdisj & _). apply (Hdisj v Hold).
    rewrite !elem_of_app. right. left.
    eapply elem_of_sublist; [exact Hv | apply sublist_drop]. }
  rewrite (ls_combined_jaxpr _ _ _ _ Hspec). simpl.
  split; [done|]. split; [done|]. split; [done|].
  split; [apply (substitute_entry _ _ _ _ Hspec)|].
  intros k [i Hi]%list_elem_of_lookup.
  rewrite (substitute_old_grad_vars _ _ _ _ Hspec _ _ Hi).
  apply lookup_lt_is_Some_2. apply lookup_lt_Some in Hi.
  rewrite (length_accumulate_grad_invars _ _ _ _ Hspec).
  rewrite (length_old_grad_vars _ _ _ _ Hspec) in Hi. lia.
Qed.

(** The variables occurring in a program, as a binder or as a use. *)
Definition occurring_vars (j : Jaxpr) : list Var :=
  jaxpr_vars j ++ (eqns j ≫= non_literal_invars)
    ++ omap (λ x, match x with AVar v => Some v | ALit _ => None end)
         (outvars j).

(** A closed program: whatever it uses is an input, a constant or the
    output of an equation. *)
Definition closed_jaxpr (j : Jaxpr) : Prop :=
  Forall (λ v, v ∈ jaxpr_vars j) (occurring_vars j).

(** C9: [clone_vars] returns one variable per element of its argument, in
    order and with that element's abstract value, each taken from the
    generator at the next count.  The variables minted by one invocation
    of the rewrite, from a generator seeded with the variables of the
    program, are the lists the function binds, in this order; they are
    pairwise distinct; none is a variable of the program, nor, in a closed
    program, occurs anywhere in it. *)
Theorem minted_variables_fresh :
  (∀ `{HasAval A} (var_list : list A) (g : GensymState),
     let vs := (clone_vars var_list g).1 in
     let g' := (clone_vars var_list g).2 in
     length vs = length var_list
     ∧ aval <$> vs = get_aval <$> var_list
     ∧ count <$> vs = seq (counter g) (length var_list)
     ∧ NoDup vs
     ∧ minted g' = minted g ++ vs
     ∧ counter g' = counter g + length var_list)
  ∧ (∀ raw_jaxpr num_micro_batches l,
       add_gradient_accumulation_locals APPLY_GRAD_MARKER_SUFFIX raw_jaxpr
         num_micro_batches = Ok l →
       (∃ renamed_apply,
          minted (gensym_state l) =
            old_grad_vars l ++ new_grad_vars l ++ accumulate_grad_invars l
              ++ inter_grad_vars l ++ renamed_apply ++ new_outvars l)
       ∧ NoDup (minted (gensym_state l))
       ∧ (∀ v, v ∈ minted (gensym_state l) →
               v ∉ jaxpr_vars (jaxpr raw_jaxpr))
       ∧ (closed_jaxpr (jaxpr raw_jaxpr) →
          ∀ v, v ∈ minted (gensym_state l) →
               v ∉ occurring_vars (jaxpr raw_jaxpr))).
Proof.
  split.
  - intros A HA var_list g vs g'. unfold vs, g'. rewrite clone_vars_eq. simpl.
    rewrite length_fresh_vars, length_fmap, fresh_vars_aval,
      fresh_vars_count, length_fmap.
    repeat split; try done. apply NoDup_fresh_vars.
  - intros raw_jaxpr num_micro_batches l
      [Hspec _]%add_gradient_accumulation_locals_spec.
    split.
    { destruct (minted_fresh_vars _ _ _ _ Hspec) as (avals & Hm & _).
      by eexists. }
    split; [apply (NoDup_minted _ _ _ _ Hspec)|].
    split; [apply (minted_not_in_jaxpr_vars _ _ _ _ Hspec)|].
    intros Hclosed v Hv Hocc. unfold closed_jaxpr in Hclosed.
    rewrite Forall_forall in Hclosed.
    by apply (minted_not_in_jaxpr_vars _ _ _ _ Hspec v Hv), Hclosed.
Qed.

(** C10: for a program in single-assignment form (its inputs, constants
    and equation outputs pairwise distinct) with exactly one gradient
    marker, both index lists returned are strictly increasing and stay
    below the number of inputs of the program, hence off the [num_grads]
    accumulators that end the inputs of the combined program.  The
    function returns whenever, besides, the markers are well formed. *)
Theorem invar_indices_increasing raw_jaxpr num_micro_batches p marker :
  eqns (jaxpr raw_jaxpr) !! p = Some marker → grad_marker marker →
  (∀ q e, eqns (jaxpr raw_jaxpr) !! q = Some e → grad_marker e → q = p) →
  NoDup (jaxpr_vars (jaxpr raw_jaxpr)) →
  (∀ cj i1 i2 n,
     add_gradient_accumulation APPLY_GRAD_MARKER_SUFFIX raw_jaxpr
       num_micro_batches = Ok (cj, i1, i2, n) →
     StronglySorted lt i1 ∧ StronglySorted lt i2
     ∧ Forall (λ i, i < length (invars (jaxpr raw_jaxpr))) i1
     ∧ Forall (λ i, i < length (invars (jaxpr raw_jaxpr))) i2
     ∧ length (invars (jaxpr cj)) = length (invars (jaxpr raw_jaxpr)) + n)
  ∧ (Forall marker_well_formed (eqns (jaxpr raw_jaxpr)) →
     ∃ r, add_gradient_accumulation APPLY_GRAD_MARKER_SUFFIX raw_jaxpr
            num_micro_batches = Ok r).
Proof.
  intros Hp Hmarker Huniq Hssa.
  assert (NoDup (invars (jaxpr raw_jaxpr))) as Hinvars.
  { unfold jaxpr_vars in Hssa. by apply NoDup_app in Hssa as (? & _). }
  split.
  - intros cj i1 i2 n
      (l & Hl & -> & -> & -> & ->)%add_gradient_accumulation_Ok.
    apply add_gradient_accumulation_locals_spec in Hl as (Hspec & Hi1 & Hi2).
    destruct (invar_indices_accumulate_increasing _ _ _ _ Hspec Hinvars _ Hi1)
      as [Hs1 Hb1].
    destruct (invar_indices_apply_increasing _ _ _ _ Hspec Hinvars
                (apply_grad_invar_indices l)) as [Hs2 Hb2]; [|done|].
    { intros v Hv Hin. unfold jaxpr_vars in Hssa.
      apply NoDup_app in Hssa as (_ & Hdisj & _). apply (Hdisj v Hin).
      rewrite elem_of_app. right. apply list_elem_of_bind.
      exists (marker_eqn l). split.
      - by rewrite <- (ls_in _ _ _ _ Hspec).
      - destruct (marker_found _ _ _ _ Hspec) as (Hm & _).
        by eapply list_elem_of_lookup_2. }
    repeat split; try done.
    apply (length_combined_invars _ _ _ _ Hspec).
  - intros Hwf. by eapply add_gradient_accumulation_total.
Qed.
(** C4, as the code has it: with at least one gradient, each index list
    holds the positions, in the combined input list, of the inputs of its
    region but the last [num_grads]; the combined program has the inputs
    of the program and [num_grads] more, and as many outputs as the
    program.  When the inputs of the program are pairwise distinct, the
    accumulate-grad indices are the positions, among them, of the inputs
    that the operations before the marker use (and the apply-grad indices
    those of the inputs that the operations after the marker use, when the
    marker has as many outputs as inputs): for inputs [(o, p, x)] and
    one gradient, the combined program has 4 inputs, and the indices are
    [[0; 1; 2]] when these operations use the three inputs. *)
Theorem invar_indices_exact raw_jaxpr num_micro_batches l :
  add_gradient_accumulation_locals APPLY_GRAD_MARKER_SUFFIX raw_jaxpr
    num_micro_batches = Ok l →
  num_grads l ≠ 0 →
  mapM (index (invars (jaxpr (combined_jaxpr l))))
    (take (length (accumulate_grad_invars l) - num_grads l)
       (accumulate_grad_invars l))
    = Ok (accumulate_grad_invar_indices l)
  ∧ mapM (index (invars (jaxpr (combined_jaxpr l))))
      (take (length (apply_grad_invars l) - num_grads l)
         (apply_grad_invars l))
    = Ok (apply_grad_invar_indices l)
  ∧ length (invars (jaxpr (combined_jaxpr l)))
    = length (invars (jaxpr raw_jaxpr)) + num_grads l
  ∧ length (outvars (jaxpr (combined_jaxpr l)))
    = length (outvars (jaxpr raw_jaxpr))
  ∧ (NoDup (invars (jaxpr raw_jaxpr)) →
     mapM (index (invars (jaxpr raw_jaxpr)))
       (filter_used_vars (invars (jaxpr raw_jaxpr)) (compute_grad_eqns l))
     = Ok (accumulate_grad_invar_indices l))
  ∧ (length (in_grad_vars l) = num_grads l →
     mapM (index (invars (jaxpr raw_jaxpr)))
       (filter_used_vars (invars (jaxpr raw_jaxpr)) (apply_grad_eqns l))
     = Ok (apply_grad_invar_indices l))
  ∧ (∀ o p x,
       invars (jaxpr raw_jaxpr) = [o; p; x] → NoDup [o; p; x] →
       num_grads l = 1 →
       length (invars (jaxpr (combined_jaxpr l))) = 4
       ∧ (Forall (used_by (compute_grad_eqns l)) [o; p; x] →
          accumulate_grad_invar_indices l = [0; 1; 2])).
Proof.
  intros (Hspec & Hi1 & Hi2)%add_gradient_accumulation_locals_spec Hn.
  assert (NoDup (invars (jaxpr raw_jaxpr)) →
          mapM (index (invars (jaxpr raw_jaxpr)))
            (filter_used_vars (invars (jaxpr raw_jaxpr))
               (compute_grad_eqns l))
          = Ok (accumulate_grad_invar_indices l)) as Hpositions.
  { intros Hinvars.
    by rewrite <- (accumulate_indices_eq _ _ _ _ Hspec Hinvars Hn). }
  pose proof (length_combined_invars _ _ _ _ Hspec) as Hlen.
  unfold invar_indices in Hi1, Hi2.
  rewrite slice_until_neg_pos in Hi1, Hi2 by done.
  split; [done|]. split; [done|]. split; [done|]. split.
  { rewrite (ls_combined_jaxpr _ _ _ _ Hspec). simpl.
    destruct (ls_rename _ _ _ _ Hspec) as (g & _ & -> & _).
    by rewrite !length_fmap, length_fresh_vars, length_fmap. }
  split; [done|]. split.
  { intros Harity. rewrite <- Hi2.
    rewrite (length_apply_grad_invars _ _ _ _ Hspec), Harity.
    replace (_ + num_grads l - num_grads l) with
      (length (filter_used_vars (invars (jaxpr raw_jaxpr))
                 (apply_grad_eqns l))) by lia.
    rewrite (apply_indices_eq _ _ _ _ Hspec) by done.
    by rewrite firstn_all. }
  intros o p x Hopx Hdistinct Hone. rewrite Hlen, Hopx, Hone.
  split; [done|]. intros Hused.
  rewrite Hopx in Hpositions. specialize (Hpositions Hdistinct).
  rewrite filter_used_vars_filter in Hpositions.
  apply Forall_cons in Hused as [Huo Hused].
  apply Forall_cons in Hused as [Hup Hused].
  apply Forall_cons in Hused as [Hux _].
  rewrite (filter_cons_True _ o), (filter_cons_True _ p),
    (filter_cons_True _ x), filter_nil in Hpositions by done.
  assert (mapM (index [o; p; x]) [o; p; x] = Ok [0; 1; 2]) as Hindex.
  { apply mapM_Ok.
    repeat constructor; by apply index_NoDup. }
  rewrite Hindex in Hpositions. by injection Hpositions as <-.
Qed.

End claims.

(** * Worked programs *)

(** [raw_jaxpr(opt_state, param, batch) -> [new_opt_state, new_param]]
    with scalar arguments: the gradient [g] is computed from [param] and
    [batch], marked, and applied to [opt_state] and [param]. *)
Definition f32 : ShapedArray := mkAval "float32" [].
Definition var_o : Var := mkVar 0 f32.
Definition var_p : Var := mkVar 1 f32.
Definition var_x : Var := mkVar 2 f32.
Definition var_g : Var := mkVar 3 f32.
Definition var_g' : Var := mkVar 4 f32.
Definition var_new_o : Var := mkVar 5 f32.
Definition var_new_p : Var := mkVar 6 f32.

Definition compute_grad_eqn : JaxprEqn :=
  new_jaxpr_eqn [AVar var_p; AVar var_x] [var_g] (other_p "loss_grad") ∅.

Definition example_marker : JaxprEqn :=
  new_jaxpr_eqn [AVar var_g] [var_g'] pipeline_p (marker_params "grad" "grad").

Definition apply_grad_eqn : JaxprEqn :=
  new_jaxpr_eqn [AVar var_o; AVar var_p; AVar var_g'] [var_new_o; var_new_p]
    (other_p "sgd") ∅.

Definition example_jaxpr : ClosedJaxpr :=
  mkClosedJaxpr
    (mkJaxpr [] [var_o; var_p; var_x] [AVar var_new_o; AVar var_new_p]
       [compute_grad_eqn; example_marker; apply_grad_eqn])
    [].

(** The same program with a gradient computed from the three inputs. *)
Definition example_all_used : ClosedJaxpr :=
  mkClosedJaxpr
    (mkJaxpr [] [var_o; var_p; var_x] [AVar var_new_o; AVar var_new_p]
       [new_jaxpr_eqn [AVar var_o; AVar var_p; AVar var_x] [var_g]
          (other_p "loss_grad") ∅;
        example_marker; apply_grad_eqn])
    [].

(** A program whose gradient marker takes no gradient at all. *)
Definition example_no_grads : ClosedJaxpr :=
  mkClosedJaxpr
    (mkJaxpr [] [var_o; var_p; var_x] [AVar var_new_o; AVar var_new_p]
       [compute_grad_eqn;
        new_jaxpr_eqn [] [] pipeline_p (marker_params "grad" "grad");
        new_jaxpr_eqn [AVar var_o; AVar var_p] [var_new_o; var_new_p]
          (other_p "sgd") ∅])
    [].

(** A program without gradient marker. *)
Definition example_no_marker : ClosedJaxpr :=
  mkClosedJaxpr
    (mkJaxpr [] [var_o; var_p; var_x] [AVar var_new_o; AVar var_new_p]
       [compute_grad_eqn; apply_grad_eqn])
    [].

Lemma example_marker_grad : grad_marker example_marker.
Proof. split; reflexivity. Qed.

Lemma example_marker_unique q e :
  eqns (jaxpr example_jaxpr) !! q = Some e → grad_marker e → q = 1.
Proof.
  destruct q as [|[|[|q]]]; simpl; intros He [Hprim _]; try done;
    by injection He as <-.
Qed.

Lemma example_markers_well_formed :
  Forall marker_well_formed (eqns (jaxpr example_jaxpr)).
Proof. apply (bool_decide_unpack _). by vm_compute. Qed.

Lemma example_single_assignment : NoDup (jaxpr_vars (jaxpr example_jaxpr)).
Proof. apply (bool_decide_unpack _). by vm_compute. Qed.

Lemma example_invars_NoDup : NoDup (invars (jaxpr example_jaxpr)).
Proof. apply (bool_decide_unpack _). by vm_compute. Qed.

Lemma example_closed : closed_jaxpr (jaxpr example_jaxpr).
Proof. apply (bool_decide_unpack _). by vm_compute. Qed.

(** A computation that evaluates to [Ok a] with [P a]. *)
Lemma Ok_eval {A} (r : Result A) (P : A → Prop) :
  match r with Ok a => P a | Raise _ => False end → ∃ a, r = Ok a ∧ P a.
Proof. destruct r as [a|exn]; [by exists a | done]. Qed.

(** The values bound on the worked program. *)
Lemma example_locals :
  ∃ l, add_gradient_accumulation_locals "apply_grad" example_jaxpr 4 = Ok l
       ∧ num_grads l = 1
       ∧ old_grad_vars l = [mkVar 7 f32]
       ∧ accumulate_grad_invars l = [mkVar 9 f32; mkVar 10 f32; mkVar 11 f32]
       ∧ compute_grad_eqns l = [compute_grad_eqn]
       ∧ apply_grad_eqns l = [apply_grad_eqn]
       ∧ apply_region l = [div_eqn 4 var_g'; apply_grad_eqn]
       ∧ invars (jaxpr (combined_jaxpr l))
           = [mkVar 13 f32; mkVar 9 f32; mkVar 10 f32; mkVar 11 f32]
       ∧ length (minted (gensym_state l)) = 9.
Proof.
  apply Ok_eval. vm_compute.
  split; [reflexivity|]. split; [reflexivity|]. split; [reflexivity|].
  split; [reflexivity|]. split; [reflexivity|]. split; [reflexivity|].
  split; reflexivity.
Qed.

(** Witness of C1 on the worked program. *)
Lemma operations_split_at_marker_witness :
  ∃ cj i1 i2 n start_accumulate adds end_accumulate start_apply divs
      end_apply,
    add_gradient_accumulation "apply_grad" example_jaxpr 4
      = Ok (cj, i1, i2, n)
    ∧ eqns (jaxpr cj) =
        [start_accumulate; compute_grad_eqn] ++ adds
          ++ [end_accumulate; start_apply] ++ divs
          ++ [apply_grad_eqn; end_apply]
    ∧ length adds = n ∧ length divs = n.
Proof.
  destruct (operations_split_at_marker "apply_grad" example_jaxpr 4 1
              example_marker eq_refl example_marker_grad
              example_marker_unique) as [Hsplit Hreturns].
  destruct (Hreturns example_markers_well_formed example_invars_NoDup)
    as [[[[cj i1] i2] n] Hr].
  destruct (Hsplit cj i1 i2 n Hr)
    as (s1 & adds & e1 & s2 & divs & e2 & Heqns & _ & _ & _ & _ & Hadds
        & _ & Hdivs & _).
  exists cj, i1, i2, n, s1, adds, e1, s2, divs, e2.
  split; [exact Hr|]. split; [exact Heqns|]. split; [exact Hadds|].
  exact Hdivs.
Defined.

(** Witness of C5 on the program without marker. *)
Lemma missing_marker_raises_witness :
  add_gradient_accumulation "apply_grad" example_no_marker 4
  = Raise (AssertionError "Must have exactly one gradient marker").
Proof.
  destruct (missing_marker_raises "apply_grad" example_no_marker 4)
    as [_ Hassert]; [|apply Hassert].
  - intros eqn Heqn [Hprim _]. simpl in Heqn.
    apply elem_of_cons in Heqn as [->|Heqn]; [done|].
    apply elem_of_cons in Heqn as [->|Heqn]; [done|].
    by apply elem_of_nil in Heqn.
  - apply (bool_decide_unpack _). by vm_compute.
Defined.

(** Witness of C6 on the worked program: one gradient, one addition. *)
Lemma accumulation_adds_witness :
  ∃ l adds rest,
    add_gradient_accumulation_locals "apply_grad" example_jaxpr 4 = Ok l
    ∧ num_grads l = 1
    ∧ eqns (jaxpr (combined_jaxpr l)) =
        [accumulate_start_marker l] ++ compute_grad_eqns l ++ adds
          ++ [accumulate_end_marker l] ++ rest
    ∧ length adds = 1.
Proof.
  destruct example_locals as (l & Hl & Hone & _).
  destruct (accumulation_adds "apply_grad" example_jaxpr 4 l Hl)
    as (_ & _ & _ & _ & Hn & _ & _ & adds & rest & Heqns & _ & _ & Hadds & _).
  exists l, adds, rest.
  split; [exact Hl|]. split; [exact Hone|]. split; [exact Heqns|].
  by rewrite Hadds.
Defined.

(** Counterexample to C2 as worded: on the worked program the division
    precedes the operation of apply_grad. *)
Lemma divides_follow_apply_eqns_counterexample :
  ∃ l, add_gradient_accumulation_locals "apply_grad" example_jaxpr 4 = Ok l
       ∧ ¬ divides_follow_apply_eqns 4 l.
Proof.
  destruct example_locals
    as (l & Hl & _ & _ & _ & _ & Happly & Hregion & _).
  exists l. split; [exact Hl|].
  unfold divides_follow_apply_eqns. rewrite Hregion, Happly. simpl.
  intros Heq. injection Heq as Heq _. discriminate Heq.
Qed.

(** Witness of C2 as amended. *)
Lemma divides_precede_apply_eqns_witness :
  ∃ l, add_gradient_accumulation_locals "apply_grad" example_jaxpr 4 = Ok l
       ∧ apply_region l = div_eqns 4 l ++ apply_grad_eqns l
       ∧ apply_region l = [div_eqn 4 var_g'; apply_grad_eqn].
Proof.
  destruct example_locals as (l & Hl & _ & _ & _ & _ & _ & Hops & _).
  exists l. split; [exact Hl|].
  destruct (divides_precede_apply_eqns "apply_grad" example_jaxpr 4 l Hl)
    as (_ & Hregion & _).
  split; [exact Hregion | exact Hops].
Defined.

(** Counterexample to C3 as worded: on the worked program the last input
    of the combined program is the renamed copy of the accumulator, not
    the accumulator. *)
Lemma inputs_end_with_old_grad_vars_counterexample :
  ∃ l, add_gradient_accumulation_locals "apply_grad" example_jaxpr 4 = Ok l
       ∧ ¬ inputs_end_with_old_grad_vars example_jaxpr l.
Proof.
  destruct example_locals
    as (l & Hl & _ & Hold & _ & _ & _ & _ & Hinvars & _).
  exists l. split; [exact Hl|].
  intros [Heq _]. rewrite Hinvars, Hold in Heq.
  apply (f_equal (λ vs, vs !! 3)) in Heq. rewrite lookup_app_r in Heq.
  - rewrite length_fmap in Heq. simpl in Heq. discriminate Heq.
  - rewrite length_fmap. simpl. lia.
Qed.

(** Witness of C3 as amended. *)
Lemma combined_program_interface_witness :
  ∃ l, add_gradient_accumulation_locals "apply_grad" example_jaxpr 4 = Ok l
       ∧ invars (jaxpr (combined_jaxpr l)) =
           (dict_get_default (global_invar_substitute l)
              <$> invars (jaxpr example_jaxpr))
           ++ drop 2 (accumulate_grad_invars l)
       ∧ invars (jaxpr (combined_jaxpr l))
           = [mkVar 13 f32; mkVar 9 f32; mkVar 10 f32; mkVar 11 f32].
Proof.
  destruct example_locals
    as (l & Hl & _ & _ & _ & Hcompute & _ & _ & Hcombined & _).
  exists l. split; [exact Hl|].
  destruct (combined_program_interface "apply_grad" example_jaxpr 4 l Hl)
    as (Hinvars & _).
  split; [|exact Hcombined]. rewrite Hinvars, Hcompute. reflexivity.
Defined.

(** With a gradient marker that takes no gradient,
    [accumulate_grad_invars[:-0]] is the empty list: both index lists are
    empty, although the accumulate-grad region has two inputs, at
    positions 1 and 2 of the combined input list, and the apply-grad
    region two, at positions 0 and 1, none of them an accumulator. *)
Lemma no_grads_indices_empty :
  ∃ l, add_gradient_accumulation_locals "apply_grad" example_no_grads 4
         = Ok l
       ∧ num_grads l = 0
       ∧ accumulate_grad_invar_indices l = []
       ∧ apply_grad_invar_indices l = []
       ∧ mapM (index (invars (jaxpr (combined_jaxpr l))))
           (take (length (accumulate_grad_invars l) - num_grads l)
              (accumulate_grad_invars l)) = Ok [1; 2]
       ∧ mapM (index (invars (jaxpr (combined_jaxpr l))))
           (take (length (apply_grad_invars l) - num_grads l)
              (apply_grad_invars l)) = Ok [0; 1].
Proof.
  apply Ok_eval. vm_compute.
  split; [reflexivity|]. split; [reflexivity|]. split; [reflexivity|].
  split; reflexivity.
Qed.

(** Counterexample to the scenario of C4 as worded: the worked program
    has inputs [(o, p, x)] and one gradient marker taking [g], and with
    four micro-batches its accumulate-grad indices are [[1; 2]], the
    optimizer state not being used to compute the gradient. *)
Lemma scenario_indices_counterexample :
  ∃ cj i1 i2 n,
    invars (jaxpr example_jaxpr) = [var_o; var_p; var_x]
    ∧ eqns (jaxpr example_jaxpr) !! 1 = Some example_marker
    ∧ eqn_invars example_marker = [AVar var_g]
    ∧ add_gradient_accumulation "apply_grad" example_jaxpr 4
        = Ok (cj, i1, i2, n)
    ∧ i1 = [1; 2] ∧ i1 ≠ [0; 1; 2].
Proof.
  eexists _, _, _, _. split; [reflexivity|]. split; [reflexivity|].
  split; [reflexivity|]. split; [vm_compute; reflexivity|].
  split; [reflexivity | discriminate].
Qed.

(** The scenario when the three inputs are used to compute the one
    gradient, and when the optimizer state is not. *)
Example scenario_all_used :
  ∃ cj, add_gradient_accumulation "apply_grad" example_all_used 4
          = Ok (cj, [0; 1; 2], [0; 1], 1).
Proof. eexists. vm_compute. reflexivity. Qed.

Example scenario_opt_state_unused :
  ∃ cj, add_gradient_accumulation "apply_grad" example_jaxpr 4
          = Ok (cj, [1; 2], [0; 1], 1).
Proof. eexists. vm_compute. reflexivity. Qed.

(** Witness of C4 as amended, on the program that uses its three inputs
    to compute the gradient. *)
Lemma invar_indices_exact_witness :
  ∃ l, add_gradient_accumulation_locals "apply_grad" example_all_used 4
         = Ok l
       ∧ length (invars (jaxpr (combined_jaxpr l))) = 4
       ∧ accumulate_grad_invar_indices l = [0; 1; 2].
Proof.
  assert (∃ l, add_gradient_accumulation_locals "apply_grad"
                 example_all_used 4 = Ok l
               ∧ num_grads l = 1
               ∧ Forall (λ v, bool_decide (used_by (compute_grad_eqns l) v))
                   [var_o; var_p; var_x])
    as (l & Hl & Hone & Hused).
  { apply Ok_eval. vm_compute. split; [reflexivity|].
    repeat constructor. }
  exists l. split; [exact Hl|].
  destruct (invar_indices_exact "apply_grad" example_all_used 4 l Hl)
    as (_ & _ & _ & _ & _ & _ & Hscenario); [by rewrite Hone|].
  destruct (Hscenario var_o var_p var_x eq_refl example_invars_NoDup Hone)
    as [Hlen Hindices].
  split; [exact Hlen|]. apply Hindices.
  eapply Forall_impl; [exact Hused|]. intros v. apply bool_decide_unpack.
Defined.

(** Witness of C8: of three candidates, the one the operation uses. *)
Lemma filter_used_vars_exact_witness :
  filter_used_vars [var_o; var_g; var_x]
    [new_jaxpr_eqn [AVar var_g; ALit (mkLiteral 2 f32)] [var_g']
       (other_p "mul") ∅]
  = [var_g].
Proof.
  set (ops := [new_jaxpr_eqn [AVar var_g; ALit (mkLiteral 2 f32)] [var_g']
                 (other_p "mul") ∅]).
  destruct (filter_used_vars_exact [var_o; var_g; var_x] ops)
    as (_ & _ & _ & _ & _ & Hone).
  apply Hone; apply (bool_decide_unpack _); by vm_compute.
Defined.

(** Witness of C9 on the worked program, which is closed. *)
Lemma minted_variables_fresh_witness :
  ∃ l, add_gradient_accumulation_locals "apply_grad" example_jaxpr 4 = Ok l
       ∧ length (minted (gensym_state l)) = 9
       ∧ NoDup (minted (gensym_state l))
       ∧ ∀ v, v ∈ minted (gensym_state l) →
              v ∉ occurring_vars (jaxpr example_jaxpr).
Proof.
  destruct example_locals as (l & Hl & _ & _ & _ & _ & _ & _ & _ & Hlen).
  exists l. split; [exact Hl|].
  destruct (minted_variables_fresh "apply_grad") as [_ Hfresh].
  destruct (Hfresh example_jaxpr 4%Z l Hl) as (_ & Hnd & _ & Hclosed).
  split; [exact Hlen|]. split; [exact Hnd|]. exact (Hclosed example_closed).
Defined.

(** Witness of C10 on the worked program. *)
Lemma invar_indices_increasing_witness :
  ∃ cj i1 i2 n,
    add_gradient_accumulation "apply_grad" example_jaxpr 4
      = Ok (cj, i1, i2, n)
    ∧ StronglySorted lt i1 ∧ StronglySorted lt i2
    ∧ Forall (λ i, i < 3) i1 ∧ Forall (λ i, i < 3) i2.
Proof.
  destruct (invar_indices_increasing "apply_grad" example_jaxpr 4 1
              example_marker eq_refl example_marker_grad
              example_marker_unique example_single_assignment)
    as [Hincreasing Hreturns].
  destruct (Hreturns example_markers_well_formed) as [[[[cj i1] i2] n] Hr].
  destruct (Hincreasing cj i1 i2 n Hr) as (H1 & H2 & H3 & H4 & _).
  exists cj, i1, i2, n. repeat split; done.
Defined.

(** * Further properties *)

(** ** [filter_used_vars] over concatenations *)

Lemma used_by_app es1 es2 v :
  used_by (es1 ++ es2) v ↔ used_by es1 v ∨ used_by es2 v.
Proof.
  unfold used_by. split.
  - intros (eqn & [He|He]%elem_of_app & Hv); [left | right]; eauto.
  - intros [(eqn & He & Hv)|(eqn & He & Hv)]; exists eqn;
      (split; [apply elem_of_app; auto | done]).
Qed.

(** X1: [filter_used_vars] is a filter of its first argument: it
    distributes over the concatenation of candidates (a candidate listed
    twice is kept twice), it returns nothing without candidates or without
    operations, filtering twice is filtering once, two filters commute, and
    the variables kept for the concatenation of two lists of operations are
    those kept for either, the ones kept for the first list forming a
    sublist. *)
Theorem filter_used_vars_compose (c1 c2 : list Var)
    (ops1 ops2 : list JaxprEqn) :
  filter_used_vars (c1 ++ c2) ops1
    = filter_used_vars c1 ops1 ++ filter_used_vars c2 ops1
  ∧ filter_used_vars c1 [] = []
  ∧ filter_used_vars [] ops1 = []
  ∧ filter_used_vars (filter_used_vars c1 ops1) ops1
    = filter_used_vars c1 ops1
  ∧ filter_used_vars (filter_used_vars c1 ops1) ops2
    = filter_used_vars (filter_used_vars c1 ops2) ops1
  ∧ (∀ v, v ∈ filter_used_vars c1 (ops1 ++ ops2)
          ↔ v ∈ filter_used_vars c1 ops1 ∨ v ∈ filter_used_vars c1 ops2)
  ∧ sublist (filter_used_vars c1 ops1) (filter_used_vars c1 (ops1 ++ ops2)).
Proof.
  split; [unfold filter_used_vars; apply filter_app|].
  split.
  { rewrite filter_used_vars_filter. induction c1 as [|v c1 IH]; [done|].
    rewrite filter_cons_False; [done|]. intros (eqn & He & _).
    by apply elem_of_nil in He. }
  split; [done|].
  split.
  { rewrite !filter_used_vars_filter.
    induction c1 as [|v c1 IH]; [done|]. rewrite filter_cons.
    case_decide; [|done]. rewrite filter_cons_True by done. by rewrite IH. }
  split.
  { rewrite !filter_used_vars_filter.
    induction c1 as [|v c1 IH]; [done|]. rewrite !(filter_cons _ v).
    repeat case_decide; rewrite ?filter_cons_True, ?filter_cons_False by done;
      by rewrite IH. }
  split.
  { intros v. rewrite !elem_of_filter_used_vars, used_by_app. tauto. }
  rewrite !filter_used_vars_filter.
  induction c1 as [|v c1 IH]; [done|]. rewrite !(filter_cons _ v).
  destruct (decide (used_by ops1 v)) as [Hv|Hv].
  - rewrite decide_True by (apply used_by_app; by left). by constructor.
  - case_decide; [by constructor | done].
Qed.

(** ** The gradient marker in the combined program *)

Lemma is_grad_marker_Ok_has_mark_type eqn b :
  is_grad_marker eqn = Ok b → has_mark_type eqn.
Proof.
  unfold is_grad_marker, has_mark_type. intros Hb Hp. rewrite Hp in Hb.
  by destruct (params eqn !! "mark_type").
Qed.

Lemma find_grad_marker_Some_has_mark_type es pos p e :
  find_grad_marker es pos = Ok (Some (p, e)) →
  Forall has_mark_type (take (S (p - pos)) es).
Proof.
  revert pos. induction es as [|e0 es IH]; intros pos; simpl; [done|].
  intros (b & Hb & Hrest)%bind_Ok.
  apply is_grad_marker_Ok_has_mark_type in Hb as Hwf. destruct b.
  - injection Hrest as <- <-. rewrite Nat.sub_diag. simpl.
    rewrite take_0. by constructor.
  - constructor; [done|].
    pose proof (find_grad_marker_Some _ _ _ _ Hrest) as (i & -> & _).
    apply IH in Hrest.
    by replace (S pos + i - pos) with (S (S pos + i - S pos)) by lia.
Qed.

Lemma find_grad_marker_prefix es pos i e :
  es !! i = Some e → grad_marker e →
  (∀ k e', k < i → es !! k = Some e' → has_mark_type e' ∧ ¬ grad_marker e') →
  find_grad_marker es pos = Ok (Some (pos + i, e)).
Proof.
  revert pos i. induction es as [|e0 es IH]; intros pos i Hi Hg Hlt; [done|].
  simpl. destruct i as [|i]; simpl in Hi.
  - injection Hi as ->. apply is_grad_marker_true in Hg. rewrite Hg. simpl.
    by rewrite Nat.add_0_r.
  - destruct (Hlt 0 e0) as [Hwf Hno]; [lia | done |].
    rewrite (is_grad_marker_total _ Hwf). simpl.
    rewrite bool_decide_eq_false_2 by done.
    rewrite (IH (S pos) i); [do 3 f_equal; lia | done..|].
    intros k e' Hk He'. apply (Hlt (S k)); [lia | done].
Qed.

Lemma find_grad_marker_KeyError es pos k e :
  es !! k = Some e → primitive e = pipeline_p →
  params e !! "mark_type" = None →
  (∀ j e', j < k → es !! j = Some e' → has_mark_type e' ∧ ¬ grad_marker e') →
  find_grad_marker es pos = Raise (KeyError "mark_type").
Proof.
  revert pos k. induction es as [|e0 es IH]; intros pos k Hk Hp Hm Hlt;
    [done|].
  simpl. destruct k as [|k]; simpl in Hk.
  - injection Hk as ->. unfold is_grad_marker. by rewrite Hp, Hm.
  - destruct (Hlt 0 e0) as [Hwf Hno]; [lia | done |].
    rewrite (is_grad_marker_total _ Hwf). simpl.
    rewrite bool_decide_eq_false_2 by done.
    apply (IH (S pos) k); [done..|].
    intros j e' Hj He'. apply (Hlt (S j)); [lia | done].
Qed.

Lemma marker_params_not_grad ins outs mark_type name :
  mark_type ≠ "grad" →
  ¬ grad_marker
      (new_jaxpr_eqn ins outs pipeline_p (marker_params mark_type name)).
Proof.
  intros Hne [_ Hg].
  destruct (region_marker_params ins outs mark_type name) as (_ & Ht & _).
  congruence.
Qed.

Section marker_facts.
Variable APPLY_GRAD_MARKER_SUFFIX : string.
Context (raw_jaxpr : ClosedJaxpr) (num_micro_batches : Z) (l : Locals).
Hypothesis Hspec :
  locals_spec APPLY_GRAD_MARKER_SUFFIX raw_jaxpr num_micro_batches l.

Lemma elem_of_combined_eqns e :
  e ∈ eqns (jaxpr (combined_jaxpr l)) ↔
  e = accumulate_start_marker l ∨ e ∈ compute_grad_eqns l
  ∨ e ∈ add_eqns (old_grad_vars l) (out_grad_vars l) (new_grad_vars l)
  ∨ e = accumulate_end_marker l
  ∨ e = apply_start_marker APPLY_GRAD_MARKER_SUFFIX l
  ∨ e ∈ div_eqns num_micro_batches l ∨ e ∈ apply_grad_eqns l
  ∨ e = apply_end_marker APPLY_GRAD_MARKER_SUFFIX raw_jaxpr l.
Proof.
  rewrite (ls_combined_jaxpr _ _ _ _ Hspec). simpl.
  rewrite (ls_combined_eqns _ _ _ _ Hspec).
  by rewrite !elem_of_app, !list_elem_of_singleton.
Qed.

Lemma compute_grad_eqns_not_grad e :
  e ∈ compute_grad_eqns l → ¬ grad_marker e.
Proof.
  rewrite (ls_compute _ _ _ _ Hspec).
  intros (k & Hk)%list_elem_of_lookup.
  apply lookup_take_Some in Hk as [Hk Hlt].
  destruct (marker_found _ _ _ _ Hspec) as (_ & _ & Hfirst). by eapply Hfirst.
Qed.

Lemma compute_grad_eqns_has_mark_type :
  Forall has_mark_type (compute_grad_eqns l).
Proof.
  rewrite (ls_compute _ _ _ _ Hspec).
  pose proof (find_grad_marker_Some_has_mark_type _ _ _ _
                (ls_find _ _ _ _ Hspec)) as Hwf.
  rewrite Nat.sub_0_r in Hwf.
  rewrite Forall_forall in Hwf. apply Forall_forall. intros e He. apply Hwf.
  apply list_elem_of_lookup in He as (k & [Hk Hlt]%lookup_take_Some).
  apply list_elem_of_lookup. exists k. apply lookup_take_Some. split; [done|lia].
Qed.

Lemma div_eqns_primitive e :
  e ∈ div_eqns num_micro_batches l → primitive e = div_p.
Proof. unfold div_eqns. by intros (v & -> & _)%list_elem_of_fmap. Qed.

Lemma add_eqns_primitive e :
  e ∈ add_eqns (old_grad_vars l) (out_grad_vars l) (new_grad_vars l) →
  primitive e = add_p.
Proof.
  pose proof (Forall_add_eqns (old_grad_vars l) (out_grad_vars l)
                (new_grad_vars l)) as Hadds.
  rewrite Forall_forall in Hadds. apply Hadds.
Qed.

Lemma combined_grad_marker e :
  e ∈ eqns (jaxpr (combined_jaxpr l)) → grad_marker e →
  e ∈ apply_grad_eqns l.
Proof.
  rewrite elem_of_combined_eqns.
  intros [->|[He|[He|[->|[->|[He|[He| ->]]]]]]] Hg; try done.
  - by apply marker_params_not_grad in Hg.
  - by destruct (compute_grad_eqns_not_grad e).
  - apply add_eqns_primitive in He. destruct Hg as [Hg _]. congruence.
  - by apply marker_params_not_grad in Hg.
  - by apply marker_params_not_grad in Hg.
  - apply div_eqns_primitive in He. destruct Hg as [Hg _]. congruence.
  - by apply marker_params_not_grad in Hg.
Qed.

Lemma combined_has_mark_type :
  Forall has_mark_type (apply_grad_eqns l) →
  Forall has_mark_type (eqns (jaxpr (combined_jaxpr l))).
Proof.
  intros Happly. apply Forall_forall. intros e.
  rewrite elem_of_combined_eqns.
  assert (∀ mt name ins outs,
            has_mark_type
              (new_jaxpr_eqn ins outs pipeline_p (marker_params mt name)))
    as Hmarker.
  { intros mt name ins outs _.
    destruct (region_marker_params ins outs mt name) as (_ & Ht & _).
    by rewrite Ht. }
  intros [->|[He|[He|[->|[->|[He|[He| ->]]]]]]]; try apply Hmarker.
  - pose proof compute_grad_eqns_has_mark_type as Hwf.
    rewrite Forall_forall in Hwf. by apply Hwf.
  - apply add_eqns_primitive in He. intros Hp. congruence.
  - apply div_eqns_primitive in He. intros Hp. congruence.
  - rewrite Forall_forall in Happly. by apply Happly.
Qed.

(** Where the operations of the program go. *)
Lemma lookup_combined_eqns_before k :
  k < marker_pos l →
  eqns (jaxpr (combined_jaxpr l)) !! S k = eqns (jaxpr raw_jaxpr) !! k.
Proof.
  intros Hk. rewrite (ls_combined_jaxpr _ _ _ _ Hspec). simpl.
  rewrite (ls_combined_eqns _ _ _ _ Hspec). simpl.
  destruct (marker_found _ _ _ _ Hspec) as (Hm%lookup_lt_Some & _).
  rewrite lookup_app_l.
  - rewrite (ls_compute _ _ _ _ Hspec). by apply lookup_take_lt.
  - rewrite (ls_compute _ _ _ _ Hspec), length_take. lia.
Qed.

Lemma length_div_eqns : length (div_eqns num_micro_batches l) = num_grads l.
Proof.
  unfold div_eqns. rewrite length_fmap, length_take, length_reverse.
  pose proof (ls_reduction _ _ _ _ Hspec). lia.
Qed.

Lemma length_accumulation_eqns :
  length (add_eqns (old_grad_vars l) (out_grad_vars l) (new_grad_vars l))
  = num_grads l.
Proof.
  rewrite length_add_eqns.
  - symmetry. apply (ls_num _ _ _ _ Hspec).
  - rewrite (length_old_grad_vars _ _ _ _ Hspec).
    apply (ls_num _ _ _ _ Hspec).
  - rewrite (length_new_grad_vars _ _ _ _ Hspec).
    apply (ls_num _ _ _ _ Hspec).
Qed.

Lemma lookup_combined_eqns_after k :
  marker_pos l < k →
  eqns (jaxpr (combined_jaxpr l)) !! (k + 2 * num_grads l + 2)
  = (eqns (jaxpr raw_jaxpr) ++ [apply_end_marker APPLY_GRAD_MARKER_SUFFIX
                                  raw_jaxpr l]) !! k.
Proof.
  intros Hk. rewrite (ls_combined_jaxpr _ _ _ _ Hspec). simpl.
  rewrite (ls_combined_eqns _ _ _ _ Hspec).
  destruct (marker_found _ _ _ _ Hspec) as (Hm%lookup_lt_Some & _).
  assert (length (compute_grad_eqns l) = marker_pos l) as Hcompute.
  { rewrite (ls_compute _ _ _ _ Hspec), length_take. lia. }
  pose proof length_accumulation_eqns as Hadds.
  pose proof length_div_eqns as Hdivs.
  rewrite lookup_app_r by (simpl; lia).
  rewrite lookup_app_r by (simpl; lia).
  rewrite lookup_app_r by (simpl; lia).
  rewrite lookup_app_r by (simpl; lia).
  rewrite lookup_app_r by (simpl; lia).
  rewrite lookup_app_r by (simpl; lia).
  simpl. rewrite Hcompute, Hadds, Hdivs.
  replace (k + 2 * num_grads l + 2 - 1 - marker_pos l - num_grads l - 1 - 1
             - num_grads l) with (k - (marker_pos l + 1)) by lia.
  rewrite (ls_apply _ _ _ _ Hspec).
  rewrite <- (take_drop (marker_pos l + 1) (eqns (jaxpr raw_jaxpr))) at 2.
  rewrite <- app_assoc.
  rewrite (lookup_app_r (take _ _)) by (rewrite length_take; lia).
  rewrite length_take. f_equal. lia.
Qed.

End marker_facts.

(** ** The markers of the regions *)

(** A marker hands its inputs over unchanged: it has one output per
    input, of the same abstract value. *)
Definition aval_preserving (eqn : JaxprEqn) : Prop :=
  get_aval <$> eqn_invars eqn = aval <$> eqn_outvars eqn.

#[global] Instance aval_preserving_dec eqn : Decision (aval_preserving eqn).
Proof. unfold aval_preserving. apply _. Defined.

Section region_marker_facts.
Variable APPLY_GRAD_MARKER_SUFFIX : string.
Context (raw_jaxpr : ClosedJaxpr) (num_micro_batches : Z) (l : Locals).
Hypothesis Hspec :
  locals_spec APPLY_GRAD_MARKER_SUFFIX raw_jaxpr num_micro_batches l.

Lemma get_aval_AVar (vs : list Var) : get_aval <$> (AVar <$> vs) = aval <$> vs.
Proof. by rewrite <- list_fmap_compose. Qed.

Lemma aval_accumulate_grad_invars :
  aval <$> accumulate_grad_invars l = aval <$> accumulate_old_invars l.
Proof. by rewrite (ls_accumulate_new _ _ _ _ Hspec), fresh_vars_aval. Qed.

Lemma aval_new_grad_vars :
  aval <$> new_grad_vars l = get_aval <$> out_grad_vars l.
Proof. by rewrite (ls_new _ _ _ _ Hspec), fresh_vars_aval. Qed.

Lemma aval_old_grad_vars :
  aval <$> old_grad_vars l = get_aval <$> out_grad_vars l.
Proof. by rewrite (ls_old _ _ _ _ Hspec), fresh_vars_aval. Qed.

Lemma aval_inter_grad_vars :
  aval <$> inter_grad_vars l = get_aval <$> out_grad_vars l.
Proof. by rewrite (ls_inter _ _ _ _ Hspec), fresh_vars_aval. Qed.

Lemma aval_new_outvars :
  aval <$> new_outvars l = get_aval <$> outvars (jaxpr raw_jaxpr).
Proof.
  destruct (ls_rename _ _ _ _ Hspec) as (g & _ & -> & _).
  by rewrite fresh_vars_aval.
Qed.

Lemma aval_apply_grad_invars :
  aval_preserving (marker_eqn l) →
  aval <$> apply_grad_invars l = aval <$> apply_old_invars l.
Proof.
  intros Hmarker. destruct (ls_rename _ _ _ _ Hspec) as (g & Hren & _).
  pose proof (rename_rel_length _ _ _ _ _ _ _ _ _ Hren) as Hlen.
  apply list_eq_same_length with (length (apply_old_invars l));
    [by rewrite length_fmap | by rewrite length_fmap|].
  intros i a b Hi Ha Hb.
  apply list_lookup_fmap_Some_1 in Ha as (new & -> & Hnew).
  apply list_lookup_fmap_Some_1 in Hb as (old & -> & Hold).
  destruct (decide (old ∈ (list_to_set (invars (jaxpr raw_jaxpr))
                             : gset Var))) as [Hglobal|Hlocal].
  - destruct (rename_rel_global _ _ _ _ _ _ _ _ _ _ _ Hren Hold Hglobal)
      as (v & Hv & Hd).
    rewrite Hnew in Hv. injection Hv as <-.
    by destruct (substitute_entry _ _ _ _ Hspec _ _ Hd) as (_ & _ & ?).
  - destruct (rename_rel_local _ _ _ _ _ _ _ _ _ _ _ Hren Hold Hlocal)
      as (k & v & Hk & Hv & Hnew').
    rewrite Hnew in Hnew'. injection Hnew' as <-.
    apply index_Ok in Hk as [Hk _].
    apply (f_equal (fmap aval)) in Hv, Hk.
    rewrite <- !list_lookup_fmap in Hv, Hk.
    rewrite aval_inter_grad_vars, (ls_out _ _ _ _ Hspec) in Hv.
    rewrite (ls_in _ _ _ _ Hspec) in Hk.
    unfold aval_preserving in Hmarker. rewrite Hmarker, Hk in Hv. simpl in Hv.
    by injection Hv.
Qed.

End region_marker_facts.

Section marker_properties.
Variable APPLY_GRAD_MARKER_SUFFIX : string.
Implicit Types (raw_jaxpr : ClosedJaxpr) (num_micro_batches : Z).

(** X2: the gradient marker the program is split at is not part of the
    combined program: a gradient marker of the combined program is one
    that follows the first gradient marker of the program.  When the
    program has a single gradient marker the combined program has none, and
    rewriting it again raises, with the assertion's message when the
    markers of the program carry their type. *)
Theorem grad_marker_consumed raw_jaxpr num_micro_batches l :
  add_gradient_accumulation_locals APPLY_GRAD_MARKER_SUFFIX raw_jaxpr
    num_micro_batches = Ok l →
  (∀ e, e ∈ eqns (jaxpr (combined_jaxpr l)) → grad_marker e →
        e ∈ drop (S (marker_pos l)) (eqns (jaxpr raw_jaxpr)))
  ∧ ((∀ q e, eqns (jaxpr raw_jaxpr) !! q = Some e → grad_marker e →
             q = marker_pos l) →
     ∀ num_micro_batches',
       (∃ exn, add_gradient_accumulation APPLY_GRAD_MARKER_SUFFIX
                 (combined_jaxpr l) num_micro_batches' = Raise exn)
       ∧ (Forall has_mark_type (eqns (jaxpr raw_jaxpr)) →
          add_gradient_accumulation APPLY_GRAD_MARKER_SUFFIX
            (combined_jaxpr l) num_micro_batches'
          = Raise (AssertionError "Must have exactly one gradient marker"))).
Proof.
  intros [Hspec _]%add_gradient_accumulation_locals_spec.
  assert (∀ e, e ∈ eqns (jaxpr (combined_jaxpr l)) → grad_marker e →
               e ∈ drop (S (marker_pos l)) (eqns (jaxpr raw_jaxpr)))
    as Hlater.
  { intros e He Hg.
    pose proof (combined_grad_marker _ _ _ _ Hspec e He Hg) as Happly.
    rewrite (ls_apply _ _ _ _ Hspec) in Happly.
    by replace (S (marker_pos l)) with (marker_pos l + 1) by lia. }
  split; [done|]. intros Huniq num_micro_batches'.
  assert (Forall (λ e, ¬ grad_marker e) (eqns (jaxpr (combined_jaxpr l))))
    as Hnone.
  { apply Forall_forall. intros e He Hg.
    apply (Hlater e He) in Hg as Hdrop.
    apply list_elem_of_lookup in Hdrop as (k & Hk).
    rewrite lookup_drop in Hk. pose proof (Huniq _ _ Hk Hg). lia. }
  split.
  - unfold add_gradient_accumulation, add_gradient_accumulation_locals.
    destruct (find_grad_marker (eqns (jaxpr (combined_jaxpr l))) 0)
      as [[[p e]|]|exn] eqn:Hfind; simpl; [|by eexists..].
    apply find_grad_marker_Some in Hfind as (i & _ & Hi & Hg & _).
    rewrite Forall_forall in Hnone.
    destruct (Hnone e); [by eapply list_elem_of_lookup_2 | done].
  - intros Hwf.
    unfold add_gradient_accumulation, add_gradient_accumulation_locals.
    rewrite (find_grad_marker_absent _ 0); [done| |done].
    apply (combined_has_mark_type _ _ _ _ Hspec).
    rewrite (ls_apply _ _ _ _ Hspec). by apply Forall_drop.
Qed.

(** X3: the search stops at the first gradient marker, and the assertion
    only tells whether one was found.  A program whose first gradient
    marker has one output per input is rewritten, split at this marker,
    when its inputs are pairwise distinct and the markers before it carry
    their type, whatever follows: every later equation, be it another
    gradient marker or a marker without type, is kept in the apply-grad
    region, [2 * num_grads + 2] positions further than in the program. *)
Theorem search_stops_at_first_marker raw_jaxpr num_micro_batches p marker :
  eqns (jaxpr raw_jaxpr) !! p = Some marker → grad_marker marker →
  (∀ k e, k < p → eqns (jaxpr raw_jaxpr) !! k = Some e →
          has_mark_type e ∧ ¬ grad_marker e) →
  length (eqn_outvars marker) = length (eqn_invars marker) →
  NoDup (invars (jaxpr raw_jaxpr)) →
  ∃ cj i1 i2 n,
    add_gradient_accumulation APPLY_GRAD_MARKER_SUFFIX raw_jaxpr
      num_micro_batches = Ok (cj, i1, i2, n)
    ∧ n = length (eqn_invars marker)
    ∧ ∀ q e, p < q → eqns (jaxpr raw_jaxpr) !! q = Some e →
             eqns (jaxpr cj) !! (q + 2 * n + 2) = Some e.
Proof.
  intros Hp Hmarker Hfirst Harity Hinvars.
  pose proof (find_grad_marker_prefix _ 0 _ _ Hp Hmarker Hfirst) as Hfind.
  destruct (add_gradient_accumulation_locals_total APPLY_GRAD_MARKER_SUFFIX
              raw_jaxpr num_micro_batches p marker Hfind Harity Hinvars)
    as [l Hl].
  exists (combined_jaxpr l), (accumulate_grad_invar_indices l),
    (apply_grad_invar_indices l), (num_grads l).
  split.
  { apply add_gradient_accumulation_Ok. by exists l. }
  apply add_gradient_accumulation_locals_spec in Hl as [Hspec _].
  pose proof (ls_find _ _ _ _ Hspec) as Hfind'. rewrite Hfind in Hfind'.
  injection Hfind' as Hpos Heqn.
  split.
  { by rewrite (ls_num _ _ _ _ Hspec), (ls_out _ _ _ _ Hspec), <- Heqn. }
  intros q e Hlt Hq.
  rewrite (lookup_combined_eqns_after _ _ _ _ Hspec) by lia.
  by apply lookup_app_l_Some.
Qed.

(** X4: the markers that open and close the two regions hand their
    inputs over unchanged, as the markers of the tracer do: each has one
    output per input, of the same abstract value; for the start marker of
    the apply-grad region, this holds when it does for the gradient marker
    of the program. *)
Theorem region_markers_preserve_avals raw_jaxpr num_micro_batches l :
  add_gradient_accumulation_locals APPLY_GRAD_MARKER_SUFFIX raw_jaxpr
    num_micro_batches = Ok l →
  aval_preserving (accumulate_start_marker l)
  ∧ aval_preserving (accumulate_end_marker l)
  ∧ aval_preserving (apply_end_marker APPLY_GRAD_MARKER_SUFFIX raw_jaxpr l)
  ∧ (aval_preserving (marker_eqn l) →
     aval_preserving (apply_start_marker APPLY_GRAD_MARKER_SUFFIX l)).
Proof.
  intros [Hspec _]%add_gradient_accumulation_locals_spec.
  unfold aval_preserving, accumulate_start_marker, accumulate_end_marker,
    apply_end_marker, apply_start_marker. simpl.
  rewrite !get_aval_AVar.
  split; [apply (aval_accumulate_grad_invars _ _ _ _ Hspec)|].
  split.
  { by rewrite (aval_new_grad_vars _ _ _ _ Hspec),
      (aval_inter_grad_vars _ _ _ _ Hspec). }
  split; [by rewrite (aval_new_outvars _ _ _ _ Hspec)|].
  apply (aval_apply_grad_invars _ _ _ _ Hspec).
Qed.

End marker_properties.

(** ** Scoping of the combined program *)

(** The variables among a list of atoms. *)
Definition atom_vars (xs : list Atom) : list Var :=
  omap (λ x, match x with AVar v => Some v | ALit _ => None end) xs.

(** Read in order from the variables [defined], every equation reads
    variables that are defined when it runs; its outputs are defined from
    then on. *)
Fixpoint scoped (defined : gset Var) (eqns : list JaxprEqn) : Prop :=
  match eqns with
  | [] => True
  | eqn :: eqns =>
      Forall (λ v, v ∈ defined) (non_literal_invars eqn)
      ∧ scoped (defined ∪ list_to_set (eqn_outvars eqn)) eqns
  end.

#[global] Instance scoped_dec defined eqns : Decision (scoped defined eqns).
Proof.
  revert defined. induction eqns as [|eqn eqns IH]; intros defined; simpl;
    apply _.
Defined.

(** The variables that the equations define. *)
Definition defined_by (eqns : list JaxprEqn) : gset Var :=
  list_to_set (eqns ≫= eqn_outvars).

(** A program reads, in each equation and in its outputs, variables
    defined before: inputs, constants, or outputs of earlier equations. *)
Definition well_scoped (j : Jaxpr) : Prop :=
  scoped (list_to_set (invars j ++ constvars j)) (eqns j)
  ∧ Forall (λ v, v ∈ (list_to_set (invars j ++ constvars j) : gset Var)
                 ∨ v ∈ defined_by (eqns j))
      (atom_vars (outvars j)).

#[global] Instance well_scoped_dec j : Decision (well_scoped j).
Proof. unfold well_scoped. apply _. Defined.

Section scoped_facts.
Implicit Types (D : gset Var) (es : list JaxprEqn) (v : Var).

Lemma elem_of_atom_vars v (xs : list Atom) : v ∈ atom_vars xs ↔ AVar v ∈ xs.
Proof.
  unfold atom_vars. rewrite list_elem_of_omap. split.
  - intros (x & Hx & Hv). destruct x; naive_solver.
  - intros Hv. by exists (AVar v).
Qed.

Lemma atom_vars_AVar (vs : list Var) : atom_vars (AVar <$> vs) = vs.
Proof. induction vs as [|v vs IH]; [done|]. csimpl. by rewrite IH. Qed.

Lemma elem_of_defined_by es v :
  v ∈ defined_by es ↔ ∃ e, e ∈ es ∧ v ∈ eqn_outvars e.
Proof.
  unfold defined_by. rewrite elem_of_list_to_set, list_elem_of_bind.
  naive_solver.
Qed.

Lemma defined_by_app es1 es2 :
  defined_by (es1 ++ es2) = defined_by es1 ∪ defined_by es2.
Proof.
  apply set_eq. intros v.
  rewrite elem_of_union, !elem_of_defined_by. split.
  - intros (e & [He|He]%elem_of_app & Hv); [left | right]; eauto.
  - intros [(e & He & Hv)|(e & He & Hv)]; exists e;
      (split; [apply elem_of_app; auto | done]).
Qed.

Lemma defined_by_cons e es :
  defined_by (e :: es) = list_to_set (eqn_outvars e) ∪ defined_by es.
Proof. unfold defined_by. csimpl. by rewrite list_to_set_app_L. Qed.

Lemma defined_by_singleton e v :
  v ∈ defined_by [e] ↔ v ∈ eqn_outvars e.
Proof.
  rewrite elem_of_defined_by. split.
  - by intros (e' & ->%list_elem_of_singleton & Hv).
  - intros Hv. exists e. split; [by left | done].
Qed.

Lemma scoped_weaken D D' es :
  scoped D es → (∀ v, v ∈ D → used_by es v → v ∈ D') → scoped D' es.
Proof.
  revert D D'. induction es as [|e es IH]; intros D D' Hs Hsub; [done|].
  destruct Hs as [Hreads Hs]. split.
  - rewrite Forall_forall in Hreads. apply Forall_forall. intros v Hv.
    apply Hsub; [by apply Hreads|]. exists e. split; [left|].
    by apply elem_of_non_literal_invars.
  - apply (IH _ _ Hs). intros v [Hv|Hv]%elem_of_union Hused.
    + apply elem_of_union. left. apply Hsub; [done|].
      destruct Hused as (e' & He' & Hv'). exists e'. split; [by right | done].
    + apply elem_of_union. by right.
Qed.

Lemma scoped_mono D D' es : D ⊆ D' → scoped D es → scoped D' es.
Proof. intros Hsub Hs. apply (scoped_weaken D); [done|]. set_solver. Qed.

Lemma scoped_app D es1 es2 :
  scoped D (es1 ++ es2) ↔ scoped D es1 ∧ scoped (D ∪ defined_by es1) es2.
Proof.
  revert D. induction es1 as [|e es1 IH]; intros D; simpl.
  - replace (D ∪ defined_by []) with D by set_solver. tauto.
  - rewrite IH, defined_by_cons, (assoc_L (∪)). tauto.
Qed.

(** Equations that only read variables defined beforehand. *)
Lemma scoped_reads D es :
  (∀ e v, e ∈ es → AVar v ∈ eqn_invars e → v ∈ D) → scoped D es.
Proof.
  revert D. induction es as [|e es IH]; intros D Hreads; [done|]. split.
  - apply Forall_forall. intros v Hv%elem_of_non_literal_invars.
    apply (Hreads e); [left | done].
  - apply IH. intros e' v He' Hv. apply elem_of_union. left.
    apply (Hreads e'); [by right | done].
Qed.

End scoped_facts.

Section combined_scoping.
Variable APPLY_GRAD_MARKER_SUFFIX : string.
Context (raw_jaxpr : ClosedJaxpr) (num_micro_batches : Z) (l : Locals).
Hypothesis Hspec :
  locals_spec APPLY_GRAD_MARKER_SUFFIX raw_jaxpr num_micro_batches l.

Lemma eqns_split :
  eqns (jaxpr raw_jaxpr)
  = compute_grad_eqns l ++ [marker_eqn l] ++ apply_grad_eqns l.
Proof.
  rewrite (ls_compute _ _ _ _ Hspec), (ls_apply _ _ _ _ Hspec).
  destruct (marker_found _ _ _ _ Hspec) as (Hm & _).
  replace (marker_pos l + 1) with (S (marker_pos l)) by lia.
  symmetry. by apply take_drop_middle.
Qed.

(** An entry of the table renames an input of one of the regions. *)
Lemma substitute_key k v :
  global_invar_substitute l !! k = Some v →
  k ∈ accumulate_old_invars l ∨ k ∈ apply_old_invars l.
Proof.
  intros Hk. destruct (ls_rename _ _ _ _ Hspec) as (g & Hren & _).
  destruct (rename_rel_minted _ _ _ _ _ _ _ _ _ Hren) as (avals & _ & Hd).
  destruct (Hd k v Hk) as [Hacc|(_ & Hold & _)]; [left | by right].
  apply accumulate_table_Some in Hacc as (i & Hi & _).
  by eapply list_elem_of_lookup_2.
Qed.

Lemma input_defined v :
  v ∈ invars (jaxpr raw_jaxpr) →
  v ∈ accumulate_old_invars l ∨ v ∈ apply_old_invars l
  ∨ v ∈ invars (jaxpr (combined_jaxpr l)).
Proof.
  intros Hv. destruct (global_invar_substitute l !! v) as [w|] eqn:Hw.
  - destruct (substitute_key _ _ Hw); auto.
  - right. right. rewrite (combined_invars _ _ _ _ Hspec).
    apply elem_of_app. left. apply list_elem_of_fmap. exists v.
    split; [|done]. unfold dict_get_default. by rewrite Hw.
Qed.

Lemma apply_grad_invars_defined v :
  v ∈ apply_grad_invars l →
  v ∈ invars (jaxpr (combined_jaxpr l)) ∨ v ∈ inter_grad_vars l.
Proof.
  intros (i & Hi)%list_elem_of_lookup.
  destruct (ls_rename _ _ _ _ Hspec) as (g & Hren & _).
  pose proof (rename_rel_length _ _ _ _ _ _ _ _ _ Hren) as Hlen.
  destruct (lookup_lt_is_Some_2 (apply_old_invars l) i) as [var Hvar].
  { rewrite <- Hlen. by eapply lookup_lt_Some. }
  destruct (decide (var ∈ (list_to_set (invars (jaxpr raw_jaxpr))
                             : gset Var))) as [Hglobal|Hlocal].
  - destruct (rename_rel_global _ _ _ _ _ _ _ _ _ _ _ Hren Hvar Hglobal)
      as (v' & Hv' & Hd).
    rewrite Hi in Hv'. injection Hv' as <-. left.
    rewrite (combined_invars _ _ _ _ Hspec). apply elem_of_app. left.
    apply list_elem_of_fmap. exists var. split.
    + unfold dict_get_default. by rewrite Hd.
    + by apply elem_of_list_to_set in Hglobal.
  - destruct (rename_rel_local _ _ _ _ _ _ _ _ _ _ _ Hren Hvar Hlocal)
      as (k & v' & _ & Hk & Hv').
    rewrite Hi in Hv'. injection Hv' as <-. right.
    by eapply list_elem_of_lookup_2.
Qed.

Lemma accumulate_grad_invars_defined v :
  NoDup (invars (jaxpr raw_jaxpr)) →
  v ∈ accumulate_grad_invars l → v ∈ invars (jaxpr (combined_jaxpr l)).
Proof.
  intros Hinvars Hv. rewrite (combined_invars _ _ _ _ Hspec).
  rewrite <- (take_drop
                (length (filter_used_vars (invars (jaxpr raw_jaxpr))
                           (compute_grad_eqns l)))
                (accumulate_grad_invars l)) in Hv.
  apply elem_of_app in Hv as [Hv|Hv]; apply elem_of_app; [left | by right].
  rewrite (take_accumulate_grad_invars _ _ _ _ Hspec Hinvars) in Hv.
  apply list_elem_of_fmap in Hv as (u & -> & Hu).
  apply list_elem_of_fmap. exists u. split; [done|].
  by apply elem_of_filter_used_vars in Hu as [? _].
Qed.

Lemma defined_by_add_eqns v :
  v ∈ new_grad_vars l →
  v ∈ defined_by (add_eqns (old_grad_vars l) (out_grad_vars l)
                    (new_grad_vars l)).
Proof.
  intros (i & Hi)%list_elem_of_lookup.
  pose proof (length_old_grad_vars _ _ _ _ Hspec) as Hold.
  pose proof (length_new_grad_vars _ _ _ _ Hspec) as Hnew.
  pose proof (ls_num _ _ _ _ Hspec) as Hnum.
  apply lookup_lt_Some in Hi as Hlt.
  destruct (lookup_lt_is_Some_2 (old_grad_vars l) i) as [old Ho]; [lia|].
  destruct (lookup_lt_is_Some_2 (out_grad_vars l) i) as [out Hg]; [lia|].
  apply elem_of_defined_by. exists (add_eqn old out v). split.
  - eapply list_elem_of_lookup_2. by apply add_eqns_lookup.
  - simpl. left.
Qed.

Lemma add_eqns_reads e v :
  e ∈ add_eqns (old_grad_vars l) (out_grad_vars l) (new_grad_vars l) →
  AVar v ∈ eqn_invars e →
  v ∈ old_grad_vars l ∨ AVar v ∈ eqn_invars (marker_eqn l).
Proof.
  unfold add_eqns.
  intros (i & o & gn & -> & Ho & Hgn)%elem_of_lookup_zip_with Hv.
  apply lookup_zip_with_Some in Hgn as (g & n & -> & Hg & Hn). simpl in Hv.
  apply elem_of_cons in Hv as [[= ->]|Hv].
  - left. by eapply list_elem_of_lookup_2.
  - apply list_elem_of_singleton in Hv as <-. right.
    rewrite <- (ls_out _ _ _ _ Hspec). by eapply list_elem_of_lookup_2.
Qed.

Lemma div_eqns_reads e v :
  e ∈ div_eqns num_micro_batches l → AVar v ∈ eqn_invars e →
  v ∈ apply_old_invars l.
Proof.
  unfold div_eqns. intros (t & -> & Ht)%list_elem_of_fmap Hv. simpl in Hv.
  apply elem_of_cons in Hv as [[= ->]|Hv].
  - apply elem_of_reverse. eapply elem_of_sublist; [exact Ht|].
    apply sublist_take.
  - by apply list_elem_of_singleton in Hv.
Qed.

End combined_scoping.

Section scoping_properties.
Variable APPLY_GRAD_MARKER_SUFFIX : string.
Implicit Types (raw_jaxpr : ClosedJaxpr) (num_micro_batches : Z).

(** X5: the combined program of a well-scoped program with pairwise
    distinct inputs is well scoped: each of its operations, region markers
    included, reads inputs of the combined program, constants, or outputs
    of operations before it, and so do its outputs.  This needs the program
    inputs that the gradient marker reads and the apply-grad region takes
    to be read before the marker as well (as when the marker reads no
    program input): the addition of such a gradient otherwise reads it
    under its old name, which only the start marker of the apply-grad
    region defines. *)
Theorem combined_program_well_scoped raw_jaxpr num_micro_batches l :
  add_gradient_accumulation_locals APPLY_GRAD_MARKER_SUFFIX raw_jaxpr
    num_micro_batches = Ok l →
  NoDup (invars (jaxpr raw_jaxpr)) →
  well_scoped (jaxpr raw_jaxpr) →
  (∀ v, AVar v ∈ eqn_invars (marker_eqn l) → v ∈ invars (jaxpr raw_jaxpr) →
        v ∈ apply_old_invars l → used_by (compute_grad_eqns l) v) →
  well_scoped (jaxpr (combined_jaxpr l)).
Proof.
  intros [Hspec _]%add_gradient_accumulation_locals_spec Hinvars [Hs Hout]
    Hgrad.
  rewrite (eqns_split _ _ _ _ Hspec) in Hs, Hout.
  apply scoped_app in Hs as [Hcompute [Hmarker Happly]]. simpl in Happly.
  rewrite Forall_forall in Hmarker, Hout.
  assert (eqns (jaxpr (combined_jaxpr l)) = combined_eqns l) as Heqns.
  { by rewrite (ls_combined_jaxpr _ _ _ _ Hspec). }
  assert (constvars (jaxpr (combined_jaxpr l)) = constvars (jaxpr raw_jaxpr))
    as Hconsts.
  { by rewrite (ls_combined_jaxpr _ _ _ _ Hspec). }
  assert (outvars (jaxpr (combined_jaxpr l)) = AVar <$> new_outvars l)
    as Houtvars.
  { by rewrite (ls_combined_jaxpr _ _ _ _ Hspec). }
  unfold well_scoped. rewrite Heqns, Hconsts, Houtvars.
  rewrite (ls_combined_eqns _ _ _ _ Hspec).
  set (D0 := list_to_set (invars (jaxpr (combined_jaxpr l))
                            ++ constvars (jaxpr raw_jaxpr)) : gset Var).
  set (S1 := accumulate_start_marker l).
  set (E1 := accumulate_end_marker l).
  set (S2 := apply_start_marker APPLY_GRAD_MARKER_SUFFIX l).
  set (E2 := apply_end_marker APPLY_GRAD_MARKER_SUFFIX raw_jaxpr l).
  set (adds := add_eqns (old_grad_vars l) (out_grad_vars l)
                 (new_grad_vars l)).
  assert (∀ v, v ∈ invars (jaxpr (combined_jaxpr l)) → v ∈ D0) as HCI.
  { intros v Hv. apply elem_of_list_to_set, elem_of_app. by left. }
  assert (∀ v, v ∈ constvars (jaxpr raw_jaxpr) → v ∈ D0) as HC.
  { intros v Hv. apply elem_of_list_to_set, elem_of_app. by right. }
  assert (∀ v, v ∈ accumulate_old_invars l → v ∈ defined_by [S1]) as HS1.
  { intros v Hv. by apply defined_by_singleton. }
  assert (∀ v, v ∈ inter_grad_vars l → v ∈ defined_by [E1]) as HE1.
  { intros v Hv. by apply defined_by_singleton. }
  assert (∀ v, v ∈ apply_old_invars l → v ∈ defined_by [S2]) as HS2.
  { intros v Hv. by apply defined_by_singleton. }
  assert (∀ v, v ∈ invars (jaxpr raw_jaxpr) →
               used_by (compute_grad_eqns l) v → v ∈ defined_by [S1])
    as Hused1.
  { intros v Hv Hused. apply HS1. rewrite (ls_accumulate_old _ _ _ _ Hspec).
    apply elem_of_app. left. by apply elem_of_filter_used_vars. }
  assert (∀ v, v ∈ invars (jaxpr raw_jaxpr) →
               used_by (apply_grad_eqns l) v → v ∈ defined_by [S2])
    as Hused2.
  { intros v Hv Hused. apply HS2. rewrite (ls_apply_old _ _ _ _ Hspec).
    apply elem_of_app. left. by apply elem_of_filter_used_vars. }
  assert (∀ v, v ∈ eqn_outvars (marker_eqn l) → v ∈ defined_by [S2])
    as Hin.
  { intros v Hv. apply HS2. rewrite (ls_apply_old _ _ _ _ Hspec).
    apply elem_of_app. right. by rewrite (ls_in _ _ _ _ Hspec). }
  assert (∀ v, v ∈ invars (jaxpr raw_jaxpr) →
               v ∈ D0 ∨ v ∈ defined_by [S1] ∨ v ∈ defined_by [S2])
    as Hinput.
  { intros v Hv.
    destruct (input_defined _ _ _ _ Hspec v Hv) as [?|[?|?]]; auto. }
  split.
  - apply scoped_app. split.
    { apply scoped_reads. intros e v ->%list_elem_of_singleton Hv.
      simpl in Hv. apply list_elem_of_fmap in Hv as (w & [= <-] & Hw).
      apply HCI. by apply (accumulate_grad_invars_defined _ _ _ _ Hspec). }
    apply scoped_app. split.
    { apply (scoped_weaken _ _ _ Hcompute).
      intros v [Hv|Hv]%elem_of_list_to_set%elem_of_app Hused;
        rewrite !elem_of_union.
      - right. by apply Hused1.
      - left. by apply HC. }
    apply scoped_app. split.
    { apply scoped_reads. intros e v He Hv. rewrite !elem_of_union.
      destruct (add_eqns_reads _ _ _ _ Hspec e v He Hv) as [Hold|Hread].
      { left. right. apply HS1. rewrite (ls_accumulate_old _ _ _ _ Hspec).
        apply elem_of_app. by right. }
      pose proof Hread as Hdef.
      apply elem_of_non_literal_invars, Hmarker in Hdef.
      apply elem_of_union in Hdef as [[Hi|Hc]%elem_of_list_to_set%elem_of_app
                                     |Hdef]; [| |by right].
      - destruct (input_defined _ _ _ _ Hspec v Hi) as [Hacc|[Happ|Hci]].
        + left. right. by apply HS1.
        + left. right. apply Hused1; [done|]. by apply Hgrad.
        + left. left. by apply HCI.
      - left. left. by apply HC. }
    apply scoped_app. split.
    { apply scoped_reads. intros e v ->%list_elem_of_singleton Hv.
      simpl in Hv. apply list_elem_of_fmap in Hv as (w & [= <-] & Hw).
      rewrite !elem_of_union. right.
      by apply (defined_by_add_eqns _ _ _ _ Hspec). }
    apply scoped_app. split.
    { apply scoped_reads. intros e v ->%list_elem_of_singleton Hv.
      simpl in Hv. apply list_elem_of_fmap in Hv as (w & [= <-] & Hw).
      rewrite !elem_of_union.
      destruct (apply_grad_invars_defined _ _ _ _ Hspec v Hw) as [Hci|Hinter].
      - do 4 left. by apply HCI.
      - right. by apply HE1. }
    apply scoped_app. split.
    { apply scoped_reads. intros e v He Hv. rewrite !elem_of_union. right.
      apply HS2. by eapply div_eqns_reads. }
    apply scoped_app. split.
    { apply (scoped_weaken _ _ _ Happly).
      intros v Hv Hused. rewrite !elem_of_union.
      apply elem_of_union in Hv as [Hv|Hv].
      - apply elem_of_union in Hv
          as [[Hi|Hc]%elem_of_list_to_set%elem_of_app|Hdef].
        + left. right. by apply Hused2.
        + do 6 left. by apply HC.
        + do 4 left. by right.
      - left. right. apply Hin. by apply elem_of_list_to_set in Hv. }
    apply scoped_reads. intros e v ->%list_elem_of_singleton Hv.
    simpl in Hv. apply elem_of_atom_vars, Hout in Hv.
    rewrite !elem_of_union.
    destruct Hv as [[Hi|Hc]%elem_of_list_to_set%elem_of_app|Hdef].
    + destruct (Hinput v Hi) as [?|[?|?]].
      * by do 7 left.
      * do 6 left. by right.
      * do 2 left. by right.
    + do 7 left. by apply HC.
    + rewrite !defined_by_app, !elem_of_union in Hdef.
      destruct Hdef as [Hdef|[Hdef|Hdef]].
      * do 5 left. by right.
      * do 2 left. right. apply Hin. by apply defined_by_singleton in Hdef.
      * by right.
  - rewrite atom_vars_AVar. apply Forall_forall. intros v Hv. right.
    rewrite !defined_by_app, !elem_of_union. do 7 right.
    by apply defined_by_singleton.
Qed.

End scoping_properties.

(** ** Single assignment in the combined program *)

Lemma add_eqns_outvars old out new :
  length old = length out → length new = length out →
  add_eqns old out new ≫= eqn_outvars = new.
Proof.
  revert old out. induction new as [|n new IH]; intros [|o old] [|g out];
    simpl; try done.
  intros [= Hold] [= Hnew]. unfold add_eqns. csimpl.
  f_equal. by apply IH.
Qed.

Lemma div_eqn_outvars M (vs : list Var) :
  (div_eqn M <$> vs) ≫= eqn_outvars = vs.
Proof.
  induction vs as [|v vs IH]; [done|]. rewrite fmap_cons, bind_cons. simpl.
  by rewrite IH.
Qed.

Section single_assignment_facts.
Variable APPLY_GRAD_MARKER_SUFFIX : string.
Context (raw_jaxpr : ClosedJaxpr) (num_micro_batches : Z) (l : Locals).
Hypothesis Hspec :
  locals_spec APPLY_GRAD_MARKER_SUFFIX raw_jaxpr num_micro_batches l.

(** The variables that the equations of the combined program bind, in
    order. *)
Lemma combined_outvars :
  eqns (jaxpr (combined_jaxpr l)) ≫= eqn_outvars
  = accumulate_old_invars l ++ (compute_grad_eqns l ≫= eqn_outvars)
      ++ new_grad_vars l ++ inter_grad_vars l ++ apply_old_invars l
      ++ take (num_grads l) (reverse (apply_old_invars l))
      ++ (apply_grad_eqns l ≫= eqn_outvars) ++ new_outvars l.
Proof.
  rewrite (ls_combined_jaxpr _ _ _ _ Hspec). simpl.
  rewrite (ls_combined_eqns _ _ _ _ Hspec).
  rewrite !bind_app, add_eqns_outvars.
  - unfold div_eqns. rewrite div_eqn_outvars. simpl.
    by rewrite !app_nil_r.
  - rewrite (length_old_grad_vars _ _ _ _ Hspec).
    apply (ls_num _ _ _ _ Hspec).
  - rewrite (length_new_grad_vars _ _ _ _ Hspec).
    apply (ls_num _ _ _ _ Hspec).
Qed.

Lemma raw_outvars :
  eqns (jaxpr raw_jaxpr) ≫= eqn_outvars
  = (compute_grad_eqns l ≫= eqn_outvars) ++ in_grad_vars l
      ++ (apply_grad_eqns l ≫= eqn_outvars).
Proof.
  rewrite (eqns_split _ _ _ _ Hspec) at 1. rewrite !bind_app. simpl.
  by rewrite app_nil_r, (ls_in _ _ _ _ Hspec).
Qed.

(** A gradient is bound by the start marker of the apply-grad region and
    by its division. *)
Lemma gradient_bound_twice :
  num_grads l ≠ 0 → ¬ NoDup (eqns (jaxpr (combined_jaxpr l)) ≫= eqn_outvars).
Proof.
  intros Hn Hnd. rewrite combined_outvars in Hnd.
  do 4 apply NoDup_app in Hnd as (_ & _ & Hnd).
  apply NoDup_app in Hnd as (_ & Hdisj & _).
  pose proof (ls_reduction _ _ _ _ Hspec) as Hle.
  destruct (take (num_grads l) (reverse (apply_old_invars l)))
    as [|t ts] eqn:Htake.
  { apply (f_equal length) in Htake.
    rewrite length_take, length_reverse in Htake. simpl in Htake. lia. }
  apply (Hdisj t).
  - apply elem_of_reverse. eapply elem_of_sublist; [|apply sublist_take].
    rewrite Htake. left.
  - apply elem_of_app. left. left.
Qed.

(** An input read on both sides of the gradient marker is bound by the
    start markers of both regions. *)
Lemma shared_input_bound_twice v :
  v ∈ invars (jaxpr raw_jaxpr) → used_by (compute_grad_eqns l) v →
  used_by (apply_grad_eqns l) v →
  ¬ NoDup (eqns (jaxpr (combined_jaxpr l)) ≫= eqn_outvars).
Proof.
  intros Hv H1 H2 Hnd. rewrite combined_outvars in Hnd.
  apply NoDup_app in Hnd as (_ & Hdisj & _). apply (Hdisj v).
  - rewrite (ls_accumulate_old _ _ _ _ Hspec). apply elem_of_app. left.
    by apply elem_of_filter_used_vars.
  - rewrite !elem_of_app. do 3 right. left.
    rewrite (ls_apply_old _ _ _ _ Hspec). apply elem_of_app. left.
    by apply elem_of_filter_used_vars.
Qed.

End single_assignment_facts.

Section single_assignment_kept.
Variable APPLY_GRAD_MARKER_SUFFIX : string.
Context (raw_jaxpr : ClosedJaxpr) (num_micro_batches : Z) (l : Locals).
Hypothesis Hspec :
  locals_spec APPLY_GRAD_MARKER_SUFFIX raw_jaxpr num_micro_batches l.
Hypothesis Hssa : NoDup (jaxpr_vars (jaxpr raw_jaxpr)).

(** The value of an entry of the table is not an output of the combined
    program. *)
Lemma substitute_value_not_new_outvar k v :
  global_invar_substitute l !! k = Some v → v ∉ new_outvars l.
Proof.
  intros Hk Hout.
  destruct (minted_fresh_vars _ _ _ _ Hspec) as (avals & Hm & _ & Hd).
  pose proof (NoDup_minted _ _ _ _ Hspec) as Hnd. rewrite Hm in Hnd.
  destruct (Hd k v Hk) as [Hacc|(_ & _ & Hv)].
  - apply accumulate_table_Some in Hacc as (i & _ & Hi).
    apply list_elem_of_lookup_2 in Hi.
    do 2 apply NoDup_app in Hnd as (_ & _ & Hnd).
    apply NoDup_app in Hnd as (_ & Hdisj & _). apply (Hdisj v Hi).
    rewrite !elem_of_app. auto.
  - do 4 apply NoDup_app in Hnd as (_ & _ & Hnd).
    apply NoDup_app in Hnd as (_ & Hdisj & _). by apply (Hdisj v Hv).
Qed.

Lemma NoDup_renamed_invars :
  NoDup (dict_get_default (global_invar_substitute l)
           <$> invars (jaxpr raw_jaxpr)).
Proof.
  assert (NoDup (invars (jaxpr raw_jaxpr))) as Hinvars.
  { unfold jaxpr_vars in Hssa. by apply NoDup_app in Hssa as (? & _). }
  apply NoDup_fmap_2_strong; [|done]. intros x y Hx Hy.
  unfold dict_get_default.
  destruct (global_invar_substitute l !! x) as [vx|] eqn:Hvx,
    (global_invar_substitute l !! y) as [vy|] eqn:Hvy; simpl.
  - intros <-. by eapply substitute_inj.
  - intros ->. destruct (substitute_entry _ _ _ _ Hspec _ _ Hvx) as (_ & Hm & _).
    destruct (minted_not_in_jaxpr_vars _ _ _ _ Hspec _ Hm).
    by apply invars_jaxpr_vars.
  - intros <-. destruct (substitute_entry _ _ _ _ Hspec _ _ Hvy) as (_ & Hm & _).
    destruct (minted_not_in_jaxpr_vars _ _ _ _ Hspec _ Hm).
    by apply invars_jaxpr_vars.
  - done.
Qed.

(** An input of the combined program that stands for a program input is
    a minted variable, or a program input that neither region takes. *)
Lemma renamed_invar v :
  v ∈ dict_get_default (global_invar_substitute l)
        <$> invars (jaxpr raw_jaxpr) →
  (v ∈ minted (gensym_state l) ∧ v ∉ new_outvars l)
  ∨ (v ∈ invars (jaxpr raw_jaxpr) ∧ (v ∉ accumulate_old_invars l)
     ∧ (v ∉ apply_old_invars l)).
Proof.
  intros (u & -> & Hu)%list_elem_of_fmap. unfold dict_get_default.
  destruct (global_invar_substitute l !! u) as [w|] eqn:Hw; simpl.
  - left. split.
    + by destruct (substitute_entry _ _ _ _ Hspec _ _ Hw) as (_ & ? & _).
    + by eapply substitute_value_not_new_outvar.
  - right. split; [done|].
    assert (NoDup (invars (jaxpr raw_jaxpr))) as Hinvars.
    { unfold jaxpr_vars in Hssa. by apply NoDup_app in Hssa as (? & _). }
    assert (u ∉ old_grad_vars l) as Hold.
    { intros Hm%(old_grad_vars_minted _ _ _ _ Hspec).
      destruct (minted_not_in_jaxpr_vars _ _ _ _ Hspec _ Hm).
      by apply invars_jaxpr_vars. }
    split.
    + rewrite (ls_accumulate_old _ _ _ _ Hspec).
      intros [(i & Hi)%list_elem_of_lookup|?]%elem_of_app; [|done].
      destruct (accumulate_grad_invars_global _ _ _ _ Hspec Hinvars _ _ Hi)
        as (w & _ & Hw').
      congruence.
    + rewrite (ls_apply_old _ _ _ _ Hspec).
      intros [(i & Hi)%list_elem_of_lookup|Hin]%elem_of_app.
      * destruct (apply_grad_invars_global _ _ _ _ Hspec _ _ Hi)
          as (w & _ & Hw').
        congruence.
      * unfold jaxpr_vars in Hssa.
        apply NoDup_app in Hssa as (_ & Hdisj & _). apply (Hdisj u Hu).
        rewrite elem_of_app. right. rewrite (raw_outvars _ _ _ _ Hspec).
        rewrite !elem_of_app. auto.
Qed.

Lemma single_assignment_kept :
  num_grads l = 0 →
  (∀ v, v ∈ invars (jaxpr raw_jaxpr) → used_by (compute_grad_eqns l) v →
        ¬ used_by (apply_grad_eqns l) v) →
  NoDup (jaxpr_vars (jaxpr (combined_jaxpr l))).
Proof.
  intros Hn Hshared.
  assert (old_grad_vars l = []) as Hold.
  { apply nil_length_inv. by rewrite (length_old_grad_vars _ _ _ _ Hspec). }
  assert (new_grad_vars l = []) as Hnew.
  { apply nil_length_inv. by rewrite (length_new_grad_vars _ _ _ _ Hspec). }
  assert (inter_grad_vars l = []) as Hinter.
  { apply nil_length_inv. by rewrite (length_inter_grad_vars _ _ _ _ Hspec). }
  unfold jaxpr_vars. rewrite (combined_outvars _ _ _ _ Hspec).
  rewrite Hnew, Hinter, Hn, take_0. simpl.
  assert (constvars (jaxpr (combined_jaxpr l)) = constvars (jaxpr raw_jaxpr))
    as ->.
  { by rewrite (ls_combined_jaxpr _ _ _ _ Hspec). }
  assert (invars (jaxpr (combined_jaxpr l))
          = dict_get_default (global_invar_substitute l)
              <$> invars (jaxpr raw_jaxpr)) as ->.
  { rewrite (ls_combined_jaxpr _ _ _ _ Hspec). simpl.
    by rewrite Hold, app_nil_r. }
  pose proof Hssa as Hraw. unfold jaxpr_vars in Hraw.
  rewrite (raw_outvars _ _ _ _ Hspec) in Hraw.
  apply NoDup_app in Hraw as (HI & HIdisj & Hraw).
  apply NoDup_app in Hraw as (HC & HCdisj & Hraw).
  apply NoDup_app in Hraw as (H1 & H1disj & Hraw).
  apply NoDup_app in Hraw as (HG & HGdisj & H2).
  assert (∀ v, v ∈ new_outvars l → v ∉ jaxpr_vars (jaxpr raw_jaxpr)) as Hout.
  { intros v Hv%(new_outvars_minted _ _ _ _ Hspec).
    by apply (minted_not_in_jaxpr_vars _ _ _ _ Hspec). }
  unfold jaxpr_vars in Hout. rewrite (raw_outvars _ _ _ _ Hspec) in Hout.
  assert (∀ v, v ∈ accumulate_old_invars l →
               v ∈ invars (jaxpr raw_jaxpr)
               ∧ used_by (compute_grad_eqns l) v) as Hacc.
  { intros v. rewrite (ls_accumulate_old _ _ _ _ Hspec), Hold, app_nil_r.
    apply elem_of_filter_used_vars. }
  assert (∀ v, v ∈ apply_old_invars l →
               (v ∈ invars (jaxpr raw_jaxpr)
                ∧ used_by (apply_grad_eqns l) v) ∨ v ∈ in_grad_vars l)
    as Happ.
  { intros v. rewrite (ls_apply_old _ _ _ _ Hspec), elem_of_app.
    rewrite elem_of_filter_used_vars. tauto. }
  assert (∀ v, v ∈ minted (gensym_state l) →
               v ∉ invars (jaxpr raw_jaxpr) ++ constvars (jaxpr raw_jaxpr)
                 ++ (compute_grad_eqns l ≫= eqn_outvars) ++ in_grad_vars l
                 ++ (apply_grad_eqns l ≫= eqn_outvars)) as Hminted.
  { intros v Hv. rewrite <- (raw_outvars _ _ _ _ Hspec).
    by apply (minted_not_in_jaxpr_vars _ _ _ _ Hspec). }
  apply NoDup_app. split; [apply NoDup_renamed_invars|]. split.
  { intros v [[Hm Hno]|(Hv & Hno1 & Hno2)]%renamed_invar.
    - specialize (Hminted v Hm). rewrite !elem_of_app in Hminted.
      rewrite !elem_of_app.
      intros [?|[[? _]%Hacc|[?|[[[? _]|?]%Happ|[?|?]]]]]; tauto.
    - specialize (HIdisj v Hv). rewrite !elem_of_app in HIdisj.
      rewrite !elem_of_app.
      intros [?|[?|[?|[?|[?|?]]]]]; try tauto.
      specialize (Hout v). rewrite !elem_of_app in Hout. tauto. }
  apply NoDup_app. split; [done|]. split.
  { intros v Hv. specialize (HCdisj v Hv). rewrite !elem_of_app in HCdisj.
    rewrite !elem_of_app.
    intros [[Hi _]%Hacc|[?|[[[Hi _]|?]%Happ|[?|?]]]]; try tauto.
    - apply (HIdisj v Hi). rewrite !elem_of_app. auto.
    - apply (HIdisj v Hi). rewrite !elem_of_app. auto.
    - specialize (Hout v). rewrite !elem_of_app in Hout. tauto. }
  apply NoDup_app. split.
  { rewrite (ls_accumulate_old _ _ _ _ Hspec), Hold, app_nil_r.
    by apply NoDup_filter_used_vars. }
  split.
  { intros v [Hi Hused]%Hacc. specialize (HIdisj v Hi).
    rewrite !elem_of_app in HIdisj. rewrite !elem_of_app.
    intros [?|[[[_ Hused']|?]%Happ|[?|?]]]; try tauto.
    - by apply (Hshared v).
    - specialize (Hout v). rewrite !elem_of_app in Hout. tauto. }
  apply NoDup_app. split; [done|]. split.
  { intros v Hv. specialize (H1disj v Hv). rewrite !elem_of_app in H1disj.
    rewrite !elem_of_app.
    intros [[[Hi _]|?]%Happ|[?|?]]; try tauto.
    - apply (HIdisj v Hi). rewrite !elem_of_app. auto.
    - specialize (Hout v). rewrite !elem_of_app in Hout. tauto. }
  apply NoDup_app. split.
  { rewrite (ls_apply_old _ _ _ _ Hspec). apply NoDup_app.
    split; [by apply NoDup_filter_used_vars|]. split; [|done].
    intros v [Hi _]%elem_of_filter_used_vars Hg. apply (HIdisj v Hi).
    rewrite !elem_of_app. auto. }
  split.
  { intros v Hv. rewrite !elem_of_app.
    intros [H2'|Hnew']; apply Happ in Hv as [[Hi _]|Hg].
    - apply (HIdisj v Hi). rewrite !elem_of_app. auto.
    - by apply (HGdisj v Hg).
    - specialize (Hout v). rewrite !elem_of_app in Hout. tauto.
    - specialize (Hout v). rewrite !elem_of_app in Hout. tauto. }
  apply NoDup_app. split; [done|]. split.
  { intros v Hv Hnew'. specialize (Hout v). rewrite !elem_of_app in Hout.
    tauto. }
  destruct (ls_rename _ _ _ _ Hspec) as (g & _ & -> & _).
  apply NoDup_fresh_vars.
Qed.

End single_assignment_kept.

Section single_assignment_properties.
Variable APPLY_GRAD_MARKER_SUFFIX : string.
Implicit Types (raw_jaxpr : ClosedJaxpr) (num_micro_batches : Z).

(** X6: the two ways in which the source says the combined program
    leaves single-assignment form are the only ones.  For a program in
    single-assignment form, the variables that the combined program binds
    (its inputs, its constants and the outputs of its equations) are
    pairwise distinct exactly when the gradient marker takes no gradient
    (each gradient is bound by the start marker of the apply-grad region
    and again by its division) and no program input is read on both sides
    of the marker (such an input is bound by the start markers of both
    regions). *)
Theorem combined_single_assignment raw_jaxpr num_micro_batches l :
  add_gradient_accumulation_locals APPLY_GRAD_MARKER_SUFFIX raw_jaxpr
    num_micro_batches = Ok l →
  NoDup (jaxpr_vars (jaxpr raw_jaxpr)) →
  NoDup (jaxpr_vars (jaxpr (combined_jaxpr l)))
  ↔ num_grads l = 0
    ∧ ∀ v, v ∈ invars (jaxpr raw_jaxpr) →
           used_by (compute_grad_eqns l) v → ¬ used_by (apply_grad_eqns l) v.
Proof.
  intros [Hspec _]%add_gradient_accumulation_locals_spec Hssa. split.
  - intros Hnd. unfold jaxpr_vars in Hnd.
    do 2 apply NoDup_app in Hnd as (_ & _ & Hnd). split.
    + destruct (decide (num_grads l = 0)) as [|Hn]; [done|].
      by destruct (gradient_bound_twice _ _ _ _ Hspec Hn).
    + intros v Hv H1 H2.
      by destruct (shared_input_bound_twice _ _ _ _ Hspec v Hv H1 H2).
  - intros [Hn Hshared]. by eapply single_assignment_kept.
Qed.

End single_assignment_properties.

(** ** The microbatch count and the type of the markers *)

Section micro_batch_count.
Variable APPLY_GRAD_MARKER_SUFFIX : string.
Implicit Types (raw_jaxpr : ClosedJaxpr) (num_micro_batches : Z).

(** The record that the function returns is built from the results of
    its loops. *)
Lemma add_gradient_accumulation_locals_inv raw_jaxpr num_micro_batches l :
  add_gradient_accumulation_locals APPLY_GRAD_MARKER_SUFFIX raw_jaxpr
    num_micro_batches = Ok l →
  ∃ p e new d g i1 i2,
    l = build_locals APPLY_GRAD_MARKER_SUFFIX raw_jaxpr num_micro_batches
          p e new d g i1 i2
    ∧ find_grad_marker (eqns (jaxpr raw_jaxpr)) 0 = Ok (Some (p, e))
    ∧ rename_rel (list_to_set (invars (jaxpr raw_jaxpr)))
        (in_grad_vars l) (inter_grad_vars l) (apply_old_invars l)
        (dict_update_zip ∅ (accumulate_old_invars l)
           (accumulate_grad_invars l))
        (gensym_before_apply raw_jaxpr l) new d g
    ∧ num_grads l ≤ length (apply_old_invars l)
    ∧ invar_indices (invars (jaxpr (combined_jaxpr l)))
        (accumulate_grad_invars l) (num_grads l) = Ok i1
    ∧ invar_indices (invars (jaxpr (combined_jaxpr l)))
        (apply_grad_invars l) (num_grads l) = Ok i2.
Proof.
  unfold add_gradient_accumulation_locals. intros H.
  apply bind_Ok in H as (found & Hfind & H).
  destruct found as [[p e]|]; [|done].
  cbv zeta in H.
  do 3 (rewrite clone_vars_eq in H; cbv beta iota zeta in H;
        cbn [counter minted] in H).
  rewrite accumulation_eqns_eq in H
    by (by rewrite length_fresh_vars, length_fmap).
  cbn [mbind Result_bind] in H.
  rewrite clone_vars_eq in H; cbv beta iota zeta in H;
    cbn [counter minted] in H.
  apply bind_Ok in H as ([[new d'] g4] & Hren & H).
  apply bind_Ok in H as (divs & [Hn ->]%reduction_eqns_Ok & H).
  rewrite clone_vars_eq in H; cbv beta iota zeta in H.
  apply bind_Ok in H as (i1 & Hi1 & H).
  apply bind_Ok in H as (i2 & Hi2 & H).
  injection H as <-.
  apply rename_apply_invars_Ok in Hren.
  exists p, e, new, d', g4, i1, i2.
  split; [unfold build_locals; by rewrite <- !app_assoc|].
  split; [done|]. split.
  { unfold gensym_before_apply. simpl.
    rewrite gensym_minted, app_nil_l, <- !app_assoc in Hren. exact Hren. }
  split; [done|]. split; done.
Qed.

(** X7: the microbatch count is only written down as the divisor of
    the divisions and is never looked at: whether the function returns
    does not depend on it, a zero or negative count included, and the
    programs it returns for two counts have the same inputs and outputs,
    come with the same index lists and number of gradients, and differ in
    the [num_grads] divisions alone. *)
Theorem micro_batch_count_only_divides raw_jaxpr num_micro_batches
    num_micro_batches' l :
  add_gradient_accumulation_locals APPLY_GRAD_MARKER_SUFFIX raw_jaxpr
    num_micro_batches = Ok l →
  ∃ l',
    add_gradient_accumulation_locals APPLY_GRAD_MARKER_SUFFIX raw_jaxpr
      num_micro_batches' = Ok l'
    ∧ num_grads l' = num_grads l
    ∧ accumulate_grad_invar_indices l' = accumulate_grad_invar_indices l
    ∧ apply_grad_invar_indices l' = apply_grad_invar_indices l
    ∧ invars (jaxpr (combined_jaxpr l')) = invars (jaxpr (combined_jaxpr l))
    ∧ outvars (jaxpr (combined_jaxpr l'))
      = outvars (jaxpr (combined_jaxpr l))
    ∧ eqns (jaxpr (combined_jaxpr l'))
      = take (marker_pos l + num_grads l + 3)
          (eqns (jaxpr (combined_jaxpr l)))
        ++ div_eqns num_micro_batches' l
        ++ drop (marker_pos l + 2 * num_grads l + 3)
             (eqns (jaxpr (combined_jaxpr l))).
Proof.
  intros Hl.
  pose proof Hl as [Hspec _]%add_gradient_accumulation_locals_spec.
  destruct (add_gradient_accumulation_locals_inv _ _ _ Hl)
    as (p & e & new & d & g & i1 & i2 & Heq & Hfind & Hren & Hn & Hi1 & Hi2).
  set (l' := build_locals APPLY_GRAD_MARKER_SUFFIX raw_jaxpr
               num_micro_batches' p e new d g i1 i2).
  exists l'. rewrite Heq in Hren, Hn, Hi1, Hi2.
  split.
  { by apply add_gradient_accumulation_locals_build. }
  rewrite Heq at 1 2 3 4 5.
  split; [done|]. split; [done|]. split; [done|]. split; [done|].
  split; [done|].
  assert (length (compute_grad_eqns l) = marker_pos l) as Hcompute.
  { rewrite (ls_compute _ _ _ _ Hspec), length_take.
    destruct (marker_found _ _ _ _ Hspec) as (Hm%lookup_lt_Some & _). lia. }
  pose proof (length_accumulation_eqns _ _ _ _ Hspec) as Hadds.
  pose proof (length_div_eqns _ _ _ _ Hspec) as Hdivs.
  set (pre := [accumulate_start_marker l] ++ compute_grad_eqns l
         ++ add_eqns (old_grad_vars l) (out_grad_vars l) (new_grad_vars l)
         ++ [accumulate_end_marker l]
         ++ [apply_start_marker APPLY_GRAD_MARKER_SUFFIX l]).
  set (post := apply_grad_eqns l
         ++ [apply_end_marker APPLY_GRAD_MARKER_SUFFIX raw_jaxpr l]).
  assert (length pre = marker_pos l + num_grads l + 3) as Hpre.
  { unfold pre. rewrite !length_app. simpl. lia. }
  assert (eqns (jaxpr (combined_jaxpr l))
          = pre ++ div_eqns num_micro_batches l ++ post) as Hcombined.
  { rewrite (ls_combined_jaxpr _ _ _ _ Hspec). simpl.
    rewrite (ls_combined_eqns _ _ _ _ Hspec). unfold pre, post.
    by rewrite <- !app_assoc. }
  rewrite Hcombined, <- Hpre, take_app_length.
  replace (marker_pos l + 2 * num_grads l + 3)
    with (length pre + length (div_eqns num_micro_batches l)) by lia.
  rewrite <- drop_drop, drop_app_length, drop_app_length.
  unfold pre, post, l'. rewrite Heq. simpl. by rewrite <- !app_assoc.
Qed.

(** X8: a marker without type that comes before any gradient marker,
    the markers before it carrying their type, stops the search: the
    function raises [KeyError] on ["mark_type"]. *)
Theorem marker_without_type_raises raw_jaxpr num_micro_batches k e :
  eqns (jaxpr raw_jaxpr) !! k = Some e → primitive e = pipeline_p →
  params e !! "mark_type" = None →
  (∀ j e', j < k → eqns (jaxpr raw_jaxpr) !! j = Some e' →
           has_mark_type e' ∧ ¬ grad_marker e') →
  add_gradient_accumulation APPLY_GRAD_MARKER_SUFFIX raw_jaxpr
    num_micro_batches = Raise (KeyError "mark_type").
Proof.
  intros Hk Hp Hm Hlt.
  unfold add_gradient_accumulation, add_gradient_accumulation_locals.
  by rewrite (find_grad_marker_KeyError _ 0 _ _ Hk Hp Hm Hlt).
Qed.

(** The renaming loop stops on the first output of the gradient marker
    that has no input to go with. *)
Lemma rename_apply_invars_IndexError (GI : gset Var) (ing inter : list Var)
    (k : nat) (d : gmap Var Var) (g : GensymState) :
  NoDup ing → (∀ v, v ∈ ing → v ∉ GI) →
  k ≤ length inter → length inter < length ing →
  rename_apply_invars GI ing inter (drop k ing) d g = Raise IndexError.
Proof.
  intros Hnd Hlocal Hk Hlen.
  remember (length inter - k) as m eqn:Hm. revert k Hk Hm.
  induction m as [|m IH]; intros k Hk Hm.
  - destruct (lookup_lt_is_Some_2 ing k) as [x Hx]; [lia|].
    rewrite (drop_S _ _ _ Hx). simpl.
    rewrite decide_False by (apply Hlocal; by eapply list_elem_of_lookup_2).
    rewrite (index_NoDup _ _ _ Hnd Hx). simpl. unfold getitem.
    by rewrite lookup_ge_None_2 by lia.
  - destruct (lookup_lt_is_Some_2 ing k) as [x Hx]; [lia|].
    rewrite (drop_S _ _ _ Hx). simpl.
    rewrite decide_False by (apply Hlocal; by eapply list_elem_of_lookup_2).
    rewrite (index_NoDup _ _ _ Hnd Hx). simpl. unfold getitem.
    destruct (lookup_lt_is_Some_2 inter k) as [v ->]; [lia|]. simpl.
    rewrite (IH (S k)) by lia. done.
Qed.

Lemma rename_apply_invars_global_prefix (GI : gset Var)
    (ing inter used rest : list Var) (exn : Exception) :
  (∀ v, v ∈ used → v ∈ GI) →
  (∀ d g, rename_apply_invars GI ing inter rest d g = Raise exn) →
  ∀ d g, rename_apply_invars GI ing inter (used ++ rest) d g = Raise exn.
Proof.
  intros Hglobal Hrest. induction used as [|var used IH]; intros d g;
    [apply Hrest|].
  simpl. rewrite decide_True by (apply Hglobal; left).
  assert (∀ v, v ∈ used → v ∈ GI) as Hused
    by (intros v Hv; apply Hglobal; by right).
  destruct (d !! var); simpl; by rewrite IH.
Qed.

(** X9: the arity of the gradient marker is not checked beforehand.  A
    first gradient marker with more outputs than inputs, its outputs
    pairwise distinct and none of them a program input, makes the renaming
    loop of the apply-grad region raise [IndexError], on the first output
    that has no gradient to stand for. *)
Theorem marker_with_more_outputs_raises raw_jaxpr num_micro_batches p
    marker :
  eqns (jaxpr raw_jaxpr) !! p = Some marker → grad_marker marker →
  (∀ k e, k < p → eqns (jaxpr raw_jaxpr) !! k = Some e →
          has_mark_type e ∧ ¬ grad_marker e) →
  NoDup (eqn_outvars marker) →
  (∀ v, v ∈ eqn_outvars marker → v ∉ invars (jaxpr raw_jaxpr)) →
  length (eqn_invars marker) < length (eqn_outvars marker) →
  add_gradient_accumulation APPLY_GRAD_MARKER_SUFFIX raw_jaxpr
    num_micro_batches = Raise IndexError.
Proof.
  intros Hp Hmarker Hfirst Hnd Hlocal Hlen.
  pose proof (find_grad_marker_prefix _ 0 _ _ Hp Hmarker Hfirst) as Hfind.
  unfold add_gradient_accumulation, add_gradient_accumulation_locals.
  rewrite Hfind. cbn [mbind Result_bind]. cbv zeta.
  do 3 (rewrite clone_vars_eq; cbv beta iota zeta; cbn [counter minted]).
  rewrite accumulation_eqns_eq by (by rewrite length_fresh_vars, length_fmap).
  cbn [mbind Result_bind].
  rewrite clone_vars_eq; cbv beta iota zeta; cbn [counter minted].
  rewrite rename_apply_invars_global_prefix with (exn := IndexError); [done|..].
  - intros v [Hv _]%elem_of_filter_used_vars. by apply elem_of_list_to_set.
  - intros d g. rewrite <- (drop_0 (eqn_outvars marker)) at 2.
    apply rename_apply_invars_IndexError; [done| |lia|].
    + intros v Hv Hin%elem_of_list_to_set. by apply (Hlocal v).
    + by rewrite length_fresh_vars, length_fmap.
Qed.

End micro_batch_count.

(** * [shard_parallel_internal_gradient_accumulation] *)

(** [l[-n:]] for [0 <= n]; [-0] is [0], so [l[-0:]] is [l[0:]]. *)
Definition slice_from_neg {A} (l : list A) (n : nat) : list A :=
  match n with
  | 0 => drop 0 l
  | S _ => drop (length l - n) l
  end.

(** [s.endswith(suffix)] *)
Definition endswith (s suffix : string) : bool :=
  bool_decide (String.list_ascii_of_string suffix
                 `suffix_of` String.list_ascii_of_string s).

Section shard_parallel_internal_gradient_accumulation.
(** [alpa.pipeline_parallel.apply_grad.APPLY_GRAD_MARKER_SUFFIX]. *)
Variable APPLY_GRAD_MARKER_SUFFIX : string.
(** The HLO modules that [run_auto_sharding_pass] returns, and the
    logical meshes it chooses from. *)
Context {HloProto LogicalDeviceMesh : Type}.

(** An XLA computation as the function prepares it: the HLO module given
    to [xc.XlaComputation] and the donation flags given with it to
    [setup_computation_alias]. *)
Record XlaComputation := mkXlaComputation {
  hlo_proto : HloProto;
  tmp_donate_invars : list bool
}.

(** The arguments of [GradAccMeshDriverExecutable] that the function
    computes; [physical_mesh], [strategy_config] and [batch_invars] are
    handed over as received, and [flop_count] comes from XLA. *)
Record GradAccMeshDriverExecutable := mkGradAccMeshDriverExecutable {
  accumulate_grad : XlaComputation;
  apply_grad : XlaComputation;
  in_avals : list ShapedArray;
  out_avals : list ShapedArray;
  grad_avals : list ShapedArray;
  donated_invars : list bool;
  executable_accumulate_grad_invar_indices : list nat;
  executable_apply_grad_invar_indices : list nat;
  executable_num_micro_batches : Z
}.

(** The function from the traced program on: [closed_jaxpr] is what
    [trace_jaxpr_with_micro_batch] returned, [hlo_proto_names] and
    [hlo_protos] what [run_auto_sharding_pass] returned for the combined
    program and [logical_mesh_choices[0]]. *)
Definition shard_parallel_internal_gradient_accumulation
    (donated_invars : list bool) (num_micro_batches : Z)
    (closed_jaxpr : ClosedJaxpr)
    (logical_mesh_choices : list LogicalDeviceMesh)
    (hlo_proto_names : list string) (hlo_protos : list HloProto)
  : Result GradAccMeshDriverExecutable :=
  '(closed_jaxpr, accumulate_grad_invar_indices, apply_grad_invar_indices,
    num_grads) ←
    add_gradient_accumulation APPLY_GRAD_MARKER_SUFFIX closed_jaxpr
      num_micro_batches;
  let in_avals :=
    aval <$> slice_until_neg (invars (jaxpr closed_jaxpr)) num_grads in
  let out_avals := get_aval <$> outvars (jaxpr closed_jaxpr) in
  let grad_avals :=
    aval <$> slice_from_neg (invars (jaxpr closed_jaxpr)) num_grads in
  let donated_invars := donated_invars ++ replicate num_grads false in
  logical_mesh ← getitem logical_mesh_choices 0;
  if decide (length hlo_protos = 2) then
    name ← getitem hlo_proto_names 0;
    '(hlo_proto_names, hlo_protos) ←
      (if endswith name APPLY_GRAD_MARKER_SUFFIX then
         name1 ← getitem hlo_proto_names 1;
         proto1 ← getitem hlo_protos 1;
         name0 ← getitem hlo_proto_names 0;
         proto0 ← getitem hlo_protos 0;
         Ok (<[1 := name0]> (<[0 := name1]> hlo_proto_names),
             <[1 := proto0]> (<[0 := proto1]> hlo_protos))
       else Ok (hlo_proto_names, hlo_protos));
    name ← getitem hlo_proto_names 1;
    if endswith name APPLY_GRAD_MARKER_SUFFIX then
      accumulate_grad ← getitem hlo_protos 0;
      apply_grad ← getitem hlo_protos 1;
      (* donate old_grad to make the gradient accumulation in-place *)
      let tmp_donate_invars :=
        replicate (length accumulate_grad_invar_indices) false
          ++ replicate num_grads true in
      let accumulate_grad :=
        mkXlaComputation accumulate_grad tmp_donate_invars in
      (* donate old opt_state and params to make the weight update
         in-place *)
      flags ← mapM (getitem donated_invars) apply_grad_invar_indices;
      let tmp_donate_invars := flags ++ replicate num_grads false in
      let apply_grad := mkXlaComputation apply_grad tmp_donate_invars in
      Ok (mkGradAccMeshDriverExecutable accumulate_grad apply_grad in_avals
            out_avals grad_avals donated_invars
            accumulate_grad_invar_indices apply_grad_invar_indices
            num_micro_batches)
    else Raise (AssertionError "")
  else Raise (AssertionError "").

End shard_parallel_internal_gradient_accumulation.

Section shard_parallel_internal_gradient_accumulation_facts.
Variable APPLY_GRAD_MARKER_SUFFIX : string.
Context {HloProto LogicalDeviceMesh : Type}.
Implicit Types (donated : list bool) (closed_jaxpr : ClosedJaxpr)
  (choices : list LogicalDeviceMesh)
  (names : list string) (protos : list HloProto)
  (exe : @GradAccMeshDriverExecutable HloProto).

(** What the function returns, when it does. *)
Definition executable_of donated (num_micro_batches : Z) (l : Locals)
    (name0 : string) (proto0 proto1 : HloProto) (flags : list bool)
  : @GradAccMeshDriverExecutable HloProto :=
  let swap := endswith name0 APPLY_GRAD_MARKER_SUFFIX in
  mkGradAccMeshDriverExecutable
    (mkXlaComputation (if swap then proto1 else proto0)
       (replicate (length (accumulate_grad_invar_indices l)) false
          ++ replicate (num_grads l) true))
    (mkXlaComputation (if swap then proto0 else proto1)
       (flags ++ replicate (num_grads l) false))
    (aval <$> slice_until_neg (invars (jaxpr (combined_jaxpr l)))
                (num_grads l))
    (get_aval <$> outvars (jaxpr (combined_jaxpr l)))
    (aval <$> slice_from_neg (invars (jaxpr (combined_jaxpr l)))
                (num_grads l))
    (donated ++ replicate (num_grads l) false)
    (accumulate_grad_invar_indices l) (apply_grad_invar_indices l)
    num_micro_batches.

Lemma shard_parallel_internal_gradient_accumulation_Ok donated
    num_micro_batches closed_jaxpr choices names protos exe :
  shard_parallel_internal_gradient_accumulation APPLY_GRAD_MARKER_SUFFIX
    donated num_micro_batches closed_jaxpr choices names protos = Ok exe ↔
  ∃ l name0 name1 proto0 proto1 flags,
    add_gradient_accumulation_locals APPLY_GRAD_MARKER_SUFFIX closed_jaxpr
      num_micro_batches = Ok l
    ∧ choices ≠ []
    ∧ names !! 0 = Some name0 ∧ names !! 1 = Some name1
    ∧ protos = [proto0; proto1]
    ∧ (endswith name0 APPLY_GRAD_MARKER_SUFFIX
       ∨ endswith name1 APPLY_GRAD_MARKER_SUFFIX)
    ∧ mapM (getitem (donated ++ replicate (num_grads l) false))
        (apply_grad_invar_indices l) = Ok flags
    ∧ exe = executable_of donated num_micro_batches l name0 proto0 proto1
              flags.
Proof.
  unfold shard_parallel_internal_gradient_accumulation. split.
  - intros ([[[cj i1] i2] n] & Haga & Hrest)%bind_Ok.
    apply add_gradient_accumulation_Ok in Haga as (l & Hl & -> & -> & -> & ->).
    apply bind_Ok in Hrest as (mesh & Hmesh%getitem_Ok & Hrest).
    assert (choices ≠ []) as Hchoices by (by intros ->).
    case_decide as Hlen; [|done].
    destruct protos as [|proto0 [|proto1 [|? ?]]]; try done.
    apply bind_Ok in Hrest as (name0 & Hname0%getitem_Ok & Hrest).
    exists l, name0.
    destruct (endswith name0 APPLY_GRAD_MARKER_SUFFIX) eqn:Hswap.
    + apply bind_Ok in Hrest as ([names' protos'] & Hswapped & Hrest).
      apply bind_Ok in Hswapped as (name1 & Hname1%getitem_Ok & Hswapped).
      simpl in Hswapped.
      apply bind_Ok in Hswapped as (name0' & Hname0'%getitem_Ok & Hswapped).
      injection Hswapped as <- <-.
      rewrite Hname0 in Hname0'. injection Hname0' as <-.
      apply bind_Ok in Hrest as (name & Hname%getitem_Ok & Hrest).
      assert (name = name0) as ->.
      { destruct names as [|a [|b names]]; simpl in *; congruence. }
      rewrite Hswap in Hrest. simpl in Hrest.
      apply bind_Ok in Hrest as (flags & Hflags & [= <-]).
      exists name1, proto0, proto1, flags.
      unfold executable_of. rewrite Hswap. repeat split; auto.
    + simpl in Hrest.
      apply bind_Ok in Hrest as (name1 & Hname1%getitem_Ok & Hrest).
      destruct (endswith name1 APPLY_GRAD_MARKER_SUFFIX) eqn:Hname; [|done].
      simpl in Hrest. apply bind_Ok in Hrest as (flags & Hflags & [= <-]).
      exists name1, proto0, proto1, flags.
      unfold executable_of. rewrite Hswap, Hname. repeat split; auto.
  - intros (l & name0 & name1 & proto0 & proto1 & flags & Hl & Hchoices
            & Hname0 & Hname1 & -> & Hends & Hflags & ->).
    destruct choices as [|mesh choices]; [done|].
    assert (add_gradient_accumulation APPLY_GRAD_MARKER_SUFFIX closed_jaxpr
              num_micro_batches
            = Ok (combined_jaxpr l, accumulate_grad_invar_indices l,
                  apply_grad_invar_indices l, num_grads l)) as ->.
    { apply add_gradient_accumulation_Ok. by exists l. }
    apply getitem_Ok in Hname0 as Hg0. apply getitem_Ok in Hname1 as Hg1.
    simpl. rewrite Hg0. simpl. unfold executable_of.
    destruct (endswith name0 APPLY_GRAD_MARKER_SUFFIX) eqn:Hswap.
    + rewrite Hg1. simpl.
      assert (getitem (<[1:=name0]> (<[0:=name1]> names)) 1 = Ok name0) as ->.
      { apply getitem_Ok.
        destruct names as [|a [|b names]]; simpl in *; congruence. }
      simpl. rewrite Hswap. simpl. by rewrite Hflags.
    + simpl. rewrite Hg1. simpl.
      destruct Hends as [[]|Hends].
      apply Is_true_true in Hends. rewrite Hends. simpl. by rewrite Hflags.
Qed.

End shard_parallel_internal_gradient_accumulation_facts.

Section combined_invars_facts.
Variable APPLY_GRAD_MARKER_SUFFIX : string.
Context (raw_jaxpr : ClosedJaxpr) (num_micro_batches : Z) (l : Locals).
Hypothesis Hspec :
  locals_spec APPLY_GRAD_MARKER_SUFFIX raw_jaxpr num_micro_batches l.

Lemma aval_dict_get_default v :
  aval (dict_get_default (global_invar_substitute l) v) = aval v.
Proof.
  unfold dict_get_default.
  destruct (global_invar_substitute l !! v) as [w|] eqn:Hw; [|done]. simpl.
  by destruct (substitute_entry _ _ _ _ Hspec _ _ Hw) as (_ & _ & ?).
Qed.

Lemma aval_renamed_invars (vs : list Var) :
  aval <$> (dict_get_default (global_invar_substitute l) <$> vs)
  = aval <$> vs.
Proof.
  rewrite <- list_fmap_compose. apply list_fmap_ext.
  intros i v _. apply aval_dict_get_default.
Qed.

Lemma take_combined_invars :
  take (length (invars (jaxpr raw_jaxpr))) (invars (jaxpr (combined_jaxpr l)))
  = dict_get_default (global_invar_substitute l) <$> invars (jaxpr raw_jaxpr).
Proof.
  rewrite (combined_invars _ _ _ _ Hspec).
  rewrite take_app_le by (by rewrite length_fmap).
  apply take_ge. by rewrite length_fmap.
Qed.

Lemma drop_combined_invars :
  drop (length (invars (jaxpr raw_jaxpr))) (invars (jaxpr (combined_jaxpr l)))
  = drop (length (filter_used_vars (invars (jaxpr raw_jaxpr))
                    (compute_grad_eqns l)))
      (accumulate_grad_invars l).
Proof.
  rewrite (combined_invars _ _ _ _ Hspec).
  rewrite drop_app_ge by (by rewrite length_fmap).
  by rewrite length_fmap, Nat.sub_diag.
Qed.

Lemma aval_accumulators :
  aval <$> drop (length (filter_used_vars (invars (jaxpr raw_jaxpr))
                           (compute_grad_eqns l)))
             (accumulate_grad_invars l)
  = get_aval <$> eqn_invars (marker_eqn l).
Proof.
  rewrite fmap_drop, (aval_accumulate_grad_invars _ _ _ _ Hspec).
  rewrite (ls_accumulate_old _ _ _ _ Hspec), fmap_app.
  rewrite drop_app_length' by (by rewrite length_fmap).
  by rewrite (aval_old_grad_vars _ _ _ _ Hspec), (ls_out _ _ _ _ Hspec).
Qed.

Lemma slice_until_neg_combined_invars :
  num_grads l ≠ 0 →
  slice_until_neg (invars (jaxpr (combined_jaxpr l))) (num_grads l)
  = dict_get_default (global_invar_substitute l) <$> invars (jaxpr raw_jaxpr).
Proof.
  intros Hn. rewrite slice_until_neg_pos by done.
  rewrite (length_combined_invars _ _ _ _ Hspec).
  replace (length (invars (jaxpr raw_jaxpr)) + num_grads l - num_grads l)
    with (length (invars (jaxpr raw_jaxpr))) by lia.
  apply take_combined_invars.
Qed.

Lemma slice_from_neg_pos {A} (xs : list A) (n : nat) :
  n ≠ 0 → slice_from_neg xs n = drop (length xs - n) xs.
Proof. by destruct n. Qed.

Lemma slice_from_neg_combined_invars :
  num_grads l ≠ 0 →
  slice_from_neg (invars (jaxpr (combined_jaxpr l))) (num_grads l)
  = drop (length (filter_used_vars (invars (jaxpr raw_jaxpr))
                    (compute_grad_eqns l)))
      (accumulate_grad_invars l).
Proof.
  intros Hn. rewrite slice_from_neg_pos by done.
  rewrite (length_combined_invars _ _ _ _ Hspec).
  replace (length (invars (jaxpr raw_jaxpr)) + num_grads l - num_grads l)
    with (length (invars (jaxpr raw_jaxpr))) by lia.
  apply drop_combined_invars.
Qed.

Lemma combined_outvars_avals :
  get_aval <$> outvars (jaxpr (combined_jaxpr l))
  = get_aval <$> outvars (jaxpr raw_jaxpr).
Proof.
  rewrite (ls_combined_jaxpr _ _ _ _ Hspec). simpl.
  by rewrite get_aval_AVar, (aval_new_outvars _ _ _ _ Hspec).
Qed.

End combined_invars_facts.

(** ** The inputs of the combined program *)

Section renamed_inputs.
Variable APPLY_GRAD_MARKER_SUFFIX : string.
Implicit Types (raw_jaxpr : ClosedJaxpr) (num_micro_batches : Z).

(** X10: the inputs of the program keep their positions in the combined
    program, and, among pairwise distinct inputs, those that a region
    takes are the ones renamed: an input read by an operation before or
    after the gradient marker (or bound by the marker) is replaced by a
    minted variable of the same abstract value, and any other input stays
    under its own name. *)
Theorem inputs_renamed_iff_used raw_jaxpr num_micro_batches l i v :
  add_gradient_accumulation_locals APPLY_GRAD_MARKER_SUFFIX raw_jaxpr
    num_micro_batches = Ok l →
  NoDup (invars (jaxpr raw_jaxpr)) →
  invars (jaxpr raw_jaxpr) !! i = Some v →
  let taken := used_by (compute_grad_eqns l) v
               ∨ used_by (apply_grad_eqns l) v ∨ v ∈ in_grad_vars l in
  ∃ w, invars (jaxpr (combined_jaxpr l)) !! i = Some w
       ∧ aval w = aval v
       ∧ (taken → w ∈ minted (gensym_state l) ∧ w ≠ v)
       ∧ (¬ taken → w = v).
Proof.
  intros [Hspec _]%add_gradient_accumulation_locals_spec Hinvars Hi taken.
  apply list_elem_of_lookup_2 in Hi as Hv.
  exists (dict_get_default (global_invar_substitute l) v).
  split.
  { rewrite (combined_invars _ _ _ _ Hspec).
    rewrite lookup_app_l
      by (rewrite length_fmap; by eapply lookup_lt_Some).
    by rewrite list_lookup_fmap, Hi. }
  split; [apply (aval_dict_get_default _ _ _ _ Hspec)|].
  assert (taken ↔ is_Some (global_invar_substitute l !! v)) as Htaken.
  { unfold taken. split.
    - intros [Hused|[Hused|Hin]].
      + assert (v ∈ filter_used_vars (invars (jaxpr raw_jaxpr))
                      (compute_grad_eqns l)) as (j & Hj)%list_elem_of_lookup
          by (by apply elem_of_filter_used_vars).
        destruct (accumulate_grad_invars_global _ _ _ _ Hspec Hinvars _ _ Hj)
          as (w & _ & Hw).
        by eexists.
      + assert (v ∈ filter_used_vars (invars (jaxpr raw_jaxpr))
                      (apply_grad_eqns l)) as (j & Hj)%list_elem_of_lookup
          by (by apply elem_of_filter_used_vars).
        destruct (apply_grad_invars_global _ _ _ _ Hspec _ _ Hj)
          as (w & _ & Hw).
        by eexists.
      + destruct (ls_rename _ _ _ _ Hspec) as (g & Hren & _).
        assert (v ∈ apply_old_invars l) as (j & Hj)%list_elem_of_lookup.
        { rewrite (ls_apply_old _ _ _ _ Hspec). apply elem_of_app. by right. }
        destruct (rename_rel_global _ _ _ _ _ _ _ _ _ _ _ Hren Hj)
          as (w & _ & Hw); [by apply elem_of_list_to_set|].
        by eexists.
    - intros [w Hw].
      destruct (substitute_key _ _ _ _ Hspec _ _ Hw) as [Hacc|Happ].
      + rewrite (ls_accumulate_old _ _ _ _ Hspec) in Hacc.
        apply elem_of_app in Hacc as [Hacc|Hold].
        * left. by apply elem_of_filter_used_vars in Hacc as [_ ?].
        * apply (old_grad_vars_minted _ _ _ _ Hspec) in Hold.
          destruct (minted_not_in_jaxpr_vars _ _ _ _ Hspec _ Hold).
          by apply invars_jaxpr_vars.
      + rewrite (ls_apply_old _ _ _ _ Hspec) in Happ.
        apply elem_of_app in Happ as [Happ|Hin].
        * right. left. by apply elem_of_filter_used_vars in Happ as [_ ?].
        * by do 2 right. }
  unfold dict_get_default. split.
  - intros [w Hw]%Htaken. rewrite Hw. simpl.
    destruct (substitute_entry _ _ _ _ Hspec _ _ Hw) as (_ & Hm & _).
    split; [done|]. intros ->.
    destruct (minted_not_in_jaxpr_vars _ _ _ _ Hspec _ Hm).
    by apply invars_jaxpr_vars.
  - intros Hno. destruct (global_invar_substitute l !! v) eqn:Hw; [|done].
    destruct Hno. apply Htaken. by eexists.
Qed.

End renamed_inputs.

Section shard_parallel_internal_gradient_accumulation_properties.
Variable APPLY_GRAD_MARKER_SUFFIX : string.
Context {HloProto LogicalDeviceMesh : Type}.
Implicit Types (donated : list bool) (raw_jaxpr : ClosedJaxpr)
  (num_micro_batches : Z) (choices : list LogicalDeviceMesh)
  (names : list string) (protos : list HloProto)
  (exe : @GradAccMeshDriverExecutable HloProto).

Lemma executable_inv donated num_micro_batches raw_jaxpr choices names
    protos exe l :
  add_gradient_accumulation_locals APPLY_GRAD_MARKER_SUFFIX raw_jaxpr
    num_micro_batches = Ok l →
  shard_parallel_internal_gradient_accumulation APPLY_GRAD_MARKER_SUFFIX
    donated num_micro_batches raw_jaxpr choices names protos = Ok exe →
  ∃ name0 proto0 proto1 flags,
    mapM (getitem (donated ++ replicate (num_grads l) false))
      (apply_grad_invar_indices l) = Ok flags
    ∧ exe = executable_of APPLY_GRAD_MARKER_SUFFIX donated num_micro_batches
              l name0 proto0 proto1 flags.
Proof.
  intros Hl (l' & name0 & name1 & proto0 & proto1 & flags & Hl' & _ & _ & _
             & _ & _ & Hflags
             & ->)%shard_parallel_internal_gradient_accumulation_Ok.
  rewrite Hl in Hl'. injection Hl' as <-. by exists name0, proto0, proto1, flags.
Qed.

(** X11: with at least one gradient, the abstract values that the
    function hands to the executable are those of the traced program: the
    input ones are the abstract values of its inputs, in order, the
    gradient ones those of the inputs of the gradient marker, and the
    output ones those of its outputs. *)
Theorem executable_avals donated num_micro_batches raw_jaxpr choices names
    protos exe l :
  add_gradient_accumulation_locals APPLY_GRAD_MARKER_SUFFIX raw_jaxpr
    num_micro_batches = Ok l →
  shard_parallel_internal_gradient_accumulation APPLY_GRAD_MARKER_SUFFIX
    donated num_micro_batches raw_jaxpr choices names protos = Ok exe →
  num_grads l ≠ 0 →
  in_avals exe = aval <$> invars (jaxpr raw_jaxpr)
  ∧ grad_avals exe = get_aval <$> eqn_invars (marker_eqn l)
  ∧ out_avals exe = get_aval <$> outvars (jaxpr raw_jaxpr)
  ∧ length (in_avals exe) + length (grad_avals exe)
    = length (invars (jaxpr (combined_jaxpr l))).
Proof.
  intros Hl Hexe Hn.
  destruct (executable_inv _ _ _ _ _ _ _ _ Hl Hexe)
    as (name0 & proto0 & proto1 & flags & _ & ->).
  apply add_gradient_accumulation_locals_spec in Hl as [Hspec _].
  unfold executable_of. simpl.
  rewrite (slice_until_neg_combined_invars _ _ _ _ Hspec Hn),
    (slice_from_neg_combined_invars _ _ _ _ Hspec Hn),
    (aval_renamed_invars _ _ _ _ Hspec), (aval_accumulators _ _ _ _ Hspec),
    (combined_outvars_avals _ _ _ _ Hspec).
  repeat split; try done.
  rewrite !length_fmap, (length_combined_invars _ _ _ _ Hspec).
  by rewrite (ls_num _ _ _ _ Hspec), (ls_out _ _ _ _ Hspec).
Qed.


Lemma length_invar_indices (invars region_invars : list Var) (n : nat)
    (ps : list nat) :
  invar_indices invars region_invars n = Ok ps →
  length ps = length (slice_until_neg region_invars n)
  ∧ Forall (λ p, p < length invars) ps.
Proof.
  unfold invar_indices. intros HF%mapM_Ok. split.
  - symmetry. by eapply Forall2_length.
  - apply Forall_forall. intros p (i & Hi)%list_elem_of_lookup.
    destruct (Forall2_lookup_r _ _ _ _ _ HF Hi) as (v & _ & Hv).
    by apply index_Ok_lt in Hv.
Qed.

Lemma donation_lookup_total donated (ps : list nat) (n : nat) :
  Forall (λ p, p < length donated + n) ps →
  ∃ flags, mapM (getitem (donated ++ replicate n false)) ps = Ok flags.
Proof.
  intros Hps. eexists.
  apply (mapM_Ok_fmap _
           (λ p, default false ((donated ++ replicate n false) !! p))).
  intros p Hp. rewrite Forall_forall in Hps. specialize (Hps p Hp).
  unfold getitem.
  destruct (lookup_lt_is_Some_2 (donated ++ replicate n false) p) as [f ->];
    [|done].
  rewrite length_app, length_replicate. lia.
Qed.

(** X12: the donation flags line up with the parameters of the two
    computations.  With at least one gradient and a gradient marker of as
    many outputs as inputs, when there is one flag per input of the traced
    program: the flags of the combined program are those with one [false]
    more per accumulator; accumulate_grad gets one flag per input of its
    region, [true] on the accumulators alone; apply_grad gets one flag
    per input of its region, the flag of the program input it renames on
    each, and [false] on the gradients. *)
Theorem donation_flags donated num_micro_batches raw_jaxpr choices names
    protos exe l :
  add_gradient_accumulation_locals APPLY_GRAD_MARKER_SUFFIX raw_jaxpr
    num_micro_batches = Ok l →
  shard_parallel_internal_gradient_accumulation APPLY_GRAD_MARKER_SUFFIX
    donated num_micro_batches raw_jaxpr choices names protos = Ok exe →
  num_grads l ≠ 0 → length (in_grad_vars l) = num_grads l →
  length donated = length (invars (jaxpr raw_jaxpr)) →
  let used_compute :=
    filter_used_vars (invars (jaxpr raw_jaxpr)) (compute_grad_eqns l) in
  let used_apply :=
    filter_used_vars (invars (jaxpr raw_jaxpr)) (apply_grad_eqns l) in
  donated_invars exe = donated ++ replicate (num_grads l) false
  ∧ length (donated_invars exe) = length (invars (jaxpr (combined_jaxpr l)))
  ∧ tmp_donate_invars (accumulate_grad exe)
    = replicate (length used_compute) false ++ replicate (num_grads l) true
  ∧ length (tmp_donate_invars (accumulate_grad exe))
    = length (eqn_invars (accumulate_start_marker l))
  ∧ length (tmp_donate_invars (apply_grad exe))
    = length (eqn_invars (apply_start_marker APPLY_GRAD_MARKER_SUFFIX l))
  ∧ (∀ j u, used_apply !! j = Some u →
       ∃ i, invars (jaxpr raw_jaxpr) !! i = Some u
            ∧ tmp_donate_invars (apply_grad exe) !! j = donated !! i)
  ∧ drop (length used_apply) (tmp_donate_invars (apply_grad exe))
    = replicate (num_grads l) false.
Proof.
  intros Hl Hexe Hn Harity Hdonated used_compute used_apply.
  destruct (executable_inv _ _ _ _ _ _ _ _ Hl Hexe)
    as (name0 & proto0 & proto1 & flags & Hflags & ->).
  apply add_gradient_accumulation_locals_spec in Hl as (Hspec & Hi1 & Hi2).
  unfold executable_of. simpl.
  apply length_invar_indices in Hi1 as Hlen1. destruct Hlen1 as [Hlen1 _].
  rewrite slice_until_neg_pos, length_take,
    (length_accumulate_grad_invars _ _ _ _ Hspec) in Hlen1 by done.
  fold used_compute in Hlen1.
  assert (length (accumulate_grad_invar_indices l) = length used_compute)
    as Hacc by lia.
  unfold invar_indices in Hi2. rewrite slice_until_neg_pos in Hi2 by done.
  rewrite (length_apply_grad_invars _ _ _ _ Hspec), Harity in Hi2.
  fold used_apply in Hi2.
  replace (length used_apply + num_grads l - num_grads l)
    with (length used_apply) in Hi2 by lia.
  rewrite (apply_indices_eq _ _ _ _ Hspec) in Hi2 by done.
  fold used_apply in Hi2. rewrite firstn_all in Hi2.
  apply mapM_Ok in Hi2, Hflags.
  pose proof (Forall2_length _ _ _ Hi2) as Hlen2.
  pose proof (Forall2_length _ _ _ Hflags) as Hlen3.
  split; [done|]. split.
  { rewrite length_app, length_replicate,
      (length_combined_invars _ _ _ _ Hspec). lia. }
  split; [by rewrite Hacc|]. split.
  { rewrite length_app, !length_replicate, length_fmap,
      (length_accumulate_grad_invars _ _ _ _ Hspec). fold used_compute. lia. }
  split.
  { rewrite length_app, !length_replicate, length_fmap,
      (length_apply_grad_invars _ _ _ _ Hspec). fold used_apply. lia. }
  split.
  - intros j u Hu.
    destruct (Forall2_lookup_l _ _ _ _ _ Hi2 Hu) as (i & Hi & Hindex).
    destruct (Forall2_lookup_l _ _ _ _ _ Hflags Hi) as (f & Hf & Hget).
    apply index_Ok in Hindex as [Hindex _]. exists i. split; [done|].
    apply getitem_Ok in Hget.
    rewrite lookup_app_l in Hget
      by (apply lookup_lt_Some in Hindex; lia).
    rewrite lookup_app_l by (by eapply lookup_lt_Some). congruence.
  - rewrite drop_app_length'; [done|lia].
Qed.

Lemma shard_parallel_internal_gradient_accumulation_pair donated
    num_micro_batches raw_jaxpr choices l flags (a b : string)
    (x y : HloProto) :
  add_gradient_accumulation_locals APPLY_GRAD_MARKER_SUFFIX raw_jaxpr
    num_micro_batches = Ok l →
  choices ≠ [] →
  mapM (getitem (donated ++ replicate (num_grads l) false))
    (apply_grad_invar_indices l) = Ok flags →
  shard_parallel_internal_gradient_accumulation APPLY_GRAD_MARKER_SUFFIX
    donated num_micro_batches raw_jaxpr choices [a; b] [x; y]
  = if endswith a APPLY_GRAD_MARKER_SUFFIX
       || endswith b APPLY_GRAD_MARKER_SUFFIX
    then Ok (executable_of APPLY_GRAD_MARKER_SUFFIX donated
               num_micro_batches l a x y flags)
    else Raise (AssertionError "").
Proof.
  intros Hl Hchoices Hflags.
  destruct (endswith a APPLY_GRAD_MARKER_SUFFIX
            || endswith b APPLY_GRAD_MARKER_SUFFIX) eqn:Hends.
  - apply shard_parallel_internal_gradient_accumulation_Ok.
    exists l, a, b, x, y, flags. repeat split; try done.
    apply orb_true_iff in Hends as [Ha|Hb]; [left | right];
      by apply Is_true_true.
  - apply orb_false_iff in Hends as [Ha Hb].
    unfold shard_parallel_internal_gradient_accumulation.
    assert (add_gradient_accumulation APPLY_GRAD_MARKER_SUFFIX raw_jaxpr
              num_micro_batches
            = Ok (combined_jaxpr l, accumulate_grad_invar_indices l,
                  apply_grad_invar_indices l, num_grads l)) as ->.
    { apply add_gradient_accumulation_Ok. by exists l. }
    destruct choices as [|mesh choices]; [done|].
    simpl. rewrite Ha. simpl. by rewrite Hb.
Qed.

(** X13: the two computations are told apart by the names of the HLO
    modules.  When the traced program is rewritten and there is one
    donation flag per input, the function returns exactly when one of the
    two names ends with the suffix of the apply-grad marker, and raises the
    assertion otherwise, as it does when the pass returns another number
    of modules than two.  apply_grad is the first module when its name
    ends with the suffix, and the second one otherwise; so that, when one
    name only ends with the suffix, the order in which the pass returns the
    modules does not matter. *)
Theorem stage_protos_ordered donated num_micro_batches raw_jaxpr choices l
    (a b : string) (x y : HloProto) :
  add_gradient_accumulation_locals APPLY_GRAD_MARKER_SUFFIX raw_jaxpr
    num_micro_batches = Ok l →
  length donated = length (invars (jaxpr raw_jaxpr)) →
  choices ≠ [] →
  let run := shard_parallel_internal_gradient_accumulation
               APPLY_GRAD_MARKER_SUFFIX donated num_micro_batches
               raw_jaxpr choices in
  (endswith a APPLY_GRAD_MARKER_SUFFIX
   ∨ endswith b APPLY_GRAD_MARKER_SUFFIX →
   ∃ exe, run [a; b] [x; y] = Ok exe
          ∧ hlo_proto (apply_grad exe)
            = (if endswith a APPLY_GRAD_MARKER_SUFFIX then x else y)
          ∧ hlo_proto (accumulate_grad exe)
            = (if endswith a APPLY_GRAD_MARKER_SUFFIX then y else x))
  ∧ (¬ endswith a APPLY_GRAD_MARKER_SUFFIX →
     ¬ endswith b APPLY_GRAD_MARKER_SUFFIX →
     run [a; b] [x; y] = Raise (AssertionError ""))
  ∧ (endswith a APPLY_GRAD_MARKER_SUFFIX
     ≠ endswith b APPLY_GRAD_MARKER_SUFFIX →
     run [a; b] [x; y] = run [b; a] [y; x])
  ∧ (∀ names protos, length protos ≠ 2 →
       run names protos = Raise (AssertionError "")).
Proof.
  intros Hl Hdonated Hchoices run.
  apply add_gradient_accumulation_locals_spec in Hl as Hspec.
  destruct Hspec as (Hspec & _ & Hi2).
  apply length_invar_indices in Hi2 as [_ Hi2].
  rewrite (length_combined_invars _ _ _ _ Hspec), <- Hdonated in Hi2.
  destruct (donation_lookup_total _ _ _ Hi2) as [flags Hflags].
  pose proof (shard_parallel_internal_gradient_accumulation_pair _ _ _ _ _ _
                a b x y Hl Hchoices Hflags) as Hab.
  pose proof (shard_parallel_internal_gradient_accumulation_pair _ _ _ _ _ _
                b a y x Hl Hchoices Hflags) as Hba.
  fold run in Hab, Hba. split; [|split; [|split]].
  - intros Hends. rewrite Hab.
    assert (endswith a APPLY_GRAD_MARKER_SUFFIX
            || endswith b APPLY_GRAD_MARKER_SUFFIX = true) as ->.
    { apply orb_true_iff.
      destruct Hends as [H|H]; [left | right]; by apply Is_true_true. }
    eexists. split; [done|]. unfold executable_of. simpl. done.
  - intros Ha%Is_true_false Hb%Is_true_false. by rewrite Hab, Ha, Hb.
  - intros Hne. rewrite Hab, Hba. unfold executable_of.
    destruct (endswith a APPLY_GRAD_MARKER_SUFFIX),
      (endswith b APPLY_GRAD_MARKER_SUFFIX); done.
  - intros names protos Hlen. unfold run,
      shard_parallel_internal_gradient_accumulation.
    assert (add_gradient_accumulation APPLY_GRAD_MARKER_SUFFIX raw_jaxpr
              num_micro_batches
            = Ok (combined_jaxpr l, accumulate_grad_invar_indices l,
                  apply_grad_invar_indices l, num_grads l)) as ->.
    { apply add_gradient_accumulation_Ok. by exists l. }
    destruct choices as [|mesh choices]; [done|].
    simpl. by rewrite decide_False.
Qed.

(** X14: a gradient marker without input leaves the callers without
    positions.  Both index lists are then empty, whatever the regions read;
    in the caller the slice [invars[:-num_grads]] is empty and
    [invars[-num_grads:]] is the whole list, so that every input of the
    combined program is taken for a gradient; and both computations get no
    donation flag, although the accumulate-grad region has one input per
    program input read before the marker. *)
Theorem zero_gradients raw_jaxpr num_micro_batches l :
  add_gradient_accumulation_locals APPLY_GRAD_MARKER_SUFFIX raw_jaxpr
    num_micro_batches = Ok l →
  num_grads l = 0 →
  accumulate_grad_invar_indices l = []
  ∧ apply_grad_invar_indices l = []
  ∧ length (eqn_invars (accumulate_start_marker l))
    = length (filter_used_vars (invars (jaxpr raw_jaxpr))
                (compute_grad_eqns l))
  ∧ ∀ donated choices names protos exe,
      shard_parallel_internal_gradient_accumulation APPLY_GRAD_MARKER_SUFFIX
        donated num_micro_batches raw_jaxpr choices names protos = Ok exe →
      in_avals exe = []
      ∧ grad_avals exe = aval <$> invars (jaxpr raw_jaxpr)
      ∧ tmp_donate_invars (accumulate_grad exe) = []
      ∧ tmp_donate_invars (apply_grad exe) = [].
Proof.
  intros Hl Hn.
  pose proof Hl as (Hspec & Hi1 & Hi2)%add_gradient_accumulation_locals_spec.
  unfold invar_indices in Hi1, Hi2. rewrite Hn in Hi1, Hi2.
  simpl in Hi1, Hi2. injection Hi1 as Hi1. injection Hi2 as Hi2.
  split; [done|]. split; [done|]. split.
  { simpl. rewrite length_fmap,
      (length_accumulate_grad_invars _ _ _ _ Hspec). lia. }
  intros donated choices names protos exe Hexe.
  destruct (executable_inv _ _ _ _ _ _ _ _ Hl Hexe)
    as (name0 & proto0 & proto1 & flags & Hflags & ->).
  rewrite <- Hi2 in Hflags. injection Hflags as <-.
  unfold executable_of. simpl. rewrite Hn, <- Hi1. simpl.
  split; [done|]. split; [|done].
  rewrite drop_0, (combined_invars _ _ _ _ Hspec), fmap_app,
    (aval_renamed_invars _ _ _ _ Hspec).
  rewrite drop_ge, app_nil_r; [done|].
  rewrite (length_accumulate_grad_invars _ _ _ _ Hspec). lia.
Qed.

End shard_parallel_internal_gradient_accumulation_properties.

(** * [shard_parallel_callable] *)

(** The loop that generates the search space of mesh shapes:
    [(num_devices // i, i)] for each [i] of [range(1, num_devices)] with
    [num_devices % i == 0]. *)
Definition logical_mesh_shapes (num_devices : Z) : list (Z * Z) :=
  (λ i, (num_devices `div` i, i)%Z)
    <$> filter (λ i, (num_devices `mod` i = 0)%Z) (seqZ 1 (num_devices - 1)).

Section shard_parallel_callable.
Context {LogicalDeviceMesh StrategyConfig : Type}.
(** [physical_mesh.get_logical_mesh(mesh_shape=logical_mesh_shape,
    mesh_topology="tree", inter_host_bandwidth=1,
    intra_host_bandwidth=30)] *)
Variable get_logical_mesh : Z * Z → LogicalDeviceMesh.
(** [physical_mesh.get_default_logical_mesh()] *)
Variable get_default_logical_mesh : LogicalDeviceMesh.

(** The branch of [shard_parallel_callable] for a physical mesh of
    [num_devices] devices: the logical meshes to choose from and the cached
    strategy, from the flag [shard_parallel_search_logical_mesh_shape] of
    the configuration and the configuration [inp.config] of the record that
    [load_best_record] found ([inp] is [None] without record file or
    without record). *)
Definition logical_mesh_choices
    (shard_parallel_search_logical_mesh_shape : bool)
    (inp : option StrategyConfig) (num_devices : Z)
  : list LogicalDeviceMesh * option StrategyConfig :=
  if shard_parallel_search_logical_mesh_shape then
    match inp with
    | None => (get_logical_mesh <$> logical_mesh_shapes num_devices, None)
    | Some config => ([], Some config)
    end
  else ([get_default_logical_mesh], None).

End shard_parallel_callable.

Lemma StronglySorted_seq (a n : nat) : StronglySorted lt (seq a n).
Proof.
  revert a. induction n as [|n IH]; intros a; simpl; constructor; [done|].
  apply Forall_seq. lia.
Qed.

Lemma StronglySorted_seqZ (m n : Z) : StronglySorted Z.lt (seqZ m n).
Proof.
  unfold seqZ. apply (StronglySorted_fmap _ lt); [lia|].
  apply StronglySorted_seq.
Qed.

Lemma StronglySorted_filter {A} (R : relation A) (P : A → Prop)
    `{∀ x, Decision (P x)} (l : list A) :
  StronglySorted R l → StronglySorted R (filter P l).
Proof.
  induction 1 as [|x l Hl IH Hx]; [constructor|].
  rewrite filter_cons. case_decide; [|done]. constructor; [done|].
  apply Forall_forall. intros y [_ Hy]%list_elem_of_filter.
  rewrite Forall_forall in Hx. by apply Hx.
Qed.

Lemma elem_of_logical_mesh_shapes (num_devices a b : Z) :
  (a, b) ∈ logical_mesh_shapes num_devices
  ↔ (1 ≤ b < num_devices ∧ a * b = num_devices)%Z.
Proof.
  unfold logical_mesh_shapes.
  rewrite list_elem_of_fmap. setoid_rewrite list_elem_of_filter.
  setoid_rewrite elem_of_seqZ. split.
  - intros (i & [= -> ->] & Hmod & Hi). split; [lia|].
    apply Z_div_exact_full_2 in Hmod; lia.
  - intros [Hb <-]. exists b. split.
    + f_equal. rewrite Z.div_mul; lia.
    + split; [|lia]. apply Z_mod_mult.
Qed.

Lemma logical_mesh_shapes_nil (num_devices : Z) :
  logical_mesh_shapes num_devices = [] ↔ (num_devices ≤ 1)%Z.
Proof.
  split.
  - intros Hnil. destruct (decide (num_devices ≤ 1)%Z) as [|Hn]; [done|].
    assert ((num_devices, 1%Z) ∈ logical_mesh_shapes num_devices) as Hin
      by (apply elem_of_logical_mesh_shapes; lia).
    rewrite Hnil in Hin. by apply elem_of_nil in Hin.
  - intros Hn. unfold logical_mesh_shapes. by rewrite seqZ_nil by lia.
Qed.

(** X15: the search space of mesh shapes for [num_devices] devices holds
    exactly the pairs [(a, b)] with [a * b = num_devices] and
    [1 <= b < num_devices], each once, by increasing [b].  It starts with
    [(num_devices, 1)] when there are two devices or more, never holds the
    flat shape [(1, num_devices)], and is empty for one device or none. *)
Theorem logical_mesh_shapes_spec (num_devices : Z) :
  (∀ a b, (a, b) ∈ logical_mesh_shapes num_devices
          ↔ (1 ≤ b < num_devices ∧ a * b = num_devices)%Z)
  ∧ StronglySorted (λ s t, (s.2 < t.2)%Z) (logical_mesh_shapes num_devices)
  ∧ NoDup (logical_mesh_shapes num_devices)
  ∧ ((1%Z, num_devices) ∉ logical_mesh_shapes num_devices)
  ∧ (logical_mesh_shapes num_devices = [] ↔ (num_devices ≤ 1)%Z)
  ∧ ((2 ≤ num_devices)%Z →
     head (logical_mesh_shapes num_devices) = Some (num_devices, 1%Z)).
Proof.
  assert (StronglySorted (λ s t : Z * Z, (s.2 < t.2)%Z)
            (logical_mesh_shapes num_devices)) as Hsorted.
  { unfold logical_mesh_shapes.
    apply (StronglySorted_fmap _ Z.lt); [done|].
    apply StronglySorted_filter, StronglySorted_seqZ. }
  split; [apply elem_of_logical_mesh_shapes|]. split; [done|]. split.
  { clear -Hsorted. induction Hsorted as [|s l Hl IH Hs]; constructor;
      [|done].
    intros Hin. rewrite Forall_forall in Hs. specialize (Hs s Hin). lia. }
  split; [rewrite elem_of_logical_mesh_shapes; lia|].
  split; [apply logical_mesh_shapes_nil|].
  intros Hn. unfold logical_mesh_shapes. rewrite seqZ_cons by lia.
    rewrite filter_cons_True by apply Z.mod_1_r. simpl.
    by rewrite Z.div_1_r.
Qed.

Section search_space_properties.
Variable APPLY_GRAD_MARKER_SUFFIX : string.
Context {HloProto LogicalDeviceMesh StrategyConfig : Type}.
Variable get_logical_mesh : Z * Z → LogicalDeviceMesh.
Variable get_default_logical_mesh : LogicalDeviceMesh.

(** X16: the callable of gradient accumulation cannot be built from an
    empty list of logical meshes, which is what [shard_parallel_callable]
    hands over exactly when the search for a mesh shape is on and a cached
    record was found, or the mesh has a single device: the function then
    raises, with [IndexError] on [logical_mesh_choices[0]] once the traced
    program is rewritten. *)
Theorem empty_search_space_raises (search : bool)
    (inp : option StrategyConfig) (num_devices : Z) (donated : list bool)
    (num_micro_batches : Z) (raw_jaxpr : ClosedJaxpr) (names : list string)
    (protos : list HloProto) :
  let choices :=
    (logical_mesh_choices get_logical_mesh get_default_logical_mesh search
       inp num_devices).1 in
  let run := shard_parallel_internal_gradient_accumulation
               APPLY_GRAD_MARKER_SUFFIX donated num_micro_batches
               raw_jaxpr in
  (choices = [] ↔ search ∧ (is_Some inp ∨ (num_devices ≤ 1)%Z))
  ∧ (choices = [] →
     (∃ exn, run choices names protos = Raise exn)
     ∧ ∀ l, add_gradient_accumulation_locals APPLY_GRAD_MARKER_SUFFIX
              raw_jaxpr num_micro_batches = Ok l →
            run choices names protos = Raise IndexError).
Proof.
  intros choices run. split.
  - unfold choices, logical_mesh_choices.
    destruct search, inp as [config|]; simpl.
    + split; [|done]. intros _. split; [done|]. left. by eexists.
    + split.
      * intros Hn%fmap_nil_inv%logical_mesh_shapes_nil. split; [done|].
        by right.
      * intros [_ [[? [=]]|Hn%logical_mesh_shapes_nil]]. by rewrite Hn.
    + split; [done|]. by intros [[] _].
    + split; [done|]. by intros [[] _].
  - intros ->. unfold run, shard_parallel_internal_gradient_accumulation.
    destruct (add_gradient_accumulation APPLY_GRAD_MARKER_SUFFIX raw_jaxpr
                num_micro_batches) as [[[[cj i1] i2] n]|exn] eqn:Haga.
    + split; [by eexists|]. done.
    + split; [by eexists|]. intros l Hl.
      assert (add_gradient_accumulation APPLY_GRAD_MARKER_SUFFIX raw_jaxpr
                num_micro_batches
              = Ok (combined_jaxpr l, accumulate_grad_invar_indices l,
                    apply_grad_invar_indices l, num_grads l)) as Hok.
      { apply add_gradient_accumulation_Ok. by exists l. }
      congruence.
Qed.

End search_space_properties.

(** * [alpa/testing.py] *)

(** ** [data_loader_test_input_iter_func] *)

(** What stops the iteration: the division by a zero [batch_size], or
    NumPy's [ValueError], "negative dimensions are not allowed". *)
Inductive IterationError :=
  | ZeroDivisionError
  | NegativeDimensions.

(** The array [factor * np.ones(shape, dtype=dtype)]. *)
Record ScaledOnes := mkScaledOnes {
  factor : Z;
  ones_shape : list Z;
  ones_dtype : string
}.

(** [i * np.ones(shape, dtype=dtype)]; [np.ones] raises on a negative
    dimension. *)
Definition scaled_ones (i : Z) (shape : list Z) (dtype : string)
  : IterationError + ScaledOnes :=
  if decide (Forall (λ d, 0 ≤ d)%Z shape) then inr (mkScaledOnes i shape dtype)
  else inl NegativeDimensions.

(** The body of the loop for the given indices, with the pairs it
    yields until an exception stops it. *)
Fixpoint data_loader_batches (batch_size : Z) (indices : list Z)
  : IterationError + list (ScaledOnes * ScaledOnes) :=
  match indices with
  | [] => inr []
  | i :: indices =>
      match scaled_ones i [batch_size; 32%Z] "float32" with
      | inl exn => inl exn
      | inr x =>
          match scaled_ones i [batch_size] "int32" with
          | inl exn => inl exn
          | inr y =>
              match data_loader_batches batch_size indices with
              | inl exn => inl exn
              | inr batches => inr ((x, y) :: batches)
              end
          end
      end
  end.

(** The generator run to its end, for integer arguments: the pairs it
    yields, or the exception that its first step raises. *)
Definition data_loader_test_input_iter_func (start end_ batch_size : Z)
  : IterationError + list (ScaledOnes * ScaledOnes) :=
  if decide (batch_size = 0%Z) then inl ZeroDivisionError
  else
    let num_batches := ((end_ - start) `div` batch_size)%Z in
    data_loader_batches batch_size (seqZ 0 num_batches).

Lemma data_loader_batches_nonneg (batch_size : Z) (indices : list Z) :
  (0 ≤ batch_size)%Z →
  data_loader_batches batch_size indices
  = inr ((λ i, (mkScaledOnes i [batch_size; 32%Z] "float32",
                mkScaledOnes i [batch_size] "int32")) <$> indices).
Proof.
  intros Hb. induction indices as [|i indices IH]; [done|]. simpl.
  unfold scaled_ones.
  rewrite !decide_True by (repeat constructor; lia). by rewrite IH.
Qed.

Lemma data_loader_batches_neg (batch_size : Z) (indices : list Z) :
  (batch_size < 0)%Z → indices ≠ [] →
  data_loader_batches batch_size indices = inl NegativeDimensions.
Proof.
  intros Hb Hne. destruct indices as [|i indices]; [done|]. simpl.
  unfold scaled_ones. rewrite decide_False; [done|].
  intros [Hd _]%Forall_cons. lia.
Qed.

(** X17: the test loader yields [(end - start) // batch_size] batches,
    none when this is negative, and drops the rest of the range: for a
    positive [batch_size], batch [i] is the pair of [i * np.ones] of shapes
    [(batch_size, 32)] and [(batch_size,)], and the rows of the batches fit
    in the range, less than one batch being left over.  A zero [batch_size]
    raises [ZeroDivisionError]; a negative one raises NumPy's [ValueError]
    as soon as a batch is due, that is when [end <= start + batch_size], and
    yields nothing otherwise. *)
Theorem data_loader_batches_spec (start end_ batch_size : Z) :
  let num_batches := ((end_ - start) `div` batch_size)%Z in
  ((0 < batch_size)%Z →
   ∃ batches,
     data_loader_test_input_iter_func start end_ batch_size = inr batches
     ∧ length batches = Z.to_nat num_batches
     ∧ (∀ i, (0 ≤ i < num_batches)%Z →
          batches !! Z.to_nat i
          = Some (mkScaledOnes i [batch_size; 32%Z] "float32",
                  mkScaledOnes i [batch_size] "int32"))
     ∧ ((start ≤ end_)%Z →
        (num_batches * batch_size ≤ end_ - start
         < (num_batches + 1) * batch_size)%Z)
     ∧ ((end_ < start + batch_size)%Z → batches = []))
  ∧ (batch_size = 0%Z →
     data_loader_test_input_iter_func start end_ batch_size
     = inl ZeroDivisionError)
  ∧ ((batch_size < 0)%Z →
     data_loader_test_input_iter_func start end_ batch_size
     = if decide (end_ ≤ start + batch_size)%Z then inl NegativeDimensions
       else inr []).
Proof.
  intros num_batches. unfold data_loader_test_input_iter_func.
  fold num_batches. split; [|split].
  - intros Hb. rewrite decide_False by lia.
    rewrite data_loader_batches_nonneg by lia. eexists. split; [done|].
    split; [by rewrite length_fmap, length_seqZ|]. split.
    { intros i Hi. rewrite list_lookup_fmap, lookup_seqZ_lt by lia. simpl.
      by rewrite Z2Nat.id, Z.add_0_l by lia. }
    split.
    { intros Hle. unfold num_batches.
      pose proof (Z.div_mod (end_ - start) batch_size) as Hdiv.
      pose proof (Z.mod_pos_bound (end_ - start) batch_size). lia. }
    intros Hlt. rewrite seqZ_nil; [done|]. unfold num_batches.
    apply Z.lt_succ_r, Z.div_lt_upper_bound; lia.
  - intros ->. by rewrite decide_True.
  - intros Hb. rewrite decide_False by lia.
    assert (num_batches = (start - end_) `div` (- batch_size))%Z as Hopp.
    { unfold num_batches. rewrite <- Z.div_opp_opp by lia. f_equal. lia. }
    case_decide as Hdue.
    + apply data_loader_batches_neg; [done|].
      intros Hnil%(f_equal length). rewrite length_seqZ in Hnil. simpl in Hnil.
      assert (1 ≤ num_batches)%Z; [|lia]. rewrite Hopp.
      apply Z.div_le_lower_bound; lia.
    + rewrite seqZ_nil; [done|]. rewrite Hopp.
      apply Z.lt_succ_r, Z.div_lt_upper_bound; lia.
Qed.

(** * Further worked programs *)

(** The worked program with a second gradient marker after the first. *)
Definition var_h : Var := mkVar 7 f32.

Definition second_marker : JaxprEqn :=
  new_jaxpr_eqn [AVar var_g'] [var_h] pipeline_p (marker_params "grad" "grad").

Definition example_two_markers : ClosedJaxpr :=
  mkClosedJaxpr
    (mkJaxpr [] [var_o; var_p; var_x] [AVar var_new_o; AVar var_new_p]
       [compute_grad_eqn; example_marker; second_marker;
        new_jaxpr_eqn [AVar var_o; AVar var_p; AVar var_h]
          [var_new_o; var_new_p] (other_p "sgd") ∅])
    [].

(** More of the values bound on the worked program. *)
Lemma example_locals_marker :
  ∃ l, add_gradient_accumulation_locals "apply_grad" example_jaxpr 4 = Ok l
       ∧ num_grads l = 1
       ∧ marker_pos l = 1
       ∧ marker_eqn l = example_marker
       ∧ in_grad_vars l = [var_g']
       ∧ apply_old_invars l = [var_o; var_p; var_g']
       ∧ compute_grad_eqns l = [compute_grad_eqn]
       ∧ apply_grad_eqns l = [apply_grad_eqn].
Proof.
  apply Ok_eval. vm_compute.
  split; [reflexivity|]. split; [reflexivity|]. split; [reflexivity|].
  split; [reflexivity|]. split; [reflexivity|]. split; reflexivity.
Qed.

Lemma example_well_scoped : well_scoped (jaxpr example_jaxpr).
Proof. apply (bool_decide_unpack _). by vm_compute. Qed.

Lemma example_has_mark_type :
  Forall has_mark_type (eqns (jaxpr example_jaxpr)).
Proof.
  repeat constructor; unfold has_mark_type; by simpl.
Qed.

(** The callable of the worked program, for the two modules that the
    pass returns in either order. *)
Lemma example_executable :
  ∃ exe : @GradAccMeshDriverExecutable string,
    shard_parallel_internal_gradient_accumulation "apply_grad"
      [true; true; false] 4 example_jaxpr [()]
      ["train_step_apply_grad"; "train_step_accumulate_grad"]
      ["apply"; "accumulate"] = Ok exe
    ∧ in_avals exe = [f32; f32; f32]
    ∧ grad_avals exe = [f32]
    ∧ out_avals exe = [f32; f32]
    ∧ donated_invars exe = [true; true; false; false]
    ∧ accumulate_grad exe = mkXlaComputation "accumulate" [false; false; true]
    ∧ apply_grad exe = mkXlaComputation "apply" [true; true; false].
Proof.
  apply Ok_eval. vm_compute.
  split; [reflexivity|]. split; [reflexivity|]. split; [reflexivity|].
  split; [reflexivity|]. split; reflexivity.
Qed.

(** Witness of X2 on the worked program: its combined program cannot be
    rewritten again. *)
Lemma grad_marker_consumed_witness :
  ∃ l, add_gradient_accumulation_locals "apply_grad" example_jaxpr 4 = Ok l
       ∧ add_gradient_accumulation "apply_grad" (combined_jaxpr l) 4
         = Raise (AssertionError "Must have exactly one gradient marker").
Proof.
  destruct example_locals_marker as (l & Hl & _ & Hpos & _).
  exists l. split; [exact Hl|].
  destruct (grad_marker_consumed "apply_grad" example_jaxpr 4 l Hl)
    as [_ Hagain].
  destruct (Hagain (λ q e Hq Hg,
                      eq_trans (example_marker_unique q e Hq Hg)
                        (eq_sym Hpos)) 4%Z) as [_ Hraise].
  exact (Hraise example_has_mark_type).
Defined.

(** Witness of X3 on the program with two gradient markers. *)
Lemma search_stops_at_first_marker_witness :
  ∃ cj i1 i2 n,
    add_gradient_accumulation "apply_grad" example_two_markers 4
      = Ok (cj, i1, i2, n)
    ∧ n = 1
    ∧ eqns (jaxpr cj) !! (2 + 2 * n + 2) = Some second_marker.
Proof.
  destruct (search_stops_at_first_marker "apply_grad" example_two_markers 4 1
              example_marker)
    as (cj & i1 & i2 & n & Hr & Hn & Hkept).
  - reflexivity.
  - exact example_marker_grad.
  - intros [|k] e Hk He; [|lia]. injection He as <-.
    split; [discriminate | intros [Hprim _]; discriminate Hprim].
  - reflexivity.
  - exact example_invars_NoDup.
  - exists cj, i1, i2, n. split; [exact Hr|]. split; [exact Hn|].
    apply Hkept; [lia | reflexivity].
Defined.

(** Witness of X4 on the worked program. *)
Lemma region_markers_preserve_avals_witness :
  ∃ l, add_gradient_accumulation_locals "apply_grad" example_jaxpr 4 = Ok l
       ∧ aval_preserving (accumulate_start_marker l)
       ∧ aval_preserving (apply_start_marker "apply_grad" l).
Proof.
  destruct example_locals_marker as (l & Hl & _ & _ & Hm & _).
  destruct (region_markers_preserve_avals "apply_grad" example_jaxpr 4 l Hl)
    as (Hstart & _ & _ & Happly).
  exists l. split; [exact Hl|]. split; [exact Hstart|].
  apply Happly. rewrite Hm. reflexivity.
Defined.

(** Witness of X5 on the worked program. *)
Lemma combined_program_well_scoped_witness :
  ∃ l, add_gradient_accumulation_locals "apply_grad" example_jaxpr 4 = Ok l
       ∧ well_scoped (jaxpr (combined_jaxpr l)).
Proof.
  destruct example_locals_marker as (l & Hl & _ & _ & Hm & _).
  exists l. split; [exact Hl|].
  apply (combined_program_well_scoped "apply_grad" example_jaxpr 4 l Hl
           example_invars_NoDup example_well_scoped).
  intros v Hv Hin. rewrite Hm in Hv. simpl in Hv.
  apply list_elem_of_singleton in Hv. injection Hv as ->.
  exfalso. simpl in Hin.
  repeat (apply elem_of_cons in Hin as [Hin|Hin]; [discriminate Hin|]).
  by apply elem_of_nil in Hin.
Defined.

(** Witness of X6 on the worked program, which has a gradient: its
    combined program binds a variable twice. *)
Lemma combined_single_assignment_witness :
  ∃ l, add_gradient_accumulation_locals "apply_grad" example_jaxpr 4 = Ok l
       ∧ ¬ NoDup (jaxpr_vars (jaxpr (combined_jaxpr l))).
Proof.
  destruct example_locals as (l & Hl & Hone & _).
  exists l. split; [exact Hl|]. intros Hnd.
  apply (combined_single_assignment "apply_grad" example_jaxpr 4 l Hl
           example_single_assignment) in Hnd as [Hzero _].
  rewrite Hone in Hzero. discriminate Hzero.
Defined.

(** Witness of X11 on the worked program. *)
Lemma executable_avals_witness :
  ∃ (exe : @GradAccMeshDriverExecutable string) l,
    shard_parallel_internal_gradient_accumulation "apply_grad"
      [true; true; false] 4 example_jaxpr [()]
      ["train_step_apply_grad"; "train_step_accumulate_grad"]
      ["apply"; "accumulate"] = Ok exe
    ∧ add_gradient_accumulation_locals "apply_grad" example_jaxpr 4 = Ok l
    ∧ in_avals exe = aval <$> invars (jaxpr example_jaxpr)
    ∧ grad_avals exe = get_aval <$> eqn_invars (marker_eqn l)
    ∧ out_avals exe = get_aval <$> outvars (jaxpr example_jaxpr).
Proof.
  destruct example_executable as (exe & Hexe & _).
  destruct example_locals_marker as (l & Hl & Hone & _).
  assert (num_grads l ≠ 0) as Hn by (rewrite Hone; discriminate).
  destruct (executable_avals "apply_grad" _ _ _ _ _ _ exe l Hl Hexe Hn)
    as (Hin & Hgrad & Hout & _).
  exists exe, l. split; [exact Hexe|]. split; [exact Hl|].
  split; [exact Hin|]. split; [exact Hgrad | exact Hout].
Defined.

(** Witness of X12 on the worked program. *)
Lemma donation_flags_witness :
  ∃ (exe : @GradAccMeshDriverExecutable string) l,
    shard_parallel_internal_gradient_accumulation "apply_grad"
      [true; true; false] 4 example_jaxpr [()]
      ["train_step_apply_grad"; "train_step_accumulate_grad"]
      ["apply"; "accumulate"] = Ok exe
    ∧ add_gradient_accumulation_locals "apply_grad" example_jaxpr 4 = Ok l
    ∧ donated_invars exe = [true; true; false] ++ replicate (num_grads l) false
    ∧ length (tmp_donate_invars (accumulate_grad exe))
      = length (eqn_invars (accumulate_start_marker l))
    ∧ length (tmp_donate_invars (apply_grad exe))
      = length (eqn_invars (apply_start_marker "apply_grad" l)).
Proof.
  destruct example_executable as (exe & Hexe & _).
  destruct example_locals_marker as (l & Hl & Hone & _ & _ & Hin & _).
  assert (num_grads l ≠ 0) as Hn by (rewrite Hone; discriminate).
  assert (length (in_grad_vars l) = num_grads l) as Harity
    by (rewrite Hin, Hone; reflexivity).
  destruct (donation_flags "apply_grad" _ _ _ _ _ _ exe l Hl Hexe Hn Harity
              eq_refl)
    as (Hdonated & _ & _ & Hacc & Happly & _).
  exists exe, l. split; [exact Hexe|]. split; [exact Hl|].
  split; [exact Hdonated|]. split; [exact Hacc | exact Happly].
Defined.

(** Witness of X13 on the worked program: the order of the two modules
    does not matter. *)
Lemma stage_protos_ordered_witness :
  ∃ exe : @GradAccMeshDriverExecutable string,
    shard_parallel_internal_gradient_accumulation "apply_grad"
      [true; true; false] 4 example_jaxpr [()]
      ["train_step_apply_grad"; "train_step_accumulate_grad"]
      ["apply"; "accumulate"] = Ok exe
    ∧ hlo_proto (apply_grad exe) = "apply"
    ∧ hlo_proto (accumulate_grad exe) = "accumulate"
    ∧ shard_parallel_internal_gradient_accumulation "apply_grad"
        [true; true; false] 4 example_jaxpr [()]
        ["train_step_accumulate_grad"; "train_step_apply_grad"]
        ["accumulate"; "apply"] = Ok exe.
Proof.
  destruct example_locals as (l & Hl & _).
  destruct (stage_protos_ordered "apply_grad" [true; true; false] 4
              example_jaxpr [()] l "train_step_apply_grad"
              "train_step_accumulate_grad" "apply" "accumulate" Hl eq_refl)
    as (Hreturns & _ & Horder & _); [discriminate|].
  destruct Hreturns as (exe & Hexe & Happly & Hacc); [by left|].
  exists exe. split; [exact Hexe|]. split; [exact Happly|].
  split; [exact Hacc|]. rewrite <- Horder; [exact Hexe | discriminate].
Defined.

Lemma example_no_grads_locals :
  ∃ l, add_gradient_accumulation_locals "apply_grad" example_no_grads 4
         = Ok l
       ∧ num_grads l = 0
       ∧ compute_grad_eqns l = [compute_grad_eqn].
Proof. apply Ok_eval. vm_compute. split; reflexivity. Qed.

(** Witness of X14 on the program whose gradient marker takes no
    gradient. *)
Lemma zero_gradients_witness :
  ∃ l, add_gradient_accumulation_locals "apply_grad" example_no_grads 4
         = Ok l
       ∧ accumulate_grad_invar_indices l = []
       ∧ apply_grad_invar_indices l = []
       ∧ length (eqn_invars (accumulate_start_marker l)) = 2.
Proof.
  destruct example_no_grads_locals as (l & Hl & Hn & Hcompute).
  destruct (zero_gradients "apply_grad" (HloProto := string)
              (LogicalDeviceMesh := unit) example_no_grads 4 l Hl Hn)
    as (Hacc & Happly & Hlen & _).
  exists l. split; [exact Hl|]. split; [exact Hacc|]. split; [exact Happly|].
  rewrite Hlen, Hcompute. reflexivity.
Defined.

(** Witness of X7 on the worked program: a count of zero is taken as
    well. *)
Lemma micro_batch_count_only_divides_witness :
  ∃ l l',
    add_gradient_accumulation_locals "apply_grad" example_jaxpr 4 = Ok l
    ∧ add_gradient_accumulation_locals "apply_grad" example_jaxpr 0 = Ok l'
    ∧ invars (jaxpr (combined_jaxpr l')) = invars (jaxpr (combined_jaxpr l))
    ∧ accumulate_grad_invar_indices l' = accumulate_grad_invar_indices l
    ∧ apply_grad_invar_indices l' = apply_grad_invar_indices l.
Proof.
  destruct example_locals as (l & Hl & _).
  destruct (micro_batch_count_only_divides "apply_grad" example_jaxpr 4 0 l Hl)
    as (l' & Hl' & _ & Hi1 & Hi2 & Hinvars & _).
  exists l, l'. split; [exact Hl|]. split; [exact Hl'|].
  split; [exact Hinvars|]. split; [exact Hi1 | exact Hi2].
Defined.

(** The worked program after a marker without type. *)
Definition example_untyped_marker : ClosedJaxpr :=
  mkClosedJaxpr
    (mkJaxpr [] [var_o; var_p; var_x] [AVar var_new_o; AVar var_new_p]
       [new_jaxpr_eqn [] [] pipeline_p ∅; compute_grad_eqn; example_marker;
        apply_grad_eqn])
    [].

(** Witness of X8. *)
Lemma marker_without_type_raises_witness :
  add_gradient_accumulation "apply_grad" example_untyped_marker 4
  = Raise (KeyError "mark_type").
Proof.
  apply (marker_without_type_raises "apply_grad" example_untyped_marker 4 0
           (new_jaxpr_eqn [] [] pipeline_p ∅)).
  - reflexivity.
  - reflexivity.
  - reflexivity.
  - intros j e' Hj. lia.
Defined.

(** The worked program with a gradient marker of one input and two
    outputs. *)
Definition example_wide_marker : ClosedJaxpr :=
  mkClosedJaxpr
    (mkJaxpr [] [var_o; var_p; var_x] [AVar var_new_o; AVar var_new_p]
       [compute_grad_eqn;
        new_jaxpr_eqn [AVar var_g] [var_g'; var_h] pipeline_p
          (marker_params "grad" "grad");
        apply_grad_eqn])
    [].

(** Witness of X9. *)
Lemma marker_with_more_outputs_raises_witness :
  add_gradient_accumulation "apply_grad" example_wide_marker 4
  = Raise IndexError.
Proof.
  apply (marker_with_more_outputs_raises "apply_grad" example_wide_marker 4 1
           (new_jaxpr_eqn [AVar var_g] [var_g'; var_h] pipeline_p
              (marker_params "grad" "grad"))).
  - reflexivity.
  - split; reflexivity.
  - intros [|k] e Hk He; [|lia]. injection He as <-.
    split; [discriminate | intros [Hprim _]; discriminate Hprim].
  - apply (bool_decide_unpack _). by vm_compute.
  - intros v Hv Hin. simpl in Hv, Hin.
    apply elem_of_cons in Hv as [->|Hv].
    + repeat (apply elem_of_cons in Hin as [Hin|Hin]; [discriminate Hin|]).
      by apply elem_of_nil in Hin.
    + apply list_elem_of_singleton in Hv as ->.
      repeat (apply elem_of_cons in Hin as [Hin|Hin]; [discriminate Hin|]).
      by apply elem_of_nil in Hin.
  - simpl. lia.
Defined.

(** Witness of X10 on the worked program: its three inputs are read and
    renamed. *)
Lemma inputs_renamed_iff_used_witness :
  ∃ l w,
    add_gradient_accumulation_locals "apply_grad" example_jaxpr 4 = Ok l
    ∧ invars (jaxpr (combined_jaxpr l)) !! 0 = Some w
    ∧ aval w = aval var_o.
Proof.
  destruct example_locals as (l & Hl & _).
  destruct (inputs_renamed_iff_used "apply_grad" example_jaxpr 4 l 0 var_o Hl
              example_invars_NoDup eq_refl) as (w & Hw & Haval & _).
  exists l, w. split; [exact Hl|]. split; [exact Hw | exact Haval].
Defined.
